(** * DexScreener trading simulator: position accounting, rate limiter,
      request queue and subscription registry

    A shallow embedding of the TypeScript sources
    - [app/page.tsx] (the position accountant [calculatePositionPnL], the
      trade handler [handleTrade], [addToken] and [handlePriceUpdate]),
    - [services/dexscreener-service.ts] (the [RateLimiter], the request queue
      of [DexScreenerService], the single and the batch fetch, the refresh
      timer of [startUpdates], [subscribe], [unsubscribe] and
      [getTokenData]),
    - [components/trading-card.tsx] (the price history of a card) and
    - [lib/utils.ts] ([formatCurrency] and [calculatePercentChange]),
    followed by the properties proved about them.

    JavaScript's [number] is an IEEE 754 binary64 value; it is modelled by
    Rocq's primitive [float], whose operations are the binary64 ones (so the
    division by zero, NaN and the infinities behave as they do in the
    source).  Millisecond clock readings ([Date.now()]) and request counters
    are integers far below 2^53 and are modelled by [Z]. *)

From Stdlib Require Import ZArith List Bool Lia String Ascii.
From Stdlib Require Import Floats.
From stdpp Require Import base gmap strings list fin_maps.

Local Open Scope Z_scope.

(* ===================================================================== *)
(** * Part I: the embedding                                               *)
(* ===================================================================== *)

(** ** JavaScript values used by the sources *)

Module Js.

(** The outcome of running a piece of JavaScript: it returns normally or it
    throws.  Arithmetic on numbers never throws. *)
Inductive completion (A : Type) : Type :=
| Normal (a : A)
| Throw (message : string).
Arguments Normal {A} a.
Arguments Throw {A} message.

(** [x > y] and [x <= y] on numbers. *)
Definition gt (x y : float) : bool := PrimFloat.ltb y x.
Definition le (x y : float) : bool := PrimFloat.leb x y.

(** [x || 0] on a number: a falsy number ([0], [-0] or [NaN]) gives [0]. *)
Definition or_zero (x : float) : float :=
  if PrimFloat.is_nan x || PrimFloat.is_zero x then 0%float else x.

(** [String.prototype.toLowerCase], on the ASCII letters token addresses
    are written with. *)
Definition lower_ascii (c : ascii) : ascii :=
  let n := nat_of_ascii c in
  if (65 <=? n)%nat && (n <=? 90)%nat then ascii_of_nat (n + 32) else c.

Fixpoint toLowerCase (s : string) : string :=
  match s with
  | EmptyString => EmptyString
  | String c s' => String (lower_ascii c) (toLowerCase s')
  end.

(** [Array.prototype.sort(compareFn)]: the sort is stable, and an element
    moves behind another one only when the comparator's answer for the two
    is positive ([SortCompare] reads a [NaN] answer as [+0]). *)
Section Sort.
Context {A : Type} (compareFn : A -> A -> float).

Definition sortCompare (x y : A) : float :=
  let v := compareFn x y in
  if PrimFloat.is_nan v then 0%float else v.

Fixpoint insert (x : A) (sorted : list A) : list A :=
  match sorted with
  | [] => [x]
  | y :: rest =>
      if gt (sortCompare x y) 0 then y :: insert x rest else x :: y :: rest
  end.

Definition sort (l : list A) : list A := fold_right insert [] l.
End Sort.

(** A [Map] with string keys whose iteration order matters: the entries in
    insertion order.  [set] on a present key replaces the value in place. *)
Section OrderedMap.
Context {V : Type}.

Fixpoint map_get (k : string) (m : list (string * V)) : option V :=
  match m with
  | [] => None
  | (k', v) :: m' => if String.eqb k k' then Some v else map_get k m'
  end.

Definition map_has (k : string) (m : list (string * V)) : bool :=
  match map_get k m with Some _ => true | None => false end.

Fixpoint map_set (k : string) (v : V) (m : list (string * V))
  : list (string * V) :=
  match m with
  | [] => [(k, v)]
  | (k', v') :: m' =>
      if String.eqb k k' then (k, v) :: m' else (k', v') :: map_set k v m'
  end.
End OrderedMap.

(** A [Set] of callbacks: the members in insertion order.  A callback is
    compared by identity, which a natural number stands for. *)
Definition Callback : Type := nat.

Definition set_has (c : Callback) (s : list Callback) : bool :=
  existsb (Nat.eqb c) s.

Definition set_add (c : Callback) (s : list Callback) : list Callback :=
  if set_has c s then s else s ++ [c].

Definition set_delete (c : Callback) (s : list Callback) : list Callback :=
  List.filter (fun c' => negb (Nat.eqb c c')) s.

End Js.

(** ** [services/dexscreener-service.ts]: the pair a fetch returns *)

Module Dex.

Record Token : Type := mkToken {
  address : string;
  name : string;
  symbol : string
}.

(** [liquidity], read by the code as [pair.liquidity?.usd || 0]: the object
    and its [usd] field may each be missing. *)
Record Liquidity : Type := mkLiquidity { usd : option float }.

(** The fields of [interface DexScreenerPair] the code reads. *)
Record DexScreenerPair : Type := mkPair {
  pairAddress : string;
  baseToken : Token;
  priceUsd : string;
  liquidity : option Liquidity
}.

(** [pair.liquidity?.usd || 0]. *)
Definition liquidityUsd (pair : DexScreenerPair) : float :=
  match liquidity pair with
  | Some l => match usd l with Some x => Js.or_zero x | None => 0%float end
  | None => 0%float
  end.

(** [pair.baseToken.address.toLowerCase()]. *)
Definition baseAddress (pair : DexScreenerPair) : string :=
  Js.toLowerCase (address (baseToken pair)).

End Dex.

(** ** [app/page.tsx]: the position accountant and the trade handler *)

Module Position.

Inductive TradeType : Set := buy | sell.

(** [interface Trade]. *)
Record Trade : Type := mkTrade {
  id : string;
  symbol : string;
  type : TradeType;
  amount : float;
  price : float;
  value : float;
  timestamp : Z;
  pnl : option float;
  pnlPercent : option float
}.

(** The three local variables of [calculatePositionPnL]. *)
Record Totals : Type := mkTotals {
  totalCost : float;
  totalTokens : float;
  realizedPnL : float
}.

(** The object [calculatePositionPnL] returns; its fields carry the prefix
    [pnl_] (the locals above have the plain names). *)
Record PnLData : Type := mkPnLData {
  pnl_realizedPnL : float;
  pnl_unrealizedPnL : float;
  pnl_totalPnL : float;
  pnl_totalTokens : float;
  pnl_averageCost : float
}.

(** The body of the [trades.forEach] callback. *)
Definition replayTrade (acc : Totals) (trade : Trade) : Totals :=
  match type trade with
  | buy =>
      {| totalCost := totalCost acc + value trade;
         totalTokens := totalTokens acc + amount trade;
         realizedPnL := realizedPnL acc |}
  | sell =>
      let avgCost := (totalCost acc / totalTokens acc)%float in
      let saleValue := (amount trade * price trade)%float in
      let costBasis := (amount trade * avgCost)%float in
      let remainingRatio :=
        ((totalTokens acc - amount trade) / totalTokens acc)%float in
      {| totalCost := totalCost acc * remainingRatio;
         totalTokens := totalTokens acc - amount trade;
         realizedPnL := realizedPnL acc + (saleValue - costBasis) |}
  end.

Definition zeroTotals : Totals :=
  {| totalCost := 0; totalTokens := 0; realizedPnL := 0 |}.

(** [trades.forEach(...)] from the zero state. *)
Definition replay (trades : list Trade) : Totals :=
  fold_left replayTrade trades zeroTotals.

Definition calculatePositionPnL (trades : list Trade) (currentPrice : float)
  : PnLData :=
  let acc := replay trades in
  let currentValue := (totalTokens acc * currentPrice)%float in
  let unrealizedPnL :=
    if Js.gt (totalTokens acc) 0 then (currentValue - totalCost acc)%float
    else 0%float in
  {| pnl_realizedPnL := realizedPnL acc;
     pnl_unrealizedPnL := unrealizedPnL;
     pnl_totalPnL := realizedPnL acc + unrealizedPnL;
     pnl_totalTokens := totalTokens acc;
     pnl_averageCost :=
       if Js.gt (totalTokens acc) 0
       then (totalCost acc / totalTokens acc)%float else 0%float |}.

(** The function seen as a JavaScript call: its body holds no [throw] and
    only arithmetic on numbers, so it always completes normally. *)
Definition calculatePositionPnL_call (trades : list Trade)
  (currentPrice : float) : Js.completion PnLData :=
  Js.Normal (calculatePositionPnL trades currentPrice).

(** [interface TokenPosition]; its fields carry the prefix [tp_]. *)
Record TokenPosition : Type := mkTokenPosition {
  tp_address : string;
  tp_symbol : string;
  tp_holdings : float;
  tp_trades : list Trade;
  tp_pnl : float;
  tp_averageCost : float;
  tp_currentPrice : float
}.

(** The React state [handleTrade] reads and writes. *)
Record State : Type := mkState {
  balance : float;
  tokens : list TokenPosition;
  trades : list Trade;
  error : string
}.

Definition setError (message : string) (st : State) : State :=
  {| balance := balance st; tokens := tokens st; trades := trades st;
     error := message |}.

(** [handleTrade], one invocation run against the committed state.  Its
    surroundings are arguments: [calc] is the [calculatePositionPnL] the
    handler closes over, [parseFloat] the built-in, [tokenData] what
    [dexScreenerService.getTokenData(tokenAddress)] returns, [newId] the
    random identifier and [now] the clock reading; [usdAmount] is the
    parameter [amount] (a dollar amount).  Nothing inside the [try] block
    throws, so its [catch] branch is unreachable and left out. *)
Section HandleTrade.
Variable calc : list Trade -> float -> PnLData.
Variable parseFloat : string -> float.

Definition handleTradeWith (tokenData : option Dex.DexScreenerPair)
  (newId : string) (now : Z)
  (tokenAddress : string) (isBuy : bool) (usdAmount : float) (st0 : State)
  : State :=
  let st := setError EmptyString st0 in
  match tokenData with
  | None => setError "Token data not available" st
  | Some tokenData =>
      let currentPrice := parseFloat (Dex.priceUsd tokenData) in
      if PrimFloat.is_nan currentPrice || Js.le currentPrice 0 then
        setError "Invalid price data" st
      else
        let tokenAmount := (usdAmount / currentPrice)%float in
        if isBuy then
          if Js.gt usdAmount (balance st) then
            setError "Insufficient balance" st
          else
            let trade :=
              {| id := newId;
                 symbol := Dex.symbol (Dex.baseToken tokenData);
                 type := buy;
                 amount := tokenAmount;
                 price := currentPrice;
                 value := usdAmount;
                 timestamp := now;
                 pnl := None;
                 pnlPercent := None |} in
            {| balance := balance st - usdAmount;
               tokens :=
                 map (fun t =>
                        if String.eqb (tp_address t) tokenAddress then
                          let updatedTrades := tp_trades t ++ [trade] in
                          let pnlData := calc updatedTrades currentPrice in
                          {| tp_address := tp_address t;
                             tp_symbol := tp_symbol t;
                             tp_holdings := pnl_totalTokens pnlData;
                             tp_trades := updatedTrades;
                             tp_pnl := pnl_totalPnL pnlData;
                             tp_averageCost := pnl_averageCost pnlData;
                             tp_currentPrice := currentPrice |}
                        else t)
                     (tokens st);
               trades := trade :: trades st;
               error := error st |}
        else
          match
            find (fun t => String.eqb (tp_address t) tokenAddress) (tokens st)
          with
          | None => st
          | Some token =>
              if Js.gt tokenAmount (tp_holdings token) then
                setError "Insufficient tokens" st
              else
                let unmarked :=
                  {| id := newId;
                     symbol := tp_symbol token;
                     type := sell;
                     amount := tokenAmount;
                     price := currentPrice;
                     value := usdAmount;
                     timestamp := now;
                     pnl := None;
                     pnlPercent := None |} in
                let pnlData :=
                  calc (tp_trades token ++ [unmarked]) currentPrice in
                (* trade.pnl = ...; trade.pnlPercent = ... *)
                let trade :=
                  {| id := newId;
                     symbol := tp_symbol token;
                     type := sell;
                     amount := tokenAmount;
                     price := currentPrice;
                     value := usdAmount;
                     timestamp := now;
                     pnl := Some (pnl_realizedPnL pnlData);
                     pnlPercent :=
                       Some (pnl_realizedPnL pnlData / usdAmount * 100)%float
                  |} in
                {| balance := balance st + usdAmount;
                   tokens :=
                     map (fun t =>
                            if String.eqb (tp_address t) tokenAddress then
                              {| tp_address := tp_address t;
                                 tp_symbol := tp_symbol t;
                                 tp_holdings := pnl_totalTokens pnlData;
                                 tp_trades := tp_trades t ++ [trade];
                                 tp_pnl := pnl_totalPnL pnlData;
                                 tp_averageCost := pnl_averageCost pnlData;
                                 tp_currentPrice := currentPrice |}
                            else t)
                         (tokens st);
                   trades := trade :: trades st;
                   error := error st |}
          end
  end.
End HandleTrade.

(** The handler of the page: it closes over [calculatePositionPnL]. *)
Definition handleTrade := handleTradeWith calculatePositionPnL.

(** *** Vocabulary of the properties *)

(** Some sell of [trades] is replayed while [totalTokens == 0]. *)
Fixpoint sellsAtZeroFrom (acc : Totals) (trades : list Trade) : bool :=
  match trades with
  | [] => false
  | t :: rest =>
      match type t with
      | sell => PrimFloat.eqb (totalTokens acc) 0
      | buy => false
      end || sellsAtZeroFrom (replayTrade acc t) rest
  end.

Definition sellsAtZero (trades : list Trade) : bool :=
  sellsAtZeroFrom zeroTotals trades.

(** The realized PnL of one sell replayed from [before]: its proceeds less
    the cost basis of the amount sold. *)
Definition sellRealizedPnL (before : Totals) (t : Trade) : float :=
  (amount t * price t - amount t * (totalCost before / totalTokens before))%float.

(** A sell request, as the cards of the page send it. *)
Definition sellRequest (parseFloat : string -> float)
  (tokenData : option Dex.DexScreenerPair) (newId : string) (now : Z)
  (tokenAddress : string) (usdAmount : float) (st : State) : State :=
  handleTrade parseFloat tokenData newId now tokenAddress false usdAmount st.

(** Every position holds what the replay of its trades gives, and no
    holding is negative; addresses are not repeated ([addToken] refuses an
    address that is present). *)
Definition holdingsCoherent (st : State) : Prop :=
  List.NoDup (map tp_address (tokens st)) /\
  Forall (fun t => tp_holdings t = totalTokens (replay (tp_trades t)) /\
                   PrimFloat.ltb (tp_holdings t) 0 = false)
         (tokens st).

(** *** Example data *)

(** A [parseFloat] for the examples: every price string reads as 2. *)
Definition exampleParseFloat (s : string) : float := 2%float.

Definition examplePair : Dex.DexScreenerPair :=
  Dex.mkPair "pair1" (Dex.mkToken "mint1" "Token" "TKN") "2" None.

(** One position: 100 units bought for 100, 25 of them sold at 2. *)
Definition exampleState : State :=
  {| balance := 950;
     tokens :=
       [ {| tp_address := "mint1"; tp_symbol := "TKN"; tp_holdings := 75;
            tp_trades :=
              [ mkTrade "a" "TKN" buy 100 1 100 1 None None;
                mkTrade "b" "TKN" sell 25 2 50 2 (Some 25%float)
                  (Some 50%float) ];
            tp_pnl := 100; tp_averageCost := 1; tp_currentPrice := 2 |} ];
     trades :=
       [ mkTrade "b" "TKN" sell 25 2 50 2 (Some 25%float) (Some 50%float);
         mkTrade "a" "TKN" buy 100 1 100 1 None None ];
     error := EmptyString |}.

End Position.

(** ** [services/dexscreener-service.ts]: [class RateLimiter] *)

Module RateLimiter.

Record state : Type := mkState {
  requests : Z;
  lastReset : Z;
  limit : Z
}.

Definition resetInterval : Z := 60000.

(** [new RateLimiter(limitPerMinute)], built when the clock reads [now]. *)
Definition create (limitPerMinute now : Z) : state :=
  {| requests := 0; lastReset := now; limit := limitPerMinute |}.

(** What one evaluation of the body of [waitForAvailability] ends in: the
    request is counted and the call returns, or the call sleeps [waitTime]
    milliseconds and then calls itself again. *)
Inductive answer : Type :=
| Granted
| Sleep (waitTime : Z).

(** The body of [waitForAvailability] up to its [await]; it runs without
    interruption, [now] being its [Date.now()]. *)
Definition attempt (now : Z) (rl : state) : state * answer :=
  let rl :=
    if resetInterval <=? now - lastReset rl
    then {| requests := 0; lastReset := now; limit := limit rl |}
    else rl in
  if limit rl <=? requests rl then
    (rl, Sleep (resetInterval - (now - lastReset rl)))
  else
    ({| requests := requests rl + 1; lastReset := lastReset rl;
        limit := limit rl |}, Granted).

(** One call of [waitForAvailability] with nothing else running: the timer
    fires after exactly [waitTime], and the recursive call reads the clock
    again.  The result is the limiter and the time at which the call
    returns; [fuel] bounds the number of recursive calls. *)
Fixpoint waitForAvailability (fuel : nat) (now : Z) (rl : state)
  : option (state * Z) :=
  match fuel with
  | O => None
  | S fuel' =>
      match attempt now rl with
      | (rl', Granted) => Some (rl', now)
      | (rl', Sleep waitTime) => waitForAvailability fuel' (now + waitTime) rl'
      end
  end.

(** Any number of callers sharing the limiter: every evaluation of the body,
    a first one or one after a sleep, happens at some clock reading, and
    [times] lists these readings in the order of the evaluations.  The log
    holds, for each request counted, its time and the window start it was
    counted under. *)
Fixpoint run (times : list Z) (rl : state) : state * list (Z * Z) :=
  match times with
  | [] => (rl, [])
  | now :: rest =>
      let '(rl1, a) := attempt now rl in
      let '(rl2, log) := run rest rl1 in
      (rl2, match a with
            | Granted => (now, lastReset rl1) :: log
            | Sleep _ => log
            end)
  end.

(** A clock never runs backwards: [times] is non-decreasing from [t0]. *)
Fixpoint monotone (t0 : Z) (times : list Z) : bool :=
  match times with
  | [] => true
  | t :: rest => (t0 <=? t) && monotone t rest
  end.

(** The number of requests counted at a time in [[from, from + length)]. *)
Definition countWithin (from length : Z) (log : list (Z * Z)) : Z :=
  Z.of_nat
    (List.length
       (List.filter (fun ev => (from <=? fst ev) && (fst ev <? from + length))
          log)).

(** The number of requests counted under the window that started at [w]. *)
Definition countInWindow (w : Z) (log : list (Z * Z)) : Z :=
  Z.of_nat (List.length (List.filter (fun ev => snd ev =? w) log)).

End RateLimiter.

(** ** [DexScreenerService]: the request queue and its drain loop *)

Module RequestQueue.
Section Queue.
Context {T : Type}.

(** Where a running [processQueue] is suspended: in
    [await this.rateLimiter.waitForAvailability()], with the limiter's last
    answer, or in [await request()]. *)
Inductive Drain : Type :=
| AwaitLimiter (request : T) (a : RateLimiter.answer)
| AwaitRequest (request : T).

(** How the promise of a request settles. *)
Inductive Settled : Type :=
| Fulfilled
| Rejected (error : string).

(** The fields of the service the queue uses, the suspended [processQueue]
    calls, and what can be observed: the requests the limiter granted, the
    requests invoked and the messages of [console.error], each in order. *)
Record State : Type := mkState {
  requestQueue : list T;
  isProcessingQueue : bool;
  rateLimiter : RateLimiter.state;
  drains : list Drain;
  granted : list T;
  invoked : list T;
  consoleErrors : list string
}.

Definition init (rl : RateLimiter.state) : State :=
  {| requestQueue := []; isProcessingQueue := false; rateLimiter := rl;
     drains := []; granted := []; invoked := []; consoleErrors := [] |}.

(** The head of the [while] loop up to the first [await]: the loop ends and
    the flag is cleared, or the next request is shifted off the queue and
    the limiter asked. *)
Definition loopHead (now : Z) (st : State) : State * option Drain :=
  match requestQueue st with
  | [] =>
      ({| requestQueue := [];
          isProcessingQueue := false;
          rateLimiter := rateLimiter st;
          drains := drains st;
          granted := granted st;
          invoked := invoked st;
          consoleErrors := consoleErrors st |}, None)
  | request :: rest =>
      let '(rl, a) := RateLimiter.attempt now (rateLimiter st) in
      ({| requestQueue := rest;
          isProcessingQueue := isProcessingQueue st;
          rateLimiter := rl;
          drains := drains st;
          granted :=
            granted st ++
            match a with RateLimiter.Granted => [request] | _ => [] end;
          invoked := invoked st;
          consoleErrors := consoleErrors st |},
       Some (AwaitLimiter request a))
  end.

Definition setDrains (ds : list Drain) (st : State) : State :=
  {| requestQueue := requestQueue st;
     isProcessingQueue := isProcessingQueue st;
     rateLimiter := rateLimiter st;
     drains := ds;
     granted := granted st;
     invoked := invoked st;
     consoleErrors := consoleErrors st |}.

Definition processQueue (now : Z) (st : State) : State :=
  if isProcessingQueue st || Nat.eqb (List.length (requestQueue st)) 0
  then st
  else
    let st1 :=
      {| requestQueue := requestQueue st;
         isProcessingQueue := true;
         rateLimiter := rateLimiter st;
         drains := drains st;
         granted := granted st;
         invoked := invoked st;
         consoleErrors := consoleErrors st |} in
    match loopHead now st1 with
    | (st2, Some d) => setDrains (drains st2 ++ [d]) st2
    | (st2, None) => st2
    end.

Definition queueRequest (now : Z) (request : T) (st : State) : State :=
  processQueue now
    {| requestQueue := requestQueue st ++ [request];
       isProcessingQueue := isProcessingQueue st;
       rateLimiter := rateLimiter st;
       drains := drains st;
       granted := granted st;
       invoked := invoked st;
       consoleErrors := consoleErrors st |}.

(** The [i]-th suspended [processQueue] runs on to its next [await]:
    - asleep in the limiter, its timer fires and [waitForAvailability] runs
      again;
    - granted by the limiter, it invokes the request;
    - the request settled ([outcome]), a rejection is caught and logged, and
      the loop goes round. *)
Definition resume (now : Z) (i : nat) (outcome : Settled) (st : State)
  : State :=
  match drains st !! i with
  | None => st
  | Some (AwaitLimiter request (RateLimiter.Sleep _)) =>
      let '(rl, a) := RateLimiter.attempt now (rateLimiter st) in
      {| requestQueue := requestQueue st;
         isProcessingQueue := isProcessingQueue st;
         rateLimiter := rl;
         drains := <[i := AwaitLimiter request a]> (drains st);
         granted :=
           granted st ++
           match a with RateLimiter.Granted => [request] | _ => [] end;
         invoked := invoked st;
         consoleErrors := consoleErrors st |}
  | Some (AwaitLimiter request RateLimiter.Granted) =>
      {| requestQueue := requestQueue st;
         isProcessingQueue := isProcessingQueue st;
         rateLimiter := rateLimiter st;
         drains := <[i := AwaitRequest request]> (drains st);
         granted := granted st;
         invoked := invoked st ++ [request];
         consoleErrors := consoleErrors st |}
  | Some (AwaitRequest request) =>
      let st1 :=
        {| requestQueue := requestQueue st;
           isProcessingQueue := isProcessingQueue st;
           rateLimiter := rateLimiter st;
           drains := drains st;
           granted := granted st;
           invoked := invoked st;
           consoleErrors :=
             match outcome with
             | Fulfilled => consoleErrors st
             | Rejected e =>
                 consoleErrors st ++
                 [String.append "Error processing queued request: " e]
             end |} in
      match loopHead now st1 with
      | (st2, Some d) => setDrains (<[i := d]> (drains st2)) st2
      | (st2, None) => setDrains (delete i (drains st2)) st2
      end
  end.

(** What happens to the queue, one uninterrupted run of code at a time. *)
Inductive Event : Type :=
| QueueRequest (now : Z) (request : T)
| Resume (now : Z) (i : nat) (outcome : Settled).

Definition step (st : State) (ev : Event) : State :=
  match ev with
  | QueueRequest now request => queueRequest now request st
  | Resume now i outcome => resume now i outcome st
  end.

Definition run (events : list Event) (st : State) : State :=
  fold_left step events st.

(** The requests handed to [queueRequest], in order. *)
Definition enqueued (events : list Event) : list T :=
  flat_map (fun ev => match ev with
                      | QueueRequest _ request => [request]
                      | Resume _ _ _ => []
                      end) events.

(** The requests the suspended drains hold and have not invoked yet. *)
Definition pending (ds : list Drain) : list T :=
  flat_map (fun d => match d with
                     | AwaitLimiter request _ => [request]
                     | AwaitRequest _ => []
                     end) ds.

(** The requests the limiter granted to a drain that has not run on yet. *)
Definition grantedPending (ds : list Drain) : list T :=
  flat_map (fun d => match d with
                     | AwaitLimiter request RateLimiter.Granted => [request]
                     | _ => []
                     end) ds.

(** The requests handed over and not invoked yet: the ones the suspended
    drains hold, then the waiting ones. *)
Definition outstanding (st : State) : list T :=
  pending (drains st) ++ requestQueue st.

(** A schedule that runs the drain on: for each outcome, the drain is
    resumed to invoke the request it holds and resumed again when that
    request has settled with this outcome. *)
Definition settleAll (now : Z) (outcomes : list Settled) : list Event :=
  flat_map (fun outcome => [Resume now 0 Fulfilled; Resume now 0 outcome])
    outcomes.

(** The [console.error] messages these outcomes leave. *)
Definition errorMessages (outcomes : list Settled) : list string :=
  flat_map (fun outcome =>
              match outcome with
              | Fulfilled => []
              | Rejected e =>
                  [String.append "Error processing queued request: " e]
              end) outcomes.

(** What holds of the queue after every event: there is at most one
    suspended drain, and the flag is set exactly while there is one; the
    requests enqueued so far are the invoked ones, the one the drain holds,
    and the waiting ones, in this order; the limiter has granted exactly the
    invoked requests and the one the drain is about to invoke. *)
Definition queueInvariant (enq : list T) (st : State) : Prop :=
  (drains st = [] /\ isProcessingQueue st = false \/
   exists d, drains st = [d] /\ isProcessingQueue st = true) /\
  enq = invoked st ++ pending (drains st) ++ requestQueue st /\
  granted st = invoked st ++ grantedPending (drains st).

(** No request waits without a drain that will come to it. *)
Definition neverStranded (st : State) : Prop :=
  drains st = [] -> requestQueue st = [].

End Queue.
Arguments Drain : clear implicits.
Arguments State : clear implicits.
Arguments Event : clear implicits.
End RequestQueue.

(** ** [class DexScreenerService]: the cache, the fetches and the
       subscriptions *)

Module Service.
Import Dex.

(** The closures handed to [queueRequest]: [fetchBatch] of [updateBatch],
    and the initial fetch of [subscribe]. *)
Inductive Request : Type :=
| FetchBatch (addresses : list string)
| InitialFetch (normalizedAddress : string) (callback : Js.Callback).

(** What [await fetch(...)] and [await response.json()] come back with:
    [fetch] or [json] throws, the response is not [ok], or the parsed body
    with its [pairs] field (which may be missing). *)
Inductive Response : Type :=
| NetworkFailure
| NotOk
| Json (pairs : option (list DexScreenerPair)).

(** The fields of the service, and what can be observed from outside: the
    calls of subscriber callbacks and the messages of [console.error]. *)
Record State : Type := mkState {
  subscribers : gmap string (list Js.Callback);
  tokenData : gmap string DexScreenerPair;
  lastUpdateTime : gmap string Z;
  queue : RequestQueue.State Request;
  delivered : list (Js.Callback * DexScreenerPair);
  consoleErrors : list string
}.

Definition logError (message : string) (st : State) : State :=
  {| subscribers := subscribers st;
     tokenData := tokenData st;
     lastUpdateTime := lastUpdateTime st;
     queue := queue st;
     delivered := delivered st;
     consoleErrors := consoleErrors st ++ [message] |}.

(** [subscribers.forEach((callback) => callback(pair))] on
    [this.subscribers.get(address)], when there is such a set: the calls it
    makes, in order. *)
Definition notifications (subs : gmap string (list Js.Callback))
  (address : string) (pair : DexScreenerPair)
  : list (Js.Callback * DexScreenerPair) :=
  match subs !! address with
  | Some callbacks => map (fun callback => (callback, pair)) callbacks
  | None => []
  end.

(** The statements both fetches run for a selected pair:
    [this.tokenData.set(address, pair)],
    [this.lastUpdateTime.set(address, now)] and the call of every subscriber
    of [address] with [pair]. *)
Definition cacheAndNotify (address : string) (pair : DexScreenerPair)
  (now : Z) (st : State) : State :=
  {| subscribers := subscribers st;
     tokenData := <[address := pair]> (tokenData st);
     lastUpdateTime := <[address := now]> (lastUpdateTime st);
     queue := queue st;
     delivered := delivered st ++ notifications (subscribers st) address pair;
     consoleErrors := consoleErrors st |}.

(** The comparator [fetchTokenData] sorts with. *)
Definition byLiquidityDescending (a b : DexScreenerPair) : float :=
  (liquidityUsd b - liquidityUsd a)%float.

(** [fetchTokenData(address)] from the point where the response is in (the
    wait for the rate limiter and the network call come before): the new
    state and the value the promise resolves to.  [now] is the [Date.now()]
    of the function. *)
Definition fetchTokenData (address : string) (response : Response) (now : Z)
  (st : State) : State * option DexScreenerPair :=
  match response with
  | NetworkFailure | NotOk => (logError "Error fetching token data:" st, None)
  | Json (Some (first :: others)) =>
      let sortedPairs := Js.sort byLiquidityDescending (first :: others) in
      match sortedPairs with
      | top :: _ =>
          (* const pair = sortedPairs[0] *)
          let normalizedAddress := Js.toLowerCase address in
          (cacheAndNotify normalizedAddress top now st, Some top)
      | [] => (st, None)
      end
  | Json _ => (st, None)
  end.

(** The first loop of [fetchBatch]: one step of
    [for (const pair of data.pairs)] on [pairsByAddress]. *)
Definition keepBest (pairsByAddress : list (string * DexScreenerPair))
  (pair : DexScreenerPair) : list (string * DexScreenerPair) :=
  let address := baseAddress pair in
  if negb (Js.map_has address pairsByAddress) ||
     Js.gt (liquidityUsd pair)
           (match Js.map_get address pairsByAddress with
            | Some kept => liquidityUsd kept
            | None => 0%float
            end)
  then Js.map_set address pair pairsByAddress
  else pairsByAddress.

Definition pairsByAddress (pairs : list DexScreenerPair)
  : list (string * DexScreenerPair) :=
  fold_left keepBest pairs [].

(** [fetchBatch] of [updateBatch(addresses)], from the point where the
    response is in. *)
Definition fetchBatch (addresses : list string) (response : Response)
  (now : Z) (st : State) : State :=
  match response with
  | NetworkFailure | NotOk => logError "Error updating batch:" st
  | Json None => st
  | Json (Some pairs) =>
      fold_left (fun st entry => cacheAndNotify (fst entry) (snd entry) now st)
        (pairsByAddress pairs) st
  end.

Definition setQueue (q : RequestQueue.State Request) (st : State) : State :=
  {| subscribers := subscribers st;
     tokenData := tokenData st;
     lastUpdateTime := lastUpdateTime st;
     queue := q;
     delivered := delivered st;
     consoleErrors := consoleErrors st |}.

Definition queueRequest (now : Z) (request : Request) (st : State) : State :=
  setQueue (RequestQueue.queueRequest now request (queue st)) st.

Definition updateBatch (now : Z) (addresses : list string) (st : State)
  : State :=
  match addresses with
  | [] => st
  | _ => queueRequest now (FetchBatch addresses) st
  end.

(** The request [subscribe] queues, from the point where the response of
    its [fetchTokenData] is in. *)
Definition initialFetch (normalizedAddress : string) (callback : Js.Callback)
  (response : Response) (now : Z) (st : State) : State :=
  match fetchTokenData normalizedAddress response now st with
  | (st', Some data) =>
      {| subscribers := subscribers st';
         tokenData := tokenData st';
         lastUpdateTime := lastUpdateTime st';
         queue := queue st';
         delivered := delivered st' ++ [(callback, data)];
         consoleErrors := consoleErrors st' |}
  | (st', None) => st'
  end.

Definition setSubscribers (subs : gmap string (list Js.Callback))
  (st : State) : State :=
  {| subscribers := subs;
     tokenData := tokenData st;
     lastUpdateTime := lastUpdateTime st;
     queue := queue st;
     delivered := delivered st;
     consoleErrors := consoleErrors st |}.

Definition unsubscribe (address : string) (callback : Js.Callback)
  (st : State) : State :=
  let normalizedAddress := Js.toLowerCase address in
  (* this.subscribers.get(normalizedAddress)?.delete(callback) *)
  let subs := alter (Js.set_delete callback) normalizedAddress
                (subscribers st) in
  match subs !! normalizedAddress with
  | Some [] =>
      {| subscribers := delete normalizedAddress subs;
         tokenData := delete normalizedAddress (tokenData st);
         lastUpdateTime := delete normalizedAddress (lastUpdateTime st);
         queue := queue st;
         delivered := delivered st;
         consoleErrors := consoleErrors st |}
  | _ => setSubscribers subs st
  end.

(** [subscribe(address, callback)], called when the clock reads [now]: the
    new state and the function it returns. *)
Definition subscribe (now : Z) (address : string) (callback : Js.Callback)
  (st : State) : State * (State -> State) :=
  let normalizedAddress := Js.toLowerCase address in
  let subs :=
    match subscribers st !! normalizedAddress with
    | None => <[normalizedAddress := []]> (subscribers st)
    | Some _ => subscribers st
    end in
  let subs := alter (Js.set_add callback) normalizedAddress subs in
  (queueRequest now (InitialFetch normalizedAddress callback)
     (setSubscribers subs st),
   unsubscribe normalizedAddress callback).

Definition getTokenData (address : string) (st : State)
  : option DexScreenerPair :=
  tokenData st !! Js.toLowerCase address.

(** The first statement of [fetchTokenData] and of [fetchBatch],
    [await this.rateLimiter.waitForAvailability()], up to its [await]: one
    evaluation of the limiter's body on the limiter the queue shares. *)
Definition acquire (now : Z) (st : State) : State * RateLimiter.answer :=
  let q := queue st in
  let '(rl, a) := RateLimiter.attempt now (RequestQueue.rateLimiter q) in
  (setQueue
     {| RequestQueue.requestQueue := RequestQueue.requestQueue q;
        RequestQueue.isProcessingQueue := RequestQueue.isProcessingQueue q;
        RequestQueue.rateLimiter := rl;
        RequestQueue.drains := RequestQueue.drains q;
        RequestQueue.granted := RequestQueue.granted q;
        RequestQueue.invoked := RequestQueue.invoked q;
        RequestQueue.consoleErrors := RequestQueue.consoleErrors q |} st,
   a).

(** *** The periodic refresh ([startUpdates]) *)

Definition UPDATE_INTERVAL : Z := 3000.
Definition BATCH_SIZE : nat := 10.

(** The test of the [filter]:
    [now - (this.lastUpdateTime.get(addr) || 0) >= this.UPDATE_INTERVAL]. *)
Definition isStale (now : Z) (st : State) (addr : string) : bool :=
  UPDATE_INTERVAL <=? now - default 0 (lastUpdateTime st !! addr).

(** [Array.prototype.slice(from, to)] for [from <= to]. *)
Definition slice {A : Type} (from to : nat) (l : list A) : list A :=
  firstn (to - from) (skipn from l).

(** [Array.from(this.subscribers.keys())]: the addresses that have a
    subscriber set.  A JavaScript [Map] lists its keys in the order in which
    they were inserted; the finite map [subscribers] does not keep that
    order, and the keys are listed here in the order of the finite map.
    Which addresses a tick asks for, and in how many requests of which
    sizes, does not depend on the order; which addresses share a request
    does. *)
Definition subscriberKeys (st : State) : list string :=
  map fst (map_to_list (subscribers st)).

(** The addresses the timer callback refreshes: the keys of [subscribers]
    that pass the [filter]. *)
Definition staleAddresses (now : Z) (st : State) : list string :=
  List.filter (isStale now st) (subscriberKeys st).

(** The [for] loop of the callback, from the index [i]; [fuel] bounds the
    number of iterations. *)
Fixpoint updateBatches (fuel : nat) (now : Z) (addresses : list string)
  (i : nat) (st : State) : State :=
  match fuel with
  | O => st
  | S fuel' =>
      if (i <? List.length addresses)%nat then
        let batch := slice i (i + BATCH_SIZE) addresses in
        updateBatches fuel' now addresses (i + BATCH_SIZE)
          (updateBatch now batch st)
      else st
  end.

(** The [for] loop on the array [addresses]; it goes round at most once
    per address. *)
Definition queueBatches (now : Z) (addresses : list string) (st : State)
  : State :=
  updateBatches (List.length addresses) now addresses 0 st.

(** The callback [startUpdates] hands to [setInterval], run when the clock
    reads [now]: it reads the keys of [subscribers], keeps the stale ones
    and hands them to [updateBatch] chunk by chunk. *)
Definition refresh (now : Z) (st : State) : State :=
  queueBatches now (staleAddresses now st) st.

(** *** The service as a whole *)

(** What happens to the service, one uninterrupted run of code at a time:
    the calls of its public methods, the tick of the refresh timer, a call
    of [updateBatch] (a tick makes one for each chunk of the stale keys, in
    the order in which the map of the subscribers lists them), the
    continuations of the queue's drain, the evaluations of the limiter by a
    request, and the arrival of the response of a single fetch, of a batch
    fetch and of the initial fetch of a subscription. *)
Inductive Event : Type :=
| Subscribe (now : Z) (address : string) (callback : Js.Callback)
| Unsubscribe (address : string) (callback : Js.Callback)
| Refresh (now : Z)
| UpdateBatch (now : Z) (addresses : list string)
| Resume (now : Z) (i : nat) (outcome : RequestQueue.Settled)
| Acquire (now : Z)
| Fetched (address : string) (response : Response) (now : Z)
| BatchFetched (addresses : list string) (response : Response) (now : Z)
| InitialFetched (normalizedAddress : string) (callback : Js.Callback)
    (response : Response) (now : Z).

Definition step (st : State) (ev : Event) : State :=
  match ev with
  | Subscribe now address callback => fst (subscribe now address callback st)
  | Unsubscribe address callback => unsubscribe address callback st
  | Refresh now => refresh now st
  | UpdateBatch now addresses => updateBatch now addresses st
  | Resume now i outcome =>
      setQueue (RequestQueue.resume now i outcome (queue st)) st
  | Acquire now => fst (acquire now st)
  | Fetched address response now =>
      fst (fetchTokenData address response now st)
  | BatchFetched addresses response now =>
      fetchBatch addresses response now st
  | InitialFetched normalizedAddress callback response now =>
      initialFetch normalizedAddress callback response now st
  end.

Definition run (events : list Event) (st : State) : State :=
  fold_left step events st.

(** *** Vocabulary of the properties *)

(** The chunks the loop of the callback cuts [addresses] into, from the
    index [i]. *)
Fixpoint batchesFrom (fuel : nat) (addresses : list string) (i : nat)
  : list (list string) :=
  match fuel with
  | O => []
  | S fuel' =>
      if (i <? List.length addresses)%nat then
        slice i (i + BATCH_SIZE) addresses ::
        batchesFrom fuel' addresses (i + BATCH_SIZE)
      else []
  end.

Definition batches (addresses : list string) : list (list string) :=
  batchesFrom (List.length addresses) addresses 0.

(** What the first loop of [fetchBatch] keeps, after the pairs [seen]: one
    entry for each base address seen, holding a pair of that address that no
    seen pair of the address exceeds in liquidity. *)
Definition bestSoFar (seen : list DexScreenerPair)
  (m : list (string * DexScreenerPair)) : Prop :=
  List.NoDup (map fst m) /\
  (forall a p, Js.map_get a m = Some p ->
     In p seen /\ baseAddress p = a /\
     forall q, In q seen -> baseAddress q = a ->
       PrimFloat.ltb (liquidityUsd p) (liquidityUsd q) = false) /\
  (forall q, In q seen -> Js.map_get (baseAddress q) m <> None).

(** The three maps of the service agree: a token has a snapshot exactly
    when it has a last-update time, every key is in lower case, and a
    subscriber set that is kept is not empty and lists no callback twice. *)
Definition mapsCoherent (st : State) : Prop :=
  (forall a, is_Some (tokenData st !! a) <-> is_Some (lastUpdateTime st !! a)) /\
  (forall a, is_Some (tokenData st !! a) -> Js.toLowerCase a = a) /\
  (forall a s, subscribers st !! a = Some s ->
     s <> [] /\ List.NoDup s /\ Js.toLowerCase a = a).

(** A response that brings no pair: the request failed, the response is
    not [ok], or the body holds no pair. *)
Definition unsuccessful (response : Response) : bool :=
  match response with
  | Json (Some (_ :: _)) => false
  | _ => true
  end.

(** The service as its constructor leaves it when the clock reads
    [created]: nothing subscribed, nothing cached, an idle queue and
    [new RateLimiter(this.RATE_LIMIT)]. *)
Definition RATE_LIMIT : Z := 300.

Definition fresh (created : Z) : State :=
  {| subscribers := ∅; tokenData := ∅; lastUpdateTime := ∅;
     queue := RequestQueue.init (RateLimiter.create RATE_LIMIT created);
     delivered := []; consoleErrors := [] |}.

(** Two pairs of one base token (the address differs in case only), with a
    liquidity of 500 and of 50,000 dollars. *)
Definition shallowPair : DexScreenerPair :=
  mkPair "pairA" (mkToken "Mint1" "Token" "TKN") "1.01"
    (Some (mkLiquidity (Some 500%float))).

Definition deepPair : DexScreenerPair :=
  mkPair "pairB" (mkToken "MINT1" "Token" "TKN") "1.02"
    (Some (mkLiquidity (Some 50000%float))).

(** A pair of another base token, with a liquidity of 1,000,000 dollars. *)
Definition otherPair : DexScreenerPair :=
  mkPair "pairC" (mkToken "Other9" "Other" "OTH") "7.5"
    (Some (mkLiquidity (Some 1000000%float))).

End Service.

(** ** [app/page.tsx]: the component around the trade handler *)

Module Page.
Import Position.

(** The React state of the component: what [handleTrade] reads and writes,
    and the two pieces [addToken] uses besides. *)
Record State : Type := mkState {
  trading : Position.State;
  newAddress : string;
  isLoading : bool
}.

(** The initial values of the [useState] calls. *)
Definition initial : State :=
  {| trading :=
       {| balance := 1000; tokens := []; trades := []; error := EmptyString |};
     newAddress := EmptyString;
     isLoading := false |}.

Definition setTrading (t : Position.State) (st : State) : State :=
  {| trading := t; newAddress := newAddress st; isLoading := isLoading st |}.

(** [setNewAddress(e.target.value)], the [onChange] of the input. *)
Definition setNewAddress (value : string) (st : State) : State :=
  {| trading := trading st; newAddress := value; isLoading := isLoading st |}.

(** [handlePriceUpdate(address, price)]: the updater it hands to
    [setTokens], applied to the committed state.  [===] on numbers is the
    IEEE equality. *)
Definition handlePriceUpdate (address : string) (price : float)
  (st : Position.State) : Position.State :=
  let matches (t : TokenPosition) :=
    String.eqb (Js.toLowerCase (tp_address t)) (Js.toLowerCase address) in
  match find matches (tokens st) with
  | None => st
  | Some token =>
      if PrimFloat.eqb (tp_currentPrice token) price then st
      else
        {| balance := balance st;
           tokens :=
             map (fun t =>
                    if matches t then
                      let pnlData := calculatePositionPnL (tp_trades t) price in
                      {| tp_address := tp_address t;
                         tp_symbol := tp_symbol t;
                         tp_holdings := tp_holdings t;
                         tp_trades := tp_trades t;
                         tp_pnl := pnl_totalPnL pnlData;
                         tp_averageCost := tp_averageCost t;
                         tp_currentPrice := price |}
                    else t)
                 (tokens st);
           trades := trades st;
           error := error st |}
  end.

Section AddToken.
Variable parseFloat : string -> float.

(** [addToken], one invocation.  [fetched] is what
    [await dexScreenerService.fetchTokenData(normalizedAddress)] resolves
    to; it is looked at only when the two checks before it pass.  While the
    fetch is pending the input and the button are disabled and no other
    handler adds or removes a position, so the invocation is run in one
    piece.  Nothing inside the [try] block throws ([fetchTokenData] catches
    its own errors), so the [catch] branch is unreachable and left out; the
    [finally] block clears [isLoading] on every path. *)
Definition addToken (fetched : option Dex.DexScreenerPair) (st : State)
  : State :=
  let refuse (message : string) : State :=
    {| trading := setError message (trading st);
       newAddress := newAddress st;
       isLoading := false |} in
  if (6 <=? List.length (tokens (trading st)))%nat then
    refuse "Maximum 6 tokens allowed"
  else
    let normalizedAddress := Js.toLowerCase (newAddress st) in
    if existsb (fun t => String.eqb (Js.toLowerCase (tp_address t))
                           normalizedAddress)
         (tokens (trading st))
    then refuse "Token already added"
    else
      match fetched with
      | None => refuse "Invalid token address"
      | Some tokenData =>
          let currentPrice := parseFloat (Dex.priceUsd tokenData) in
          {| trading :=
               {| balance := balance (trading st);
                  tokens :=
                    tokens (trading st) ++
                    [ {| tp_address := normalizedAddress;
                         tp_symbol := Dex.symbol (Dex.baseToken tokenData);
                         tp_holdings := 0;
                         tp_trades := [];
                         tp_pnl := 0;
                         tp_averageCost := 0;
                         tp_currentPrice := currentPrice |} ];
                  trades := trades (trading st);
                  error := EmptyString |};
             newAddress := EmptyString;
             isLoading := false |}
      end.

(** What the user and the price feed do to the page, one handler at a
    time. *)
Inductive Action : Type :=
| SetNewAddress (value : string)
| AddToken (fetched : option Dex.DexScreenerPair)
| HandleTrade (tokenData : option Dex.DexScreenerPair) (newId : string)
    (now : Z) (tokenAddress : string) (isBuy : bool) (usdAmount : float)
| HandlePriceUpdate (address : string) (price : float).

Definition step (st : State) (action : Action) : State :=
  match action with
  | SetNewAddress value => setNewAddress value st
  | AddToken fetched => addToken fetched st
  | HandleTrade tokenData newId now tokenAddress isBuy usdAmount =>
      setTrading
        (handleTrade parseFloat tokenData newId now tokenAddress isBuy
           usdAmount (trading st)) st
  | HandlePriceUpdate address price =>
      setTrading (handlePriceUpdate address price (trading st)) st
  end.

Definition run (actions : list Action) (st : State) : State :=
  fold_left step actions st.
End AddToken.

(** *** Vocabulary of the properties *)

(** No trade of [actions] is for a negative dollar amount. *)
Definition amountsNotNegative (actions : list Action) : bool :=
  forallb (fun action =>
             match action with
             | HandleTrade _ _ _ _ _ usdAmount =>
                 negb (PrimFloat.ltb usdAmount 0)
             | _ => true
             end) actions.

(** The cash a trade log leaves of [opening]: the trades in the order in
    which they were made, a buy taking its dollar value and a sell adding
    it. *)
Definition settle (opening : float) (chronological : list Trade) : float :=
  fold_left (fun cash t =>
               match type t with
               | buy => (cash - value t)%float
               | sell => (cash + value t)%float
               end) chronological opening.

(** The figures a position shows are the ones [calculatePositionPnL] gives
    for its trades at its current price. *)
Definition figuresCoherent (t : TokenPosition) : Prop :=
  let pnlData := calculatePositionPnL (tp_trades t) (tp_currentPrice t) in
  tp_holdings t = pnl_totalTokens pnlData /\
  tp_pnl t = pnl_totalPnL pnlData /\
  tp_averageCost t = pnl_averageCost pnlData.

(** What holds of the page after every handler: at most six positions,
    under distinct addresses in lower case, each showing the figures of its
    own trades, and a cash balance that is what the trade log leaves of the
    opening 1000. *)
Definition pageInvariant (st : Position.State) : Prop :=
  (List.length (tokens st) <= 6)%nat /\
  List.NoDup (map tp_address (tokens st)) /\
  Forall (fun t => Js.toLowerCase (tp_address t) = tp_address t) (tokens st) /\
  Forall figuresCoherent (tokens st) /\
  balance st = settle 1000 (rev (trades st)).

(** Neither the cash balance nor a holding is below zero. *)
Definition notNegative (st : Position.State) : Prop :=
  PrimFloat.ltb (balance st) 0 = false /\
  Forall (fun t => PrimFloat.ltb (tp_holdings t) 0 = false) (tokens st).

(** The trades recorded under every position are in the trade log of the
    page, in the same order (the log lists the newest trade first). *)
Definition tradesLogged (st : Position.State) : Prop :=
  Forall (fun t => sublist (rev (tp_trades t)) (trades st)) (tokens st).

(** *** Example data *)

(** A session: a token is added under a capitalised address, 100 dollars
    of it are bought, a price comes in, and 50 dollars of it are sold. *)
Definition exampleSession : list Action :=
  [ SetNewAddress "MINT1";
    AddToken (Some examplePair);
    HandleTrade (Some examplePair) "a" 1 "mint1" true 100;
    HandlePriceUpdate "Mint1" 3;
    HandleTrade (Some examplePair) "b" 2 "mint1" false 50 ].

(** The trades of the position of [exampleState], which holds 75 units. *)
Definition exampleTrades : list Trade :=
  [ mkTrade "a" "TKN" buy 100 1 100 1 None None;
    mkTrade "b" "TKN" sell 25 2 50 2 (Some 25%float) (Some 50%float) ].

End Page.

(** ** [components/trading-card.tsx]: the price history of a card *)

Module TradingCard.

(** [interface PricePoint]. *)
Record PricePoint : Type := mkPricePoint {
  timestamp : Z;
  price : float
}.

(** [Array.prototype.slice(-n)]: the last [n] elements. *)
Definition sliceLast {A : Type} (n : nat) (l : list A) : list A :=
  skipn (List.length l - n) l.

(** The updater the effect hands to [setPriceHistory], [now] being its
    [Date.now()]. *)
Definition pushPrice (now : Z) (newPrice : float) (prev : list PricePoint)
  : list PricePoint :=
  let appended :=
    sliceLast 50 (prev ++ [ {| timestamp := now; price := newPrice |} ]) in
  match prev !! (List.length prev - 1)%nat with
  | Some lastPoint =>
      if PrimFloat.eqb (price lastPoint) newPrice then prev else appended
  | None => appended
  end.

(** The history after the prices of [updates] came in, in this order, each
    with the clock reading of its update. *)
Definition history (updates : list (Z * float)) : list PricePoint :=
  fold_left (fun prev u => pushPrice (fst u) (snd u) prev) updates [].

(** No two neighbours of a history carry the same price. *)
Definition noRepeats (h : list PricePoint) : Prop :=
  forall (i : nat) (p q : PricePoint),
    h !! i = Some p -> h !! S i = Some q ->
    PrimFloat.eqb (price p) (price q) = false.

End TradingCard.

(** ** [lib/utils.ts] *)

Module Utils.

(** The literal [0.01], the binary64 number nearest to a hundredth. *)
Definition cent : float := 0x1.47ae147ae147bp-7%float.

Section Format.
(** [Number.prototype.toFixed], a built-in. *)
Variable toFixed : float -> nat -> string.

Definition formatCurrency (num : float) (decimals : nat) : string :=
  if PrimFloat.eqb num 0 then "$0.00"
  else if PrimFloat.ltb (PrimFloat.abs num) cent then "<$0.01"
  else if PrimFloat.leb 1000000000 num then
    String.append "$"
      (String.append (toFixed (num / 1000000000) decimals) "B")
  else if PrimFloat.leb 1000000 num then
    String.append "$" (String.append (toFixed (num / 1000000) decimals) "M")
  else if PrimFloat.leb 1000 num then
    String.append "$" (String.append (toFixed (num / 1000) decimals) "K")
  else String.append "$" (toFixed num decimals).
End Format.

Definition calculatePercentChange (current previous : float) : float :=
  if PrimFloat.eqb previous 0 then 0%float
  else ((current - previous) / previous * 100)%float.

End Utils.

(** ** Vocabulary of the facts on binary64 arithmetic *)

(** A float with sign [s] that is a finite non-zero number or an infinity. *)
Definition SFsigned (s : bool) (x : spec_float) : Prop :=
  (exists m e, x = S754_finite s m e) \/ x = S754_infinity s.

(** The mantissa of a finite float, signed and shifted to the exponent
    [ez]. *)
Definition aligned (s : bool) (m : positive) (e ez : Z) : Z :=
  cond_Zopp s (Z.pos (fst (shl_align m e ez))).

(** A float that is [NaN] or an infinity. *)
Definition SFnonfinite (x : spec_float) : bool :=
  match x with
  | S754_nan | S754_infinity _ => true
  | _ => false
  end.

(* ===================================================================== *)
(** * Part II: properties                                                 *)
(* ===================================================================== *)

(** ** Facts on binary64 arithmetic

    The primitive operations are specified by their [SpecFloat] counterparts
    ([FloatAxioms]); the facts below are proved on the specification. *)

Section Binary64.

(** *** Rounding keeps the sign of a non-zero value *)

Lemma digits2_pos_size (m : positive) : digits2_pos m = Pos.size m.
Proof. induction m; simpl; congruence. Qed.

Lemma digits2_pos_upper (m : positive) : Z.pos m < 2 ^ Z.pos (digits2_pos m).
Proof.
  rewrite digits2_pos_size. pose proof (Pos.size_gt m) as H.
  apply Pos2Z.pos_lt_pos in H. now rewrite Pos2Z.inj_pow in H.
Qed.

Lemma digits2_pos_lower (m : positive) : 2 ^ Z.pos (digits2_pos m) <= 2 * Z.pos m.
Proof.
  rewrite digits2_pos_size. pose proof (Pos.size_le m) as H.
  apply Pos2Z.pos_le_pos in H. now rewrite Pos2Z.inj_pow in H.
Qed.

Lemma iter_pos_nat {A : Type} (f : A -> A) (p : positive) (x : A) :
  SpecFloat.iter_pos f p x = Nat.iter (Pos.to_nat p) f x.
Proof.
  revert x. induction p as [p IH | p IH |]; intros x.
  - rewrite Pos2Nat.inj_xI. cbn [SpecFloat.iter_pos]. rewrite !IH.
    replace (S (2 * Pos.to_nat p))%nat with (Pos.to_nat p + S (Pos.to_nat p))%nat by lia.
    rewrite Nat.iter_add, Nat.iter_succ_r. reflexivity.
  - rewrite Pos2Nat.inj_xO. cbn [SpecFloat.iter_pos]. rewrite !IH.
    replace (2 * Pos.to_nat p)%nat with (Pos.to_nat p + Pos.to_nat p)%nat by lia.
    now rewrite Nat.iter_add.
  - reflexivity.
Qed.

(** One right shift of a mantissa of at least two digits keeps it positive
    and drops one digit. *)
Lemma shr_1_pos (mrs : shr_record) (m : positive) :
  shr_m mrs = Z.pos m -> (1 < digits2_pos m)%positive ->
  exists m', shr_m (shr_1 mrs) = Z.pos m' /\
             Pos.succ (digits2_pos m') = digits2_pos m.
Proof.
  destruct mrs as [mm r s]. simpl. intros -> Hd.
  destruct m as [p | p |]; simpl in *; try lia; eauto.
Qed.

Lemma iter_shr_1_pos (k : nat) (mrs : shr_record) (m : positive) :
  shr_m mrs = Z.pos m -> (Z.of_nat k < Z.pos (digits2_pos m)) ->
  exists m', shr_m (Nat.iter k shr_1 mrs) = Z.pos m'.
Proof.
  intros Hm Hk.
  assert (exists m', shr_m (Nat.iter k shr_1 mrs) = Z.pos m' /\
            Z.pos (digits2_pos m') + Z.of_nat k = Z.pos (digits2_pos m))
    as (m' & H & _); [| eauto].
  induction k as [| k IH].
  - exists m. simpl. split; [assumption | lia].
  - destruct IH as (m1 & H1 & Hd1); [lia |].
    destruct (shr_1_pos (Nat.iter k shr_1 mrs) m1 H1) as (m2 & H2 & Hd2); [lia |].
    exists m2. simpl. split; [assumption | lia].
Qed.

Lemma shr_pos (mrs : shr_record) (e n : Z) (m : positive) :
  shr_m mrs = Z.pos m -> n < Z.pos (digits2_pos m) ->
  exists m', shr_m (fst (shr mrs e n)) = Z.pos m' /\ e <= snd (shr mrs e n).
Proof.
  intros Hm Hn. destruct n as [| p | p]; simpl.
  - exists m. split; [assumption | lia].
  - rewrite iter_pos_nat.
    destruct (iter_shr_1_pos (Pos.to_nat p) mrs m Hm) as (m' & H').
    + rewrite positive_nat_Z. assumption.
    + exists m'. split; [assumption | lia].
  - exists m. split; [assumption | lia].
Qed.

Lemma shr_m_of_loc (m : Z) (l : location) : shr_m (shr_record_of_loc m l) = m.
Proof. destruct l as [| []]; reflexivity. Qed.

Lemma shr_fexp_pos (m : positive) (e : Z) (l : location) :
  SpecFloat.emin prec emax <= e ->
  exists m', shr_m (fst (shr_fexp prec emax (Z.pos m) e l)) = Z.pos m' /\
             SpecFloat.emin prec emax <= snd (shr_fexp prec emax (Z.pos m) e l).
Proof.
  intros He. unfold shr_fexp.
  destruct (shr_pos (shr_record_of_loc (Z.pos m) l) e
              (SpecFloat.fexp prec emax (Zdigits2 (Z.pos m) + e) - e) m)
    as (m' & H1 & H2).
  - apply shr_m_of_loc.
  - cbn [Zdigits2]. unfold SpecFloat.fexp, SpecFloat.emin, prec, emax in *. lia.
  - exists m'. split; [assumption | lia].
Qed.

Lemma round_nearest_even_pos (m : positive) (l : location) :
  exists m', round_nearest_even (Z.pos m) l = Z.pos m'.
Proof.
  destruct l as [| []]; simpl; eauto.
  destruct m; simpl; eauto.
Qed.

Lemma binary_round_aux_signed (s : bool) (m : positive) (e : Z) (l : location) :
  SpecFloat.emin prec emax <= e ->
  SFsigned s (binary_round_aux prec emax s (Z.pos m) e l).
Proof.
  intros He. unfold binary_round_aux.
  destruct (shr_fexp_pos m e l He) as (m1 & H1 & He1).
  destruct (shr_fexp prec emax (Z.pos m) e l) as [mrs1 e1]. simpl in *.
  rewrite H1.
  destruct (round_nearest_even_pos m1 (loc_of_shr_record mrs1)) as (m2 & H2).
  rewrite H2.
  destruct (shr_fexp_pos m2 e1 loc_Exact He1) as (m3 & H3 & He3).
  destruct (shr_fexp prec emax (Z.pos m2) e1 loc_Exact) as [mrs3 e3]. simpl in *.
  rewrite H3.
  change (emax - prec) with 971.
  destruct (e3 <=? 971); [left; eauto | right; reflexivity].
Qed.

Lemma binary_round_signed (s : bool) (m : positive) (e : Z) :
  SpecFloat.emin prec emax <= e -> SFsigned s (binary_round prec emax s m e).
Proof.
  intros He. unfold binary_round, shl_align.
  set (e' := SpecFloat.fexp prec emax (Z.pos (digits2_pos m) + e)).
  assert (SpecFloat.emin prec emax <= e') by (unfold e', SpecFloat.fexp; lia).
  destruct (e' - e); apply binary_round_aux_signed; assumption.
Qed.

(** *** Comparison of two valid floats, on their aligned mantissas *)

Lemma pos_iter_xO (m d : positive) :
  Z.pos (Pos.iter xO m d) = Z.pos m * 2 ^ Z.pos d.
Proof.
  apply (Pos.iter_ind positive xO m
           (fun p a => Z.pos a = Z.pos m * 2 ^ Z.pos p)).
  - rewrite Z.pow_1_r. lia.
  - intros p a H. rewrite Pos2Z.inj_succ, Z.pow_succ_r by lia.
    rewrite Pos2Z.inj_xO, H. ring.
Qed.

Lemma shl_align_value (mx : positive) (ex ez : Z) :
  ez <= ex -> Z.pos (fst (shl_align mx ex ez)) = Z.pos mx * 2 ^ (ex - ez).
Proof.
  intros Hle. unfold shl_align.
  destruct (ez - ex) as [| d | d] eqn:Hd; simpl fst.
  - replace (ex - ez) with 0 by lia. rewrite Z.pow_0_r. lia.
  - lia.
  - replace (ex - ez) with (Z.pos d) by lia. apply pos_iter_xO.
Qed.

Lemma bounded_canonical (m : positive) (e : Z) :
  bounded prec emax m e = true ->
  emin <= e /\ Z.pos m < 2 ^ 53 /\ (emin < e -> 2 ^ 52 <= Z.pos m).
Proof.
  unfold bounded, canonical_mantissa. intros H.
  apply andb_true_iff in H as [H _]. apply Z.eqb_eq in H.
  pose proof (digits2_pos_upper m) as Hu.
  pose proof (digits2_pos_lower m) as Hl.
  unfold SpecFloat.fexp, SpecFloat.emin, prec, emax in *.
  assert (Hd : Z.pos (digits2_pos m) <= 53) by lia.
  split; [lia |]. split.
  - apply Z.lt_le_trans with (1 := Hu). apply Z.pow_le_mono_r; lia.
  - intros He. assert (Z.pos (digits2_pos m) = 53) as Heq by lia.
    rewrite Heq in Hl. change (2 ^ 53) with (2 * 2 ^ 52) in Hl. lia.
Qed.

Lemma SFcompare_finite (sx sy : bool) (mx my : positive) (ex ey : Z) :
  bounded prec emax mx ex = true -> bounded prec emax my ey = true ->
  SFcompare (S754_finite sx mx ex) (S754_finite sy my ey) =
  Some (aligned sx mx ex (Z.min ex ey) ?= aligned sy my ey (Z.min ex ey)).
Proof.
  intros Hx Hy.
  destruct (bounded_canonical _ _ Hx) as (Hex & Hux & Hlx).
  destruct (bounded_canonical _ _ Hy) as (Hey & Huy & Hly).
  unfold aligned. rewrite !shl_align_value by lia.
  assert (Hsmall : forall a b : Z, a < b -> 2 <= 2 ^ (b - a)).
  { intros a b Hab. change 2 with (2 ^ 1) at 1. apply Z.pow_le_mono_r; lia. }
  change (2 ^ 53) with (2 * 2 ^ 52) in *.
  set (K := 2 ^ 52) in *.
  assert (HK : 0 < K) by (unfold K; lia). clearbody K.
  cbn [SFcompare]. f_equal.
  destruct (ex ?= ey) eqn:Hc.
  - apply Z.compare_eq_iff in Hc. subst ey.
    rewrite Z.min_id, Z.sub_diag, Z.pow_0_r, !Z.mul_1_r.
    destruct sx, sy; reflexivity.
  - rewrite Z.compare_lt_iff in Hc.
    rewrite Z.min_l by lia. rewrite Z.sub_diag, Z.pow_0_r, Z.mul_1_r.
    specialize (Hsmall _ _ Hc). specialize (Hly ltac:(lia)).
    destruct sx, sy; cbn [cond_Zopp]; symmetry;
      first [apply Z.compare_lt_iff; nia | apply Z.compare_gt_iff; nia].
  - rewrite Z.compare_gt_iff in Hc.
    rewrite Z.min_r by lia. rewrite Z.sub_diag, Z.pow_0_r, Z.mul_1_r.
    specialize (Hsmall _ _ Hc). specialize (Hlx ltac:(lia)).
    destruct sx, sy; cbn [cond_Zopp]; symmetry;
      first [apply Z.compare_lt_iff; nia | apply Z.compare_gt_iff; nia].
Qed.

(** *** The sign of a difference *)

Lemma SFltb_normalize_neg (M e : Z) :
  emin <= e ->
  SFltb (binary_normalize prec emax M e false) (S754_zero false) = (M <? 0).
Proof.
  intros He. destruct M as [| p | p]; cbn [binary_normalize].
  - reflexivity.
  - destruct (binary_round_signed false p e He) as [(m' & e' & ->) | ->];
      reflexivity.
  - destruct (binary_round_signed true p e He) as [(m' & e' & ->) | ->];
      reflexivity.
Qed.

Lemma SFltb_normalize_pos (M e : Z) :
  emin <= e ->
  SFltb (S754_zero false) (binary_normalize prec emax M e false) = (0 <? M).
Proof.
  intros He. destruct M as [| p | p]; cbn [binary_normalize].
  - reflexivity.
  - destruct (binary_round_signed false p e He) as [(m' & e' & ->) | ->];
      reflexivity.
  - destruct (binary_round_signed true p e He) as [(m' & e' & ->) | ->];
      reflexivity.
Qed.

Lemma SFltb_of_compare (x y : spec_float) (a b : Z) :
  SFcompare x y = Some (a ?= b) -> SFltb x y = (a - b <? 0).
Proof.
  unfold SFltb. intros ->.
  destruct (Z.compare_spec a b); destruct (Z.ltb_spec (a - b) 0); (reflexivity || lia).
Qed.

Lemma SFsub_neg (x y : spec_float) :
  valid_binary x = true -> valid_binary y = true ->
  SFltb (SF64sub x y) (S754_zero false) = SFltb x y.
Proof.
  intros Hx Hy.
  destruct x as [sx | sx | | sx mx ex], y as [sy | sy | | sy my ey];
    try (repeat match goal with s : bool |- _ => destruct s end; reflexivity).
  cbn [valid_binary] in Hx, Hy.
  unfold SF64sub, SFsub.
  rewrite SFltb_normalize_neg.
  - symmetry. apply SFltb_of_compare. now apply SFcompare_finite.
  - destruct (bounded_canonical _ _ Hx) as (? & _).
    destruct (bounded_canonical _ _ Hy) as (? & _). lia.
Qed.

Lemma SFsub_pos (x y : spec_float) :
  valid_binary x = true -> valid_binary y = true ->
  SFltb (S754_zero false) (SF64sub x y) = SFltb y x.
Proof.
  intros Hx Hy.
  destruct x as [sx | sx | | sx mx ex], y as [sy | sy | | sy my ey];
    try (repeat match goal with s : bool |- _ => destruct s end; reflexivity).
  cbn [valid_binary] in Hx, Hy.
  unfold SF64sub, SFsub.
  rewrite SFltb_normalize_pos.
  - symmetry. unfold SFltb. rewrite (SFcompare_finite _ _ _ _ _ _ Hy Hx).
    rewrite Z.min_comm.
    fold (aligned sx mx ex (Z.min ex ey)). fold (aligned sy my ey (Z.min ex ey)).
    destruct (Z.compare_spec (aligned sy my ey (Z.min ex ey)) (aligned sx mx ex (Z.min ex ey)));
    destruct (Z.ltb_spec 0 (aligned sx mx ex (Z.min ex ey) - aligned sy my ey (Z.min ex ey)));
    (reflexivity || lia).
  - destruct (bounded_canonical _ _ Hx) as (? & _).
    destruct (bounded_canonical _ _ Hy) as (? & _). lia.
Qed.

Lemma Prim2SF_zero : Prim2SF 0 = S754_zero false.
Proof. reflexivity. Qed.

Lemma ltb_sub_zero (x y : float) :
  PrimFloat.ltb (x - y) 0 = PrimFloat.ltb x y.
Proof.
  rewrite !FloatAxioms.ltb_spec, FloatAxioms.sub_spec, Prim2SF_zero.
  apply SFsub_neg; apply Prim2SF_valid.
Qed.

Lemma ltb_zero_sub (x y : float) :
  PrimFloat.ltb 0 (x - y) = PrimFloat.ltb y x.
Proof.
  rewrite !FloatAxioms.ltb_spec, FloatAxioms.sub_spec, Prim2SF_zero.
  apply SFsub_pos; apply Prim2SF_valid.
Qed.

(** *** The order on floats *)

Ltac cases_bool := repeat match goal with s : bool |- _ => destruct s end.

Lemma SFcompare_antisym (x y : spec_float) :
  SFcompare y x = option_map CompOpp (SFcompare x y).
Proof.
  destruct x as [sx | sx | | sx mx ex], y as [sy | sy | | sy my ey];
    try (cases_bool; reflexivity).
  cbn [SFcompare option_map].
  change (Pos.compare_cont Eq) with Pos.compare.
  rewrite (Z.compare_antisym ex ey), (Pos.compare_antisym mx my).
  destruct sx, sy; cbn [CompOpp]; try reflexivity;
    destruct (ex ?= ey); cbn [CompOpp]; try reflexivity;
    destruct (mx ?= my)%positive; reflexivity.
Qed.

Lemma SFltb_trans (x y z : spec_float) :
  SFltb x y = true -> SFltb y z = true -> SFltb x z = true.
Proof.
  unfold SFltb.
  destruct x as [sx | sx | | sx mx ex], y as [sy | sy | | sy my ey],
           z as [sz | sz | | sz mz ez];
    try (cases_bool; cbn; congruence).
  destruct sx, sy, sz; cbn [SFcompare]; try congruence;
    change (Pos.compare_cont Eq) with Pos.compare;
    destruct (Z.compare_spec ex ey), (Z.compare_spec ey ez),
             (Z.compare_spec ex ez); try congruence; try lia; subst;
    destruct (Pos.compare_spec mx my), (Pos.compare_spec my mz),
             (Pos.compare_spec mx mz); cbn [CompOpp]; try congruence; lia.
Qed.

Lemma SFleb_of_not_ltb (x y : spec_float) :
  x <> S754_nan -> y <> S754_nan -> SFltb y x = false -> SFleb x y = true.
Proof.
  unfold SFltb, SFleb. rewrite (SFcompare_antisym x y).
  destruct x as [sx | sx | |], y as [sy | sy | |]; try congruence;
    intros _ _; destruct (SFcompare _ _) as [[]|] eqn:E; cbn; try congruence;
    revert E; cases_bool; cbn; congruence.
Qed.

Lemma SFltb_irrefl (x : spec_float) : SFltb x x = false.
Proof.
  unfold SFltb. pose proof (SFcompare_antisym x x) as H.
  destruct (SFcompare x x) as [[]|]; cbn in H; congruence.
Qed.

(** Floats that compare equal compare alike with every float. *)
Lemma SFcompare_Eq_r (x y z : spec_float) :
  SFcompare y z = Some Eq -> SFcompare x y = SFcompare x z.
Proof.
  destruct y as [sy | sy | | sy my ey], z as [sz | sz | | sz mz ez];
    try (cases_bool; cbn; congruence);
    try (destruct x; cases_bool; cbn; congruence).
  intros H.
  assert (sy = sz /\ ey = ez /\ my = mz) as (-> & -> & ->); [| reflexivity].
  revert H. cbn [SFcompare]. change (Pos.compare_cont Eq) with Pos.compare.
  destruct sy, sz; try discriminate;
    destruct (Z.compare_spec ey ez); try discriminate;
    destruct (Pos.compare_spec my mz); cbn; try discriminate; auto.
Qed.

Lemma SFltb_leb_trans (x y z : spec_float) :
  SFltb x y = true -> SFleb y z = true -> SFltb x z = true.
Proof.
  intros Hxy Hyz. unfold SFleb in Hyz.
  destruct (SFcompare y z) as [[]|] eqn:E; try discriminate.
  - unfold SFltb in *. now rewrite <- (SFcompare_Eq_r x y z E).
  - apply SFltb_trans with y; [assumption |]. unfold SFltb. now rewrite E.
Qed.

(** *** Sums and quotients of numbers that are not negative *)

Lemma binary_round_aux_not_negative (m e : Z) (l : location) :
  SFltb (binary_round_aux prec emax false m e l) (S754_zero false) = false.
Proof.
  unfold binary_round_aux.
  destruct (shr_fexp prec emax m e l) as [mrs1 e1].
  destruct (shr_fexp prec emax _ e1 loc_Exact) as [mrs2 e2].
  destruct (shr_m mrs2); [reflexivity | | reflexivity].
  now destruct (e2 <=? emax - prec).
Qed.

Lemma SFadd_not_negative (x y : spec_float) :
  SFltb x (S754_zero false) = false -> SFltb y (S754_zero false) = false ->
  SFltb (SF64add x y) (S754_zero false) = false.
Proof.
  destruct x as [sx | sx | | sx mx ex], y as [sy | sy | | sy my ey];
    try (cases_bool; cbn; congruence).
  destruct sx, sy; try (cbn; congruence). intros _ _.
  unfold SF64add, SFadd. cbn [cond_Zopp].
  match goal with
  | |- context [binary_normalize _ _ (Z.pos ?a + Z.pos ?b)] =>
      change (Z.pos a + Z.pos b) with (Z.pos (a + b))
  end.
  cbn [binary_normalize]. unfold binary_round.
  destruct (shl_align _ _ _) as [mz ez].
  apply binary_round_aux_not_negative.
Qed.

Lemma SFdiv_not_negative (x y : spec_float) :
  SFltb x (S754_zero false) = false -> y <> S754_nan ->
  SFleb y (S754_zero false) = false ->
  SFltb (SF64div x y) (S754_zero false) = false.
Proof.
  destruct x as [sx | sx | | sx mx ex], y as [sy | sy | | sy my ey];
    try (cases_bool; cbn; congruence).
  destruct sx, sy; try (cbn; congruence). intros _ _ _.
  unfold SF64div, SFdiv. cbn [xorb].
  destruct (SFdiv_core_binary prec emax (Z.pos mx) ex (Z.pos my) ey)
    as [[mz ez] lz].
  apply binary_round_aux_not_negative.
Qed.

(** *** Values that are not finite *)

Lemma SFcompare_refl_finite (s : bool) (m : positive) (e : Z) :
  SFcompare (S754_finite s m e) (S754_finite s m e) = Some Eq.
Proof.
  cbn [SFcompare]. rewrite Z.compare_refl.
  change (Pos.compare_cont Eq m m) with (Pos.compare m m).
  rewrite Pos.compare_refl. destruct s; reflexivity.
Qed.

Lemma Prim2SF_infinity : Prim2SF infinity = S754_infinity false.
Proof. reflexivity. Qed.

Lemma is_nan_spec (x : float) :
  PrimFloat.is_nan x = match Prim2SF x with S754_nan => true | _ => false end.
Proof.
  unfold PrimFloat.is_nan. rewrite FloatAxioms.eqb_spec. unfold SFeqb.
  destruct (Prim2SF x) as [s | s | | s m e]; try (cases_bool; reflexivity).
  now rewrite SFcompare_refl_finite.
Qed.

Lemma is_zero_spec (x : float) :
  PrimFloat.is_zero x = match Prim2SF x with S754_zero _ => true | _ => false end.
Proof.
  unfold PrimFloat.is_zero. rewrite FloatAxioms.eqb_spec.
  change (Prim2SF zero) with (S754_zero false).
  destruct (Prim2SF x) as [s | s | | s m e]; cases_bool; reflexivity.
Qed.

Lemma is_finite_spec (x : float) :
  PrimFloat.is_finite x = negb (SFnonfinite (Prim2SF x)).
Proof.
  unfold PrimFloat.is_finite, PrimFloat.is_infinity.
  rewrite is_nan_spec, FloatAxioms.eqb_spec, FloatAxioms.abs_spec, Prim2SF_infinity.
  destruct (Prim2SF x) as [s | s | | s m e]; cases_bool; reflexivity.
Qed.

Lemma SFdiv_zero_nonfinite (x y : spec_float) :
  SFeqb y (S754_zero false) = true -> SFnonfinite (SF64div x y) = true.
Proof.
  destruct x as [sx | sx | | sx mx ex], y as [sy | sy | | sy my ey];
    cases_bool; cbn; congruence.
Qed.

Lemma SFmul_nonfinite_r (x y : spec_float) :
  SFnonfinite y = true -> SFnonfinite (SF64mul x y) = true.
Proof.
  destruct x as [sx | sx | | sx mx ex], y as [sy | sy | | sy my ey];
    cbn; congruence.
Qed.

Lemma SFsub_nonfinite_r (x y : spec_float) :
  SFnonfinite y = true -> SFnonfinite (SF64sub x y) = true.
Proof.
  destruct x as [sx | sx | | sx mx ex], y as [sy | sy | | sy my ey];
    cases_bool; cbn; congruence.
Qed.

Lemma SFadd_nonfinite_l (x y : spec_float) :
  SFnonfinite x = true -> SFnonfinite (SF64add x y) = true.
Proof.
  destruct x as [sx | sx | | sx mx ex], y as [sy | sy | | sy my ey];
    cases_bool; cbn; congruence.
Qed.

Lemma SFadd_nonfinite_r (x y : spec_float) :
  SFnonfinite y = true -> SFnonfinite (SF64add x y) = true.
Proof.
  destruct x as [sx | sx | | sx mx ex], y as [sy | sy | | sy my ey];
    cases_bool; cbn; congruence.
Qed.

End Binary64.

(** *** The primitive operations *)

Section PrimitiveFloats.

Lemma float_ltb_trans (x y z : float) :
  PrimFloat.ltb x y = true -> PrimFloat.ltb y z = true ->
  PrimFloat.ltb x z = true.
Proof. rewrite !FloatAxioms.ltb_spec. apply SFltb_trans. Qed.

Lemma float_leb_of_not_ltb (x y : float) :
  PrimFloat.is_nan x = false -> PrimFloat.is_nan y = false ->
  PrimFloat.ltb y x = false -> PrimFloat.leb x y = true.
Proof.
  rewrite !is_nan_spec, FloatAxioms.ltb_spec, FloatAxioms.leb_spec.
  intros Hx Hy. apply SFleb_of_not_ltb; intros E; rewrite E in *; discriminate.
Qed.

Lemma float_ltb_irrefl (x : float) : PrimFloat.ltb x x = false.
Proof. rewrite FloatAxioms.ltb_spec. apply SFltb_irrefl. Qed.

Lemma float_ltb_leb_trans (x y z : float) :
  PrimFloat.ltb x y = true -> PrimFloat.leb y z = true ->
  PrimFloat.ltb x z = true.
Proof.
  rewrite !FloatAxioms.ltb_spec, FloatAxioms.leb_spec. apply SFltb_leb_trans.
Qed.

Lemma float_ltb_nan_r (x v : float) :
  PrimFloat.is_nan v = true -> PrimFloat.ltb x v = false.
Proof.
  rewrite is_nan_spec, FloatAxioms.ltb_spec. unfold SFltb.
  destruct (Prim2SF v); try discriminate. intros _.
  destruct (Prim2SF x); reflexivity.
Qed.

(** Among numbers that are not [NaN], not being below carries over. *)
Lemma float_not_ltb_trans (x y z : float) :
  PrimFloat.is_nan y = false -> PrimFloat.is_nan z = false ->
  PrimFloat.ltb x y = false -> PrimFloat.ltb y z = false ->
  PrimFloat.ltb x z = false.
Proof.
  intros Hy Hz Hxy Hyz.
  destruct (PrimFloat.ltb x z) eqn:Hxz; [| reflexivity].
  rewrite <- Hxy. symmetry.
  apply float_ltb_leb_trans with z; [assumption |].
  now apply float_leb_of_not_ltb.
Qed.

Lemma or_zero_not_nan (x : float) : PrimFloat.is_nan (Js.or_zero x) = false.
Proof.
  unfold Js.or_zero. destruct (PrimFloat.is_nan x) eqn:E; [reflexivity |].
  cbn [orb]. destruct (PrimFloat.is_zero x); [reflexivity | exact E].
Qed.

Lemma div_zero_not_finite (x y : float) :
  PrimFloat.eqb y 0 = true -> PrimFloat.is_finite (x / y) = false.
Proof.
  rewrite FloatAxioms.eqb_spec, Prim2SF_zero, is_finite_spec, div_spec.
  intros H. now rewrite SFdiv_zero_nonfinite.
Qed.

Lemma mul_not_finite_r (x y : float) :
  PrimFloat.is_finite y = false -> PrimFloat.is_finite (x * y) = false.
Proof.
  rewrite !is_finite_spec, mul_spec, !negb_false_iff.
  apply SFmul_nonfinite_r.
Qed.

Lemma sub_not_finite_r (x y : float) :
  PrimFloat.is_finite y = false -> PrimFloat.is_finite (x - y) = false.
Proof.
  rewrite !is_finite_spec, FloatAxioms.sub_spec, !negb_false_iff.
  apply SFsub_nonfinite_r.
Qed.

Lemma add_not_finite_l (x y : float) :
  PrimFloat.is_finite x = false -> PrimFloat.is_finite (x + y) = false.
Proof.
  rewrite !is_finite_spec, add_spec, !negb_false_iff.
  apply SFadd_nonfinite_l.
Qed.

Lemma add_not_finite_r (x y : float) :
  PrimFloat.is_finite y = false -> PrimFloat.is_finite (x + y) = false.
Proof.
  rewrite !is_finite_spec, add_spec, !negb_false_iff.
  apply SFadd_nonfinite_r.
Qed.

Lemma add_not_negative (x y : float) :
  PrimFloat.ltb x 0 = false -> PrimFloat.ltb y 0 = false ->
  PrimFloat.ltb (x + y) 0 = false.
Proof.
  rewrite !FloatAxioms.ltb_spec, add_spec, Prim2SF_zero.
  apply SFadd_not_negative.
Qed.

Lemma div_not_negative (x y : float) :
  PrimFloat.ltb x 0 = false ->
  PrimFloat.is_nan y || Js.le y 0 = false ->
  PrimFloat.ltb (x / y) 0 = false.
Proof.
  unfold Js.le.
  rewrite !FloatAxioms.ltb_spec, FloatAxioms.leb_spec, div_spec, is_nan_spec,
    Prim2SF_zero.
  intros Hx Hy. apply orb_false_iff in Hy as [Hnan Hle].
  apply SFdiv_not_negative; [assumption | | assumption].
  intros E. rewrite E in Hnan. discriminate.
Qed.

End PrimitiveFloats.

(** ** The position accountant ([app/page.tsx]) *)

Section PositionAccountant.
Import Position.

Lemma replay_snoc (trades : list Trade) (t : Trade) :
  replay (trades ++ [t]) = replayTrade (replay trades) t.
Proof. unfold replay. now rewrite fold_left_app. Qed.

(** C10: on the empty trade list every figure of the result is zero, for
    every current price. *)
Theorem C10_empty_trade_list (currentPrice : float) :
  calculatePositionPnL [] currentPrice =
  {| pnl_realizedPnL := 0; pnl_unrealizedPnL := 0; pnl_totalPnL := 0;
     pnl_totalTokens := 0; pnl_averageCost := 0 |}.
Proof. reflexivity. Qed.

(** C1: the replay follows the average-cost algorithm.  From the zero
    state, a buy adds its notional to [totalCost] and its amount to
    [totalTokens]; a sell adds [a*p - a*(totalCost/totalTokens)] to
    [realizedPnL], multiplies [totalCost] by
    [(totalTokens - a)/totalTokens] and takes [a] from [totalTokens]; the
    result has [unrealizedPnL = totalTokens*currentPrice - totalCost] when
    [totalTokens > 0] and [0] otherwise, and
    [totalPnL = realizedPnL + unrealizedPnL].  Buying 10 units for 100 and
    selling 5 at 12 gives 5 units held, an average cost of 10, a realized
    PnL of 10 and an unrealized PnL of [5*currentPrice - 5*10]. *)
Theorem C1_average_cost_replay :
  replay [] = {| totalCost := 0; totalTokens := 0; realizedPnL := 0 |} /\
  (forall (trades : list Trade) (t : Trade),
     let before := replay trades in
     let after := replay (trades ++ [t]) in
     match type t with
     | buy =>
         totalCost after = (totalCost before + value t)%float /\
         totalTokens after = (totalTokens before + amount t)%float /\
         realizedPnL after = realizedPnL before
     | sell =>
         realizedPnL after =
           (realizedPnL before +
            (amount t * price t -
             amount t * (totalCost before / totalTokens before)))%float /\
         totalCost after =
           (totalCost before *
            ((totalTokens before - amount t) / totalTokens before))%float /\
         totalTokens after = (totalTokens before - amount t)%float
     end) /\
  (forall (trades : list Trade) (currentPrice : float),
     let acc := replay trades in
     let result := calculatePositionPnL trades currentPrice in
     pnl_realizedPnL result = realizedPnL acc /\
     pnl_totalTokens result = totalTokens acc /\
     pnl_unrealizedPnL result =
       (if Js.gt (totalTokens acc) 0
        then totalTokens acc * currentPrice - totalCost acc else 0)%float /\
     pnl_totalPnL result =
       (pnl_realizedPnL result + pnl_unrealizedPnL result)%float /\
     pnl_averageCost result =
       (if Js.gt (totalTokens acc) 0
        then totalCost acc / totalTokens acc else 0)%float) /\
  (forall (currentPrice buyPrice : float) (id1 id2 sym1 sym2 : string)
          (time1 time2 : Z) (mark1 mark2 mark3 mark4 : option float),
     calculatePositionPnL
       [ mkTrade id1 sym1 buy 10 buyPrice 100 time1 mark1 mark2;
         mkTrade id2 sym2 sell 5 12 60 time2 mark3 mark4 ]
       currentPrice =
     {| pnl_realizedPnL := 10;
        pnl_unrealizedPnL := 5 * currentPrice - 5 * 10;
        pnl_totalPnL := 10 + (5 * currentPrice - 5 * 10);
        pnl_totalTokens := 5;
        pnl_averageCost := 10 |}).
Proof.
  split; [reflexivity |]. split; [| split].
  - intros trades t before after. subst after. rewrite replay_snoc.
    fold before. unfold replayTrade. destruct (type t); cbn; auto.
  - intros trades currentPrice acc result. subst result.
    unfold calculatePositionPnL. fold acc. cbn. auto.
  - intros. reflexivity.
Qed.

(** *** A sell replayed at zero holdings *)

Lemma replayTrade_not_finite (acc : Totals) (t : Trade) :
  PrimFloat.is_finite (realizedPnL acc) = false ->
  PrimFloat.is_finite (realizedPnL (replayTrade acc t)) = false.
Proof.
  intros H. unfold replayTrade. destruct (type t); cbn; [exact H |].
  now apply add_not_finite_l.
Qed.

Lemma fold_replayTrade_not_finite (trades : list Trade) (acc : Totals) :
  PrimFloat.is_finite (realizedPnL acc) = false ->
  PrimFloat.is_finite (realizedPnL (fold_left replayTrade trades acc)) = false.
Proof.
  revert acc. induction trades as [| t rest IH]; intros acc H; cbn.
  - exact H.
  - apply IH. now apply replayTrade_not_finite.
Qed.

Lemma sell_at_zero_not_finite (acc : Totals) (t : Trade) :
  type t = sell -> PrimFloat.eqb (totalTokens acc) 0 = true ->
  PrimFloat.is_finite (realizedPnL (replayTrade acc t)) = false.
Proof.
  intros Ht Hz. unfold replayTrade. rewrite Ht. cbn.
  apply add_not_finite_r, sub_not_finite_r, mul_not_finite_r.
  now apply div_zero_not_finite.
Qed.

Lemma sellsAtZeroFrom_not_finite (trades : list Trade) (acc : Totals) :
  sellsAtZeroFrom acc trades = true ->
  PrimFloat.is_finite (realizedPnL (fold_left replayTrade trades acc)) = false.
Proof.
  revert acc. induction trades as [| t rest IH]; intros acc; cbn.
  - discriminate.
  - intros H. apply orb_true_iff in H as [H | H].
    + apply fold_replayTrade_not_finite.
      destruct (type t) eqn:Ht; [discriminate |].
      now apply sell_at_zero_not_finite.
    + now apply IH.
Qed.

(** C2, as the code has it: a sell replayed while [totalTokens == 0] raises
    no error.  The computation returns, and the division by zero shows in
    the result: the realized PnL and the total PnL it returns are not finite
    numbers (each is [NaN] or an infinity). *)
Theorem C2_sell_at_zero_returns_non_finite
  (trades : list Trade) (currentPrice : float) :
  sellsAtZero trades = true ->
  exists result : PnLData,
    calculatePositionPnL_call trades currentPrice = Js.Normal result /\
    PrimFloat.is_finite (pnl_realizedPnL result) = false /\
    PrimFloat.is_finite (pnl_totalPnL result) = false.
Proof.
  intros H. eexists. split; [reflexivity |].
  apply sellsAtZeroFrom_not_finite in H.
  cbn [calculatePositionPnL pnl_realizedPnL pnl_totalPnL].
  split; [exact H |]. now apply add_not_finite_l.
Qed.

Lemma C2_witness :
  exists result : PnLData,
    calculatePositionPnL_call
      [mkTrade "t1" "TKN" sell 1 1 1 0 None None] 1 = Js.Normal result /\
    PrimFloat.is_finite (pnl_realizedPnL result) = false /\
    PrimFloat.is_finite (pnl_totalPnL result) = false.
Proof.
  apply (C2_sell_at_zero_returns_non_finite
           [mkTrade "t1" "TKN" sell 1 1 1 0 None None] 1).
  reflexivity.
Defined.

(** C2, as stated, fails: one sell of one unit on an empty position is
    replayed at zero holdings, and the call throws nothing; it returns a
    result whose realized PnL is [NaN]. *)
Lemma C2_counterexample :
  let trades := [mkTrade "t1" "TKN" sell 1 1 1 0 None None] in
  sellsAtZero trades = true /\
  (forall message : string,
     calculatePositionPnL_call trades 1 <> Js.Throw message) /\
  exists result : PnLData,
    calculatePositionPnL_call trades 1 = Js.Normal result /\
    PrimFloat.is_nan (pnl_realizedPnL result) = true.
Proof.
  cbv zeta. split; [reflexivity |]. split; [discriminate |].
  eexists. split; reflexivity.
Qed.

(** *** The sell guard of [handleTrade] *)

Lemma replayTrade_marks (acc : Totals) (t : Trade) (m1 m2 : option float) :
  replayTrade acc
    (mkTrade (id t) (symbol t) (type t) (amount t) (price t) (value t)
       (timestamp t) m1 m2) =
  replayTrade acc t.
Proof. reflexivity. Qed.

Lemma find_address_unique (tokenAddress : string)
  (l : list TokenPosition) (token t : TokenPosition) :
  List.NoDup (map tp_address l) ->
  find (fun t => String.eqb (tp_address t) tokenAddress) l = Some token ->
  In t l -> tp_address t = tokenAddress -> t = token.
Proof.
  induction l as [| x l IH]; cbn; [discriminate |].
  intros Hnd Hfind Hin Haddr. apply NoDup_cons_iff in Hnd as [Hx Hnd].
  destruct (String.eqb (tp_address x) tokenAddress) eqn:E.
  - injection Hfind as <-. apply String.eqb_eq in E.
    destruct Hin as [-> | Hin]; [reflexivity |].
    exfalso. apply Hx. apply in_map_iff. exists t. split; congruence.
  - destruct Hin as [-> | Hin].
    + apply String.eqb_neq in E. contradiction.
    + now apply IH.
Qed.

(** C8: a sell whose token amount ([usdAmount / currentPrice]) exceeds the
    holdings of the position is turned down by the guard of [handleTrade]:
    the error is set, and balance, positions and trade log are as before,
    whatever position computation the handler closes over (it is not
    reached).  Holdings therefore never go negative: positions that hold
    what the replay of their trades gives, none of them negative, are so
    again after every sell request, accepted or not, and after every buy
    request of an amount that is not negative. *)
Theorem C8_oversell_rejected_before_any_mutation :
  (forall (calc : list Trade -> float -> PnLData)
          (parseFloat : string -> float) (pair : Dex.DexScreenerPair)
          (newId : string) (now : Z) (tokenAddress : string)
          (usdAmount : float) (st : State) (token : TokenPosition),
     let currentPrice := parseFloat (Dex.priceUsd pair) in
     PrimFloat.is_nan currentPrice || Js.le currentPrice 0 = false ->
     find (fun t => String.eqb (tp_address t) tokenAddress) (tokens st) =
       Some token ->
     Js.gt (usdAmount / currentPrice) (tp_holdings token) = true ->
     handleTradeWith calc parseFloat (Some pair) newId now tokenAddress false
       usdAmount st =
     {| balance := balance st; tokens := tokens st; trades := trades st;
        error := "Insufficient tokens" |}) /\
  (forall (parseFloat : string -> float)
          (tokenData : option Dex.DexScreenerPair)
          (newId : string) (now : Z) (tokenAddress : string)
          (usdAmount : float) (st : State),
     holdingsCoherent st ->
     holdingsCoherent
       (sellRequest parseFloat tokenData newId now tokenAddress usdAmount st)) /\
  (forall (parseFloat : string -> float)
          (tokenData : option Dex.DexScreenerPair)
          (newId : string) (now : Z) (tokenAddress : string)
          (usdAmount : float) (st : State),
     PrimFloat.ltb usdAmount 0 = false ->
     holdingsCoherent st ->
     holdingsCoherent
       (handleTrade parseFloat tokenData newId now tokenAddress true
          usdAmount st)).
Proof.
  split; [| split].
  - intros calc parseFloat pair newId now tokenAddress usdAmount st token
      currentPrice Hprice Hfind Hgt.
    unfold handleTradeWith. fold currentPrice. rewrite Hprice.
    cbn [setError tokens]. rewrite Hfind. cbn [balance]. rewrite Hgt.
    reflexivity.
  - intros parseFloat tokenData newId now tokenAddress usdAmount st Hst.
    unfold sellRequest, handleTrade, handleTradeWith.
    destruct tokenData as [pair |]; [| exact Hst].
    destruct (_ || _); [exact Hst |].
    cbn [setError tokens].
    destruct (find _ (tokens st)) as [token |] eqn:Hfind; [| exact Hst].
    destruct (Js.gt _ (tp_holdings token)) eqn:Hgt; [exact Hst |].
    destruct Hst as [Hnd Hall]. unfold holdingsCoherent. cbn [tokens].
    split.
    + rewrite map_map.
      erewrite map_ext; [exact Hnd |].
      intros t. cbn. now destruct (String.eqb _ _).
    + apply List.Forall_forall. intros t' Hin.
      apply in_map_iff in Hin as (t & <- & Hin).
      pose proof (proj1 (List.Forall_forall _ _) Hall t Hin) as [Hrep Hneg].
      destruct (String.eqb (tp_address t) tokenAddress) eqn:E;
        [| split; assumption].
      apply String.eqb_eq in E.
      assert (t = token) as -> by eauto using find_address_unique.
      cbn [tp_holdings tp_trades calculatePositionPnL pnl_totalTokens].
      rewrite !replay_snoc. unfold replayTrade at 1 3. cbn.
      rewrite <- Hrep. split; [reflexivity |].
      rewrite ltb_sub_zero. exact Hgt.
  - intros parseFloat tokenData newId now tokenAddress usdAmount st Husd Hst.
    unfold handleTrade, handleTradeWith.
    destruct tokenData as [pair |]; [| exact Hst].
    destruct (_ || _) eqn:Hprice; [exact Hst |].
    cbn [setError balance tokens].
    destruct (Js.gt usdAmount (balance st)); [exact Hst |].
    destruct Hst as [Hnd Hall]. unfold holdingsCoherent. cbn [tokens].
    split.
    + rewrite map_map.
      erewrite map_ext; [exact Hnd |].
      intros t. cbn. now destruct (String.eqb _ _).
    + apply List.Forall_forall. intros t' Hin.
      apply in_map_iff in Hin as (t & <- & Hin).
      pose proof (proj1 (List.Forall_forall _ _) Hall t Hin) as [Hrep Hneg].
      destruct (String.eqb (tp_address t) tokenAddress);
        [| split; assumption].
      cbn [tp_holdings tp_trades calculatePositionPnL pnl_totalTokens].
      split; [reflexivity |].
      rewrite replay_snoc. unfold replayTrade. cbn. rewrite <- Hrep.
      apply add_not_negative; [assumption |].
      now apply div_not_negative.
Qed.

Lemma C8_witness :
  handleTradeWith calculatePositionPnL exampleParseFloat (Some examplePair)
    "c" 3 "mint1" false 200 exampleState =
  {| balance := balance exampleState; tokens := tokens exampleState;
     trades := trades exampleState; error := "Insufficient tokens" |}.
Proof.
  exact (proj1 C8_oversell_rejected_before_any_mutation
           calculatePositionPnL exampleParseFloat examplePair "c" 3 "mint1"
           200%float exampleState _ eq_refl eq_refl eq_refl).
Defined.

(** *** The percentage recorded on a sell *)

(** C9, as the code has it: the [pnl] recorded on a sell is the realized
    PnL of the whole position after that sell (what the replay of all the
    trades of the position, that sell included, has realized), and
    [pnlPercent] is that figure divided by the notional of the sell (the
    proceeds, not the cost basis), times 100. *)
Theorem C9_percent_of_position_realized_pnl
  (parseFloat : string -> float) (pair : Dex.DexScreenerPair)
  (newId : string) (now : Z) (tokenAddress : string) (usdAmount : float)
  (st : State) (token : TokenPosition) :
  let currentPrice := parseFloat (Dex.priceUsd pair) in
  let tokenAmount := (usdAmount / currentPrice)%float in
  PrimFloat.is_nan currentPrice || Js.le currentPrice 0 = false ->
  find (fun t => String.eqb (tp_address t) tokenAddress) (tokens st) =
    Some token ->
  Js.gt tokenAmount (tp_holdings token) = false ->
  exists trade : Trade,
    trades (handleTrade parseFloat (Some pair) newId now tokenAddress false
              usdAmount st) = trade :: trades st /\
    type trade = sell /\ amount trade = tokenAmount /\
    price trade = currentPrice /\ value trade = usdAmount /\
    let before := replay (tp_trades token) in
    let realized :=
      (realizedPnL before + sellRealizedPnL before trade)%float in
    realized = realizedPnL (replay (tp_trades token ++ [trade])) /\
    pnl trade = Some realized /\
    pnlPercent trade = Some (realized / value trade * 100)%float.
Proof.
  intros currentPrice tokenAmount Hprice Hfind Hgt.
  unfold handleTrade, handleTradeWith. fold currentPrice. rewrite Hprice.
  cbn [setError tokens]. rewrite Hfind. fold tokenAmount. rewrite Hgt.
  eexists. split; [reflexivity |]. cbn [type amount price value pnl pnlPercent].
  repeat (split; [reflexivity |]).
  cbv zeta. rewrite !replay_snoc.
  cbn [calculatePositionPnL pnl_realizedPnL]. rewrite replay_snoc.
  repeat split; reflexivity.
Qed.

Lemma C9_witness :
  exists trade : Trade,
    trades (handleTrade exampleParseFloat (Some examplePair) "c" 3 "mint1"
              false 50 exampleState) = trade :: trades exampleState /\
    type trade = sell /\ amount trade = (50 / 2)%float /\
    price trade = 2%float /\ value trade = 50%float /\
    let before :=
      replay (tp_trades
                (mkTokenPosition "mint1" "TKN" 75
                   [ mkTrade "a" "TKN" buy 100 1 100 1 None None;
                     mkTrade "b" "TKN" sell 25 2 50 2 (Some 25%float)
                       (Some 50%float) ] 100 1 2)) in
    let realized :=
      (realizedPnL before + sellRealizedPnL before trade)%float in
    realized =
      realizedPnL
        (replay
           (tp_trades
              (mkTokenPosition "mint1" "TKN" 75
                 [ mkTrade "a" "TKN" buy 100 1 100 1 None None;
                   mkTrade "b" "TKN" sell 25 2 50 2 (Some 25%float)
                     (Some 50%float) ] 100 1 2) ++ [trade])) /\
    pnl trade = Some realized /\
    pnlPercent trade = Some (realized / value trade * 100)%float.
Proof.
  exact (C9_percent_of_position_realized_pnl exampleParseFloat examplePair
           "c" 3 "mint1" 50%float exampleState _ eq_refl eq_refl eq_refl).
Defined.

(** C9, as stated, fails: on a position that sold before (100 units bought
    at 1, 25 sold at 2), a second sell of 25 units at 2 realizes 25 on
    proceeds of 50, which is 50 percent; the trade is recorded with a [pnl]
    of 50 and a [pnlPercent] of 100. *)
Lemma C9_counterexample :
  let st' :=
    handleTrade exampleParseFloat (Some examplePair) "c" 3 "mint1" false 50
      exampleState in
  let before := replay [ mkTrade "a" "TKN" buy 100 1 100 1 None None;
                         mkTrade "b" "TKN" sell 25 2 50 2 (Some 25%float)
                           (Some 50%float) ] in
  exists trade : Trade,
    trades st' = trade :: trades exampleState /\ type trade = sell /\
    (sellRealizedPnL before trade / value trade * 100)%float = 50%float /\
    pnlPercent trade = Some 100%float /\
    pnlPercent trade <>
      Some (sellRealizedPnL before trade / value trade * 100)%float.
Proof.
  cbv zeta. eexists. split; [reflexivity |].
  split; [reflexivity |]. split; [reflexivity |]. split; [reflexivity |].
  intros H.
  apply (f_equal (fun o => match o with
                           | Some x => PrimFloat.ltb x 60
                           | None => false
                           end)) in H.
  vm_compute in H. discriminate.
Qed.

End PositionAccountant.

(** ** The rate limiter *)

Section RateLimiterFacts.
Import RateLimiter.

Lemma attempt_limit (now : Z) (rl : state) :
  limit (fst (attempt now rl)) = limit rl.
Proof.
  unfold attempt.
  destruct (resetInterval <=? now - lastReset rl); cbn;
    destruct (_ <=? _); reflexivity.
Qed.

(** What one evaluation leaves behind, from a limiter whose count is within
    its limit and whose window did not start after [now]. *)
Lemma attempt_inv (now : Z) (rl : state) :
  0 <= requests rl <= limit rl -> lastReset rl <= now ->
  let rl1 := fst (attempt now rl) in
  0 <= requests rl1 <= limit rl /\
  lastReset rl1 <= now < lastReset rl1 + resetInterval /\
  (lastReset rl1 = lastReset rl /\ requests rl <= requests rl1 \/
   lastReset rl + resetInterval <= lastReset rl1) /\
  (snd (attempt now rl) = Granted -> 1 <= requests rl1 /\
     (lastReset rl1 = lastReset rl -> requests rl1 = requests rl + 1)).
Proof.
  intros Hreq Hlast. unfold attempt, resetInterval.
  destruct (Z.leb_spec 60000 (now - lastReset rl)); cbn;
    match goal with |- context [?a <=? ?b] => destruct (Z.leb_spec a b) end;
    cbn; repeat split; try lia; try discriminate; auto with zarith.
Qed.

Lemma filter_length_le {A : Type} (P Q : A -> bool) (l : list A) :
  (forall x, In x l -> P x = true -> Q x = true) ->
  (List.length (List.filter P l) <= List.length (List.filter Q l))%nat.
Proof.
  induction l as [| x l IH]; intros H; cbn; [lia |].
  assert (IH' := IH (fun y Hy => H y (or_intror Hy))).
  destruct (P x) eqn:HP.
  - rewrite (H x (or_introl eq_refl) HP). cbn. lia.
  - destruct (Q x); cbn; lia.
Qed.

Lemma filter_length_split {A : Type} (P Q : A -> bool) (l : list A) :
  List.length (List.filter P l) =
  (List.length (List.filter (fun x => P x && Q x) l) +
   List.length (List.filter (fun x => P x && negb (Q x)) l))%nat.
Proof.
  induction l as [| x l IH]; cbn; [reflexivity |].
  destruct (P x), (Q x); cbn; lia.
Qed.

(** The events of a log that fall under one window are at most the limit:
    so are the events picked by a test that only one window passes. *)
Lemma one_window_bound (L : Z) (P : Z * Z -> bool) (log : list (Z * Z)) :
  0 <= L ->
  (forall w, countInWindow w log <= L) ->
  (forall e1 e2, In e1 log -> In e2 log -> P e1 = true -> P e2 = true ->
                 snd e1 = snd e2) ->
  Z.of_nat (List.length (List.filter P log)) <= L.
Proof.
  intros HL Hcount Hsame.
  destruct (List.filter P log) as [| e rest] eqn:E; [cbn; lia |].
  assert (He : In e log /\ P e = true).
  { apply filter_In. rewrite E. now left. }
  rewrite <- E. specialize (Hcount (snd e)). unfold countInWindow in Hcount.
  assert (Himp : forall x, In x log -> P x = true ->
                           (snd x =? snd e) = true).
  { intros x Hx HPx. apply Z.eqb_eq. now apply Hsame. }
  apply (filter_length_le P (fun ev => snd ev =? snd e)) in Himp. lia.
Qed.

Lemma countInWindow_none (w : Z) (log : list (Z * Z)) :
  (forall tm w', In (tm, w') log -> w' <> w) -> countInWindow w log = 0.
Proof.
  unfold countInWindow. induction log as [| [tm w'] log IH]; intros H.
  - reflexivity.
  - cbn [List.filter snd].
    destruct (Z.eqb_spec w' w) as [E | E].
    + exfalso. exact (H tm w' (or_introl eq_refl) E).
    + apply IH. intros tm' w'' Hin. apply (H tm' w''). now right.
Qed.

(** The log of a run, from a limiter whose count is within its limit. *)
Lemma run_log (times : list Z) :
  forall (rl : state) (t0 : Z),
    0 <= requests rl <= limit rl -> lastReset rl <= t0 ->
    monotone t0 times = true ->
    let log := snd (run times rl) in
    (forall tm w, In (tm, w) log ->
       w <= tm < w + resetInterval /\
       (w = lastReset rl \/ lastReset rl + resetInterval <= w)) /\
    (forall w, countInWindow w log <=
               limit rl - (if w =? lastReset rl then requests rl else 0)) /\
    (forall tm1 w1 tm2 w2, In (tm1, w1) log -> In (tm2, w2) log ->
       w1 = w2 \/ w1 + resetInterval <= w2 \/ w2 + resetInterval <= w1).
Proof.
  induction times as [| now rest IH]; intros rl t0 Hreq Hlast Hmono log.
  - subst log. cbn. repeat split; try contradiction.
    intros w. unfold countInWindow. cbn. destruct (w =? lastReset rl); lia.
  - cbn in Hmono. apply andb_true_iff in Hmono as [Hnow Hmono].
    apply Z.leb_le in Hnow.
    assert (Hnow' : lastReset rl <= now) by lia.
    pose proof (attempt_inv now rl Hreq Hnow') as Hatt. cbv zeta in Hatt.
    pose proof (attempt_limit now rl) as Hlim.
    subst log. cbn [run].
    destruct (attempt now rl) as [rl1 a]. cbn [fst snd] in Hatt, Hlim.
    destruct Hatt as (Hreq1 & Hwin1 & Hstep & Hgranted).
    specialize (IH rl1 now). rewrite Hlim in IH.
    specialize (IH Hreq1 ltac:(lia) Hmono). cbv zeta in IH.
    destruct (run rest rl1) as [rl2 log']. cbn [snd] in IH |- *.
    destruct IH as (IH1 & IH2 & IH3).
    assert (Hold : forall tm w, In (tm, w) log' ->
              w <= tm < w + resetInterval /\
              (w = lastReset rl \/ lastReset rl + resetInterval <= w)).
    { intros tm w Hin. destruct (IH1 tm w Hin) as [? ?].
      split; [assumption |]. unfold resetInterval in *. lia. }
    assert (Hcnt : forall w, countInWindow w log' <=
              limit rl - (if w =? lastReset rl1 then requests rl1 else 0))
      by exact IH2.
    destruct a as [| waitTime].
    + destruct (Hgranted eq_refl) as [Hone Hsame].
      split; [| split].
      * intros tm w [E | Hin]; [| now apply Hold].
        injection E as <- <-. split; [lia |].
        unfold resetInterval in *. lia.
      * intros w. unfold countInWindow. cbn [List.filter snd].
        specialize (Hcnt w). unfold countInWindow in Hcnt.
        destruct (Z.eqb_spec (lastReset rl1) w) as [E | E].
        -- subst w. rewrite Z.eqb_refl in Hcnt. cbn [List.length].
           destruct (Z.eqb_spec (lastReset rl1) (lastReset rl)); lia.
        -- destruct (Z.eqb_spec w (lastReset rl1)); [congruence |].
           destruct (Z.eqb_spec w (lastReset rl)) as [E' | E']; [| lia].
           subst w. destruct Hstep as [[? ?] | Hfar]; [congruence |].
           fold (countInWindow (lastReset rl) log').
           rewrite countInWindow_none; [lia |].
           intros tm w' Hin. destruct (IH1 tm w' Hin) as [_ ?].
           unfold resetInterval in *. lia.
      * intros tm1 w1 tm2 w2 [E1 | H1] [E2 | H2].
        -- injection E1 as <- <-. injection E2 as <- <-. now left.
        -- injection E1 as <- <-. destruct (IH1 tm2 w2 H2) as [_ [-> | ?]];
             [now left | right; left; assumption].
        -- injection E2 as <- <-. destruct (IH1 tm1 w1 H1) as [_ [-> | ?]];
             [now left | right; right; assumption].
        -- now apply (IH3 tm1 w1 tm2 w2).
    + split; [exact Hold | split; [| exact IH3]].
      intros w. specialize (Hcnt w).
      destruct (Z.eqb_spec w (lastReset rl)) as [E | E]; [| 
        destruct (w =? lastReset rl1); lia].
      subst w. destruct Hstep as [[E Hle] | Hfar].
      * rewrite E, Z.eqb_refl in Hcnt. lia.
      * rewrite countInWindow_none; [lia |].
        intros tm w' Hin. destruct (IH1 tm w' Hin) as [_ ?].
        unfold resetInterval in *. lia.
Qed.

(** At most two windows meet an interval as long as a window. *)
Lemma window_length_interval_bound (L from : Z) (log : list (Z * Z)) :
  0 <= L ->
  (forall tm w, In (tm, w) log -> w <= tm < w + resetInterval) ->
  (forall w, countInWindow w log <= L) ->
  (forall tm1 w1 tm2 w2, In (tm1, w1) log -> In (tm2, w2) log ->
     w1 = w2 \/ w1 + resetInterval <= w2 \/ w2 + resetInterval <= w1) ->
  countWithin from resetInterval log <= 2 * L.
Proof.
  intros HL Hwin Hcount Hsep. unfold countWithin.
  rewrite (filter_length_split _ (fun ev => snd ev <=? from) log).
  rewrite Nat2Z.inj_add.
  assert (Z.of_nat (List.length (List.filter
            (fun x => (from <=? fst x) && (fst x <? from + resetInterval) &&
                      (snd x <=? from)) log)) <= L) as H1.
  { apply one_window_bound; [assumption | assumption |].
    intros [tm1 w1] [tm2 w2] Hin1 Hin2 HP1 HP2. cbn [fst snd] in *.
    pose proof (Hwin _ _ Hin1). pose proof (Hwin _ _ Hin2).
    pose proof (Hsep _ _ _ _ Hin1 Hin2). lia. }
  assert (Z.of_nat (List.length (List.filter
            (fun x => (from <=? fst x) && (fst x <? from + resetInterval) &&
                      negb (snd x <=? from)) log)) <= L) as H2.
  { apply one_window_bound; [assumption | assumption |].
    intros [tm1 w1] [tm2 w2] Hin1 Hin2 HP1 HP2. cbn [fst snd] in *.
    pose proof (Hwin _ _ Hin1). pose proof (Hwin _ _ Hin2).
    pose proof (Hsep _ _ _ _ Hin1 Hin2). lia. }
  lia.
Qed.

(** With a positive limit a call returns, at the latest when the window it
    found full is over. *)
Lemma waitForAvailability_returns (now : Z) (rl : state) :
  0 < limit rl ->
  exists rl' t, waitForAvailability 2 now rl = Some (rl', t) /\
                (t = now \/ t = lastReset (fst (attempt now rl)) + resetInterval).
Proof.
  intros Hlim. cbn [waitForAvailability].
  destruct (attempt now rl) as [rl1 [| waitTime]] eqn:E1.
  - eauto.
  - assert (limit rl1 = limit rl /\
            waitTime = resetInterval - (now - lastReset rl1)) as [Hl ->].
    { revert E1. unfold attempt.
      destruct (resetInterval <=? now - lastReset rl); cbn;
        destruct (_ <=? _); intros [= <- <-]; cbn; auto; discriminate. }
    unfold attempt.
    replace (now + (resetInterval - (now - lastReset rl1)) - lastReset rl1)
      with resetInterval by ring.
    rewrite Z.leb_refl. cbn [requests limit lastReset].
    destruct (Z.leb_spec (limit rl1) 0); [lia |].
    do 2 eexists. split; [reflexivity |]. right. cbn. ring.
Qed.

(** C3: the limiter counts over fixed windows.  An evaluation that finds
    the window over (the time since its start has reached the window length)
    starts from a count of zero and a window starting now; one that finds
    the count at the limit sleeps for exactly the rest of the window and
    evaluates again from the start; with a positive limit a call returns,
    at once or when the window it found full is over.
    For every sequence of evaluations, by any number of callers, taken as
    the clock moves on: at most [limit] requests are counted under one
    window, each at a time within the window length of its start, and at
    most [2 * limit] requests are counted in any interval as long as a
    window (such an interval meets at most two windows). *)
Theorem C3_fixed_window_rate_limit
  (limitPerMinute created : Z) (times : list Z) :
  0 <= limitPerMinute ->
  monotone created times = true ->
  let log := snd (run times (create limitPerMinute created)) in
  (forall (now : Z) (rl : state),
     resetInterval <= now - lastReset rl ->
     attempt now rl =
       attempt now {| requests := 0; lastReset := now; limit := limit rl |} /\
     lastReset (fst (attempt now rl)) = now) /\
  (forall (now : Z) (rl rl' : state) (waitTime : Z),
     attempt now rl = (rl', Sleep waitTime) ->
     limit rl' <= requests rl' /\
     now + waitTime = lastReset rl' + resetInterval /\
     forall fuel : nat,
       waitForAvailability (S fuel) now rl =
       waitForAvailability fuel (now + waitTime) rl') /\
  (forall (now : Z) (rl rl' : state),
     attempt now rl = (rl', Granted) ->
     requests rl' <= limit rl' /\
     waitForAvailability 1 now rl = Some (rl', now)) /\
  (forall (now : Z) (rl : state),
     0 < limit rl ->
     exists rl' t,
       waitForAvailability 2 now rl = Some (rl', t) /\
       (t = now \/
        t = lastReset (fst (attempt now rl)) + resetInterval)) /\
  (forall w : Z, countInWindow w log <= limitPerMinute) /\
  (forall tm w : Z, In (tm, w) log -> w <= tm < w + resetInterval) /\
  (forall from : Z, countWithin from resetInterval log <= 2 * limitPerMinute).
Proof.
  intros Hlimit Hmono log.
  pose proof (run_log times (create limitPerMinute created) created) as Hlog.
  cbn [create requests limit lastReset] in Hlog.
  specialize (Hlog ltac:(lia) ltac:(lia) Hmono). cbv zeta in Hlog.
  fold log in Hlog. destruct Hlog as (Hwin & Hcount & Hsep).
  assert (Hwin' : forall tm w, In (tm, w) log -> w <= tm < w + resetInterval)
    by (intros tm w Hin; apply (Hwin tm w Hin)).
  assert (Hcount' : forall w, countInWindow w log <= limitPerMinute).
  { intros w. specialize (Hcount w). destruct (w =? created); lia. }
  repeat apply conj.
  - intros now rl Hover. apply Z.leb_le in Hover. unfold attempt.
    cbn [lastReset requests limit]. rewrite Z.sub_diag, Hover.
    change (resetInterval <=? 0) with false. cbn [lastReset requests limit].
    split; [reflexivity |]. destruct (limit rl <=? 0); reflexivity.
  - intros now rl rl' waitTime E.
    assert (limit rl' <= requests rl' /\
            waitTime = resetInterval - (now - lastReset rl')) as [Hfull ->].
    { revert E. unfold attempt.
      destruct (resetInterval <=? now - lastReset rl); cbn;
        match goal with |- context [?a <=? ?b] => destruct (Z.leb_spec a b) end;
        intros [= <- <-]; cbn; auto; discriminate. }
    split; [assumption |]. split; [ring |].
    intros fuel. cbn [waitForAvailability]. now rewrite E.
  - intros now rl rl' E. split.
    + revert E. unfold attempt.
      destruct (resetInterval <=? now - lastReset rl); cbn;
        match goal with |- context [?a <=? ?b] => destruct (Z.leb_spec a b) end;
        intros [= <-]; cbn; lia.
    + cbn [waitForAvailability]. now rewrite E.
  - intros now rl Hpos. now apply waitForAvailability_returns.
  - exact Hcount'.
  - exact Hwin'.
  - intros from. now apply window_length_interval_bound.
Qed.

Lemma C3_witness :
  let log := snd (run [0; 1; 2; 59999; 60000; 60001; 60002]
                      (create 2 0)) in
  (forall (now : Z) (rl : state),
     resetInterval <= now - lastReset rl ->
     attempt now rl =
       attempt now {| requests := 0; lastReset := now; limit := limit rl |} /\
     lastReset (fst (attempt now rl)) = now) /\
  (forall (now : Z) (rl rl' : state) (waitTime : Z),
     attempt now rl = (rl', Sleep waitTime) ->
     limit rl' <= requests rl' /\
     now + waitTime = lastReset rl' + resetInterval /\
     forall fuel : nat,
       waitForAvailability (S fuel) now rl =
       waitForAvailability fuel (now + waitTime) rl') /\
  (forall (now : Z) (rl rl' : state),
     attempt now rl = (rl', Granted) ->
     requests rl' <= limit rl' /\
     waitForAvailability 1 now rl = Some (rl', now)) /\
  (forall (now : Z) (rl : state),
     0 < limit rl ->
     exists rl' t,
       waitForAvailability 2 now rl = Some (rl', t) /\
       (t = now \/
        t = lastReset (fst (attempt now rl)) + resetInterval)) /\
  (forall w : Z, countInWindow w log <= 2) /\
  (forall tm w : Z, In (tm, w) log -> w <= tm < w + resetInterval) /\
  (forall from : Z, countWithin from resetInterval log <= 2 * 2).
Proof.
  apply (C3_fixed_window_rate_limit 2 0
           [0; 1; 2; 59999; 60000; 60001; 60002]).
  - discriminate.
  - reflexivity.
Defined.

(** The bound is reached: with a limit of two, two requests at the end of
    one window and two at the start of the next are counted within one
    window length. *)
Example rate_limit_boundary_burst :
  snd (run [59998; 59999; 60000; 60001; 60002] (create 2 0)) =
    [(59998, 0); (59999, 0); (60000, 60000); (60001, 60000)] /\
  countWithin 59998 resetInterval
    (snd (run [59998; 59999; 60000; 60001; 60002] (create 2 0))) = 4.
Proof. split; reflexivity. Qed.

End RateLimiterFacts.

(** ** The request queue *)

Section RequestQueueFacts.
Import RequestQueue.
Context {T : Type}.

Lemma queueInvariant_init (rl : RateLimiter.state) :
  queueInvariant (T := T) [] (init rl).
Proof. unfold queueInvariant. cbn. auto. Qed.

Lemma queueInvariant_queueRequest (enq : list T) (st : State T)
  (now : Z) (request : T) :
  queueInvariant enq st ->
  queueInvariant (enq ++ [request]) (queueRequest now request st).
Proof.
  intros (Hd & Hfifo & Hgr). unfold queueRequest, processQueue.
  cbn [isProcessingQueue requestQueue].
  destruct Hd as [[Hd Hflag] | (d & Hd & Hflag)]; rewrite Hflag; cbn [orb].
  - rewrite Hd in *. cbn [pending grantedPending flat_map app] in *.
    rewrite length_app. cbn [List.length].
    replace (List.length (requestQueue st) + 1 =? 0)%nat with false
      by (symmetry; apply Nat.eqb_neq; lia).
    unfold loopHead. cbn [requestQueue rateLimiter].
    destruct (requestQueue st ++ [request]) as [| r0 rest] eqn:E.
    { destruct (requestQueue st); discriminate. }
    destruct (RateLimiter.attempt now (rateLimiter st)) as [rl a].
    unfold queueInvariant, setDrains. cbn.
    split; [right; eauto |]. split.
    + rewrite Hfifo, <- app_assoc, E. reflexivity.
    + rewrite Hgr, !app_nil_r. reflexivity.
  - unfold queueInvariant. cbn. rewrite Hd in *. split; [right; eauto |].
    split; [| assumption].
    rewrite Hfifo, <- !app_assoc. reflexivity.
Qed.

Lemma queueInvariant_resume (enq : list T) (st : State T)
  (now : Z) (i : nat) (outcome : Settled) :
  queueInvariant enq st -> queueInvariant enq (resume now i outcome st).
Proof.
  intros (Hd & Hfifo & Hgr). unfold resume.
  destruct Hd as [[Hd Hflag] | (d & Hd & Hflag)];
    rewrite Hd in Hfifo, Hgr |- *.
  - rewrite lookup_nil. unfold queueInvariant. rewrite Hd. auto.
  - destruct i as [| i].
    2:{ change ([d] !! S i) with (@nil (Drain T) !! i). rewrite lookup_nil.
        unfold queueInvariant. rewrite Hd. eauto 6. }
    change ([d] !! 0%nat) with (Some d).
    destruct d as [request [| waitTime] | request]; cbn in Hfifo, Hgr.
    + unfold queueInvariant. cbn. split; [right; eauto |].
      rewrite Hfifo, Hgr, <- !app_assoc. auto.
    + destruct (RateLimiter.attempt now (rateLimiter st)) as [rl a].
      unfold queueInvariant. cbn. split; [right; eauto |].
      split; [assumption |]. rewrite Hgr, !app_nil_r.
      destruct a; cbn; [reflexivity | now rewrite app_nil_r].
    + unfold loopHead. cbn [requestQueue rateLimiter].
      destruct (requestQueue st) as [| next rest] eqn:E.
      * unfold queueInvariant, setDrains. cbn.
        split; [left; auto |]. rewrite app_nil_r in *. auto.
      * destruct (RateLimiter.attempt now (rateLimiter st)) as [rl a].
        unfold queueInvariant, setDrains. cbn.
        split; [right; eauto |]. rewrite app_nil_r in Hgr.
        split; [assumption |]. rewrite Hgr.
        destruct a; cbn; [reflexivity | now rewrite app_nil_r].
Qed.

Lemma queueInvariant_run (events : list (Event T)) :
  forall (enq : list T) (st : State T),
    queueInvariant enq st ->
    queueInvariant (enq ++ enqueued events) (run events st).
Proof.
  induction events as [| ev events IH]; intros enq st Hinv.
  - cbn. now rewrite app_nil_r.
  - cbn [run fold_left enqueued flat_map].
    rewrite app_assoc. apply IH.
    destruct ev as [now request | now i outcome]; cbn [step].
    + now apply queueInvariant_queueRequest.
    + rewrite app_nil_r. now apply queueInvariant_resume.
Qed.

(** *** Draining past rejections *)

Lemma attempt_granted (now : Z) (rl : RateLimiter.state) :
  0 <= RateLimiter.requests rl < RateLimiter.limit rl ->
  exists rl', RateLimiter.attempt now rl = (rl', RateLimiter.Granted) /\
              0 <= RateLimiter.requests rl' <= RateLimiter.requests rl + 1 /\
              RateLimiter.limit rl' = RateLimiter.limit rl.
Proof.
  intros H. unfold RateLimiter.attempt.
  destruct (RateLimiter.resetInterval <=? now - RateLimiter.lastReset rl);
    cbn; match goal with |- context [?a <=? ?b] => destruct (Z.leb_spec a b) end;
    try lia; eexists; (split; [reflexivity |]); cbn; lia.
Qed.

Lemma run_app (e1 e2 : list (Event T)) (st : State T) :
  run (e1 ++ e2) st = run e2 (run e1 st).
Proof. unfold run. apply fold_left_app. Qed.

(** While a drain is running, [queueRequest] only appends to the queue. *)
Lemma run_queueRequests (now : Z) (tasks : list T) :
  forall st : State T,
    isProcessingQueue st = true ->
    run (map (QueueRequest now) tasks) st =
    {| requestQueue := requestQueue st ++ tasks;
       isProcessingQueue := true;
       rateLimiter := rateLimiter st;
       drains := drains st;
       granted := granted st;
       invoked := invoked st;
       consoleErrors := consoleErrors st |}.
Proof.
  induction tasks as [| t tasks IH]; intros st Hflag.
  - cbn. rewrite app_nil_r. destruct st; cbn in *. now subst.
  - change (run (map (QueueRequest now) (t :: tasks)) st)
      with (run (map (QueueRequest now) tasks) (queueRequest now t st)).
    unfold queueRequest, processQueue. cbn [isProcessingQueue].
    rewrite Hflag. cbn [orb]. rewrite IH by reflexivity. cbn.
    now rewrite <- app_assoc.
Qed.

(** The three moves of the one drain. *)
Lemma resume_invokes (now : Z) (outcome : Settled) (st : State T) (r : T) :
  drains st = [AwaitLimiter r RateLimiter.Granted] ->
  resume now 0 outcome st =
  {| requestQueue := requestQueue st;
     isProcessingQueue := isProcessingQueue st;
     rateLimiter := rateLimiter st;
     drains := [AwaitRequest r];
     granted := granted st;
     invoked := invoked st ++ [r];
     consoleErrors := consoleErrors st |}.
Proof. intros Hd. unfold resume. rewrite Hd. reflexivity. Qed.

Lemma resume_settles_last (now : Z) (outcome : Settled) (st : State T)
  (r : T) :
  drains st = [AwaitRequest r] -> requestQueue st = [] ->
  resume now 0 outcome st =
  {| requestQueue := [];
     isProcessingQueue := false;
     rateLimiter := rateLimiter st;
     drains := [];
     granted := granted st;
     invoked := invoked st;
     consoleErrors := consoleErrors st ++ errorMessages [outcome] |}.
Proof.
  intros Hd Hq. unfold resume, loopHead. rewrite Hd.
  change ([?d] !! 0%nat) with (Some d). cbv iota beta.
  cbn [requestQueue]. rewrite Hq. unfold setDrains. cbn.
  destruct outcome; cbn; now rewrite ?app_nil_r.
Qed.

Lemma resume_settles_next (now : Z) (outcome : Settled) (st : State T)
  (r next : T) (rest : list T) :
  drains st = [AwaitRequest r] -> requestQueue st = next :: rest ->
  resume now 0 outcome st =
  {| requestQueue := rest;
     isProcessingQueue := isProcessingQueue st;
     rateLimiter := fst (RateLimiter.attempt now (rateLimiter st));
     drains :=
       [AwaitLimiter next (snd (RateLimiter.attempt now (rateLimiter st)))];
     granted :=
       granted st ++
       match snd (RateLimiter.attempt now (rateLimiter st)) with
       | RateLimiter.Granted => [next]
       | RateLimiter.Sleep _ => []
       end;
     invoked := invoked st;
     consoleErrors := consoleErrors st ++ errorMessages [outcome] |}.
Proof.
  intros Hd Hq. unfold resume, loopHead. rewrite Hd.
  change ([?d] !! 0%nat) with (Some d). cbv iota beta.
  cbn [requestQueue rateLimiter]. rewrite Hq.
  destruct (RateLimiter.attempt now (rateLimiter st)) as [rl a].
  unfold setDrains. cbn.
  destruct outcome; cbn; now rewrite ?app_nil_r.
Qed.

(** A drain that holds a granted request, with room in the limiter for the
    requests that wait, invokes them all in order and ends, whatever way
    each request settles. *)
Lemma drain_to_the_end (now : Z) (q : list T) :
  forall (st : State T) (r : T) (outcomes : list Settled),
    drains st = [AwaitLimiter r RateLimiter.Granted] ->
    requestQueue st = q ->
    List.length outcomes = S (List.length q) ->
    0 <= RateLimiter.requests (rateLimiter st) ->
    RateLimiter.requests (rateLimiter st) + Z.of_nat (List.length q) <=
      RateLimiter.limit (rateLimiter st) ->
    let st' := run (settleAll now outcomes) st in
    invoked st' = invoked st ++ r :: q /\
    drains st' = [] /\ isProcessingQueue st' = false /\
    requestQueue st' = [] /\
    consoleErrors st' = consoleErrors st ++ errorMessages outcomes.
Proof.
  induction q as [| next q IH]; intros st r outcomes Hd Hq Hlen Hreq Hroom;
    destruct outcomes as [| outcome outcomes]; try discriminate.
  - destruct outcomes; [| discriminate].
    cbn [settleAll flat_map app run fold_left step].
    rewrite (resume_invokes now Fulfilled st r Hd).
    erewrite resume_settles_last by (cbn; eauto).
    cbn. rewrite app_nil_r. auto.
  - change (settleAll now (outcome :: outcomes))
      with (Resume now 0 Fulfilled :: Resume now 0 outcome ::
            settleAll (T := T) now outcomes).
    cbn [run fold_left step]. fold (run (settleAll (T := T) now outcomes)).
    rewrite (resume_invokes now Fulfilled st r Hd).
    erewrite resume_settles_next by (cbn; eauto).
    cbn [rateLimiter isProcessingQueue granted invoked consoleErrors].
    cbn [List.length] in Hroom, Hlen.
    destruct (attempt_granted now (rateLimiter st))
      as (rl' & E & Hreq' & Hlim'); [lia |].
    rewrite E. cbn [fst snd].
    match goal with
    | |- context [fold_left step _ ?s] => specialize (IH s next outcomes)
    end.
    cbn [drains requestQueue rateLimiter invoked consoleErrors] in IH.
    specialize (IH eq_refl eq_refl ltac:(lia) ltac:(lia) ltac:(lia)).
    cbv zeta in IH. unfold run in IH.
    destruct IH as (Hinv & Hdr & Hfl & Hqu & Herr).
    cbv zeta. rewrite Hinv, Hdr, Hfl, Hqu, Herr.
    cbn [errorMessages flat_map]. rewrite app_nil_r, <- !app_assoc.
    repeat split; reflexivity.
Qed.

Lemma enqueue_then_drain (now : Z) (tasks : list T)
  (outcomes : list Settled) (rl : RateLimiter.state) :
  List.length outcomes = List.length tasks ->
  0 <= RateLimiter.requests rl ->
  RateLimiter.requests rl + Z.of_nat (List.length tasks) <=
    RateLimiter.limit rl ->
  let final :=
    run (map (QueueRequest now) tasks ++ settleAll now outcomes) (init rl) in
  invoked final = tasks /\ drains final = [] /\
  isProcessingQueue final = false /\ requestQueue final = [] /\
  consoleErrors final = errorMessages outcomes.
Proof.
  intros Hlen Hreq Hroom. destruct tasks as [| t tasks].
  - destruct outcomes; [| discriminate]. cbn. auto.
  - cbv zeta. rewrite run_app.
    change (run (map (QueueRequest now) (t :: tasks)) (init rl))
      with (run (map (QueueRequest now) tasks) (queueRequest now t (init rl))).
    cbn [List.length] in Hroom, Hlen.
    destruct (attempt_granted now rl) as (rl' & E & Hreq' & Hlim'); [lia |].
    unfold queueRequest, processQueue, loopHead, init, setDrains.
    cbn [isProcessingQueue requestQueue rateLimiter drains granted invoked
         consoleErrors app orb List.length Nat.eqb].
    rewrite E.
    cbn [isProcessingQueue requestQueue rateLimiter drains granted invoked
         consoleErrors app].
    rewrite run_queueRequests by reflexivity.
    cbn [isProcessingQueue requestQueue rateLimiter drains granted invoked
         consoleErrors app].
    match goal with
    | |- context [run _ ?s] =>
        pose proof (drain_to_the_end now tasks s t outcomes) as H
    end.
    cbn [drains requestQueue rateLimiter invoked consoleErrors app] in H.
    apply H; try reflexivity; lia.
Qed.

(** C4: the request queue.  After any sequence of [queueRequest] calls and
    resumptions of the drain loop: the requests invoked so far, the one the
    drain holds and the ones waiting are, in this order, the requests in the
    order they were enqueued (requests are invoked in FIFO order); every
    invoked request was granted by the rate limiter first; there is at most
    one drain loop, the flag being set exactly while there is one, and a
    [queueRequest] during a drain only appends to the queue.  A request that
    rejects is caught and logged, and the loop goes on exactly as after a
    request that is fulfilled, with the next request if there is one; so a
    queue of requests, the limiter having room for them, is invoked to the
    end in order however each of them settles. *)
Theorem C4_queue_fifo_single_drain
  (rl : RateLimiter.state) (events : list (Event T)) :
  let st := run events (init rl) in
  enqueued events = invoked st ++ pending (drains st) ++ requestQueue st /\
  granted st = invoked st ++ grantedPending (drains st) /\
  (List.length (drains st) <= 1)%nat /\
  (isProcessingQueue st = true <-> List.length (drains st) = 1%nat) /\
  (forall (now : Z) (request : T),
     isProcessingQueue st = true ->
     drains (queueRequest now request st) = drains st /\
     requestQueue (queueRequest now request st) =
       requestQueue st ++ [request] /\
     invoked (queueRequest now request st) = invoked st) /\
  (forall (now : Z) (request : T) (e : string),
     drains st = [AwaitRequest request] ->
     let fulfilled := resume now 0 Fulfilled st in
     let rejected := resume now 0 (Rejected e) st in
     consoleErrors rejected =
       consoleErrors st ++
       [String.append "Error processing queued request: " e] /\
     consoleErrors fulfilled = consoleErrors st /\
     requestQueue rejected = requestQueue fulfilled /\
     drains rejected = drains fulfilled /\
     invoked rejected = invoked fulfilled /\
     isProcessingQueue rejected = isProcessingQueue fulfilled /\
     match requestQueue st with
     | next :: rest =>
         requestQueue rejected = rest /\
         exists a, drains rejected = [AwaitLimiter next a]
     | [] => drains rejected = [] /\ isProcessingQueue rejected = false
     end) /\
  (forall (now : Z) (tasks : list T) (outcomes : list Settled)
          (rl0 : RateLimiter.state),
     List.length outcomes = List.length tasks ->
     0 <= RateLimiter.requests rl0 ->
     RateLimiter.requests rl0 + Z.of_nat (List.length tasks) <=
       RateLimiter.limit rl0 ->
     let final :=
       run (map (QueueRequest now) tasks ++ settleAll now outcomes)
         (init rl0) in
     invoked final = tasks /\ drains final = [] /\
     isProcessingQueue final = false /\ requestQueue final = [] /\
     consoleErrors final = errorMessages outcomes).
Proof.
  intros st.
  pose proof (queueInvariant_run events [] (init rl)
                (queueInvariant_init rl)) as (Hd & Hfifo & Hgr).
  fold st in Hd, Hfifo, Hgr. cbn [app] in Hfifo.
  repeat apply conj.
  - exact Hfifo.
  - exact Hgr.
  - destruct Hd as [[-> _] | (d & -> & _)]; cbn; lia.
  - destruct Hd as [[-> ->] | (d & -> & ->)]; cbn; [discriminate | reflexivity].
  - destruct Hd as [[-> ->] | (d & -> & ->)]; cbn; [discriminate | reflexivity].
  - intros now request Hflag. unfold queueRequest, processQueue.
    cbn [isProcessingQueue]. rewrite Hflag. cbn. auto.
  - intros now request e Hdr fulfilled rejected. subst fulfilled rejected.
    destruct (requestQueue st) as [| next rest] eqn:Hq.
    + rewrite !(resume_settles_last now _ st request Hdr Hq). cbn.
      rewrite app_nil_r. repeat split; reflexivity.
    + rewrite !(resume_settles_next now _ st request next rest Hdr Hq). cbn.
      rewrite app_nil_r. repeat split; eauto.
  - intros now tasks outcomes rl0. apply enqueue_then_drain.
Qed.

End RequestQueueFacts.

(** Three requests of which the first and the last reject: all three are
    invoked, in the order they were enqueued. *)
Example queue_drains_past_rejections :
  let final :=
    RequestQueue.run
      (map (RequestQueue.QueueRequest 5) ["a"; "b"; "c"] ++
       RequestQueue.settleAll 5
         [RequestQueue.Rejected "boom"; RequestQueue.Fulfilled;
          RequestQueue.Rejected "bang"])
      (RequestQueue.init (RateLimiter.create 300 0)) in
  RequestQueue.invoked final = ["a"; "b"; "c"] /\
  RequestQueue.consoleErrors final =
    ["Error processing queued request: boom";
     "Error processing queued request: bang"] /\
  RequestQueue.isProcessingQueue final = false.
Proof. repeat split; reflexivity. Qed.

(** ** The service: fetches and subscriptions *)

Section ServiceFacts.
Import Dex Service.

(** *** Lower-casing, the ordered map and the sort *)

Lemma lower_ascii_idempotent (c : ascii) :
  Js.lower_ascii (Js.lower_ascii c) = Js.lower_ascii c.
Proof.
  destruct c as [[] [] [] [] [] [] [] []]; vm_compute; reflexivity.
Qed.

Lemma toLowerCase_idempotent (s : string) :
  Js.toLowerCase (Js.toLowerCase s) = Js.toLowerCase s.
Proof.
  induction s as [| c s IH]; cbn; [reflexivity |].
  now rewrite lower_ascii_idempotent, IH.
Qed.

Lemma map_get_set_eq {V : Type} (k : string) (v : V) (m : list (string * V)) :
  Js.map_get k (Js.map_set k v m) = Some v.
Proof.
  induction m as [| [k' v'] m IH]; cbn.
  - now rewrite String.eqb_refl.
  - destruct (String.eqb k k') eqn:E; cbn; rewrite ?String.eqb_refl, ?E; auto.
Qed.

Lemma map_get_set_ne {V : Type} (k k' : string) (v : V)
  (m : list (string * V)) :
  k <> k' -> Js.map_get k' (Js.map_set k v m) = Js.map_get k' m.
Proof.
  intros Hne. induction m as [| [k0 v0] m IH]; cbn.
  - apply String.eqb_neq in Hne. rewrite String.eqb_sym in Hne.
    now rewrite Hne.
  - destruct (String.eqb k k0) eqn:E; cbn.
    + apply String.eqb_eq in E. subst k0.
      apply String.eqb_neq in Hne. rewrite String.eqb_sym in Hne.
      now rewrite Hne.
    + now rewrite IH.
Qed.

Lemma map_get_In {V : Type} (k : string) (v : V) (m : list (string * V)) :
  Js.map_get k m = Some v -> In (k, v) m.
Proof.
  induction m as [| [k' v'] m IH]; cbn; [discriminate |].
  destruct (String.eqb k k') eqn:E.
  - apply String.eqb_eq in E. intros [= ->]. left. congruence.
  - intros H. right. now apply IH.
Qed.

Lemma map_get_None {V : Type} (k : string) (m : list (string * V)) :
  Js.map_get k m = None <-> ~ In k (map fst m).
Proof.
  induction m as [| [k' v'] m IH]; cbn; [tauto |].
  destruct (String.eqb k k') eqn:E.
  - apply String.eqb_eq in E. split; [discriminate | intros H; exfalso; auto].
  - apply String.eqb_neq in E. rewrite IH. split; [| tauto].
    intros H [H' | H']; [congruence | contradiction].
Qed.

Lemma map_set_keys {V : Type} (k : string) (v : V) (m : list (string * V)) :
  List.NoDup (map fst m) -> List.NoDup (map fst (Js.map_set k v m)) /\
  (forall k', In k' (map fst (Js.map_set k v m)) <->
              k' = k \/ In k' (map fst m)).
Proof.
  induction m as [| [k0 v0] m IH]; cbn; intros Hnd.
  - split; [repeat constructor; auto | intros k'; intuition].
  - apply NoDup_cons_iff in Hnd as [Hk0 Hnd].
    destruct (IH Hnd) as [IH1 IH2].
    destruct (String.eqb k k0) eqn:E; cbn.
    + apply String.eqb_eq in E. subst k0. split.
      * now constructor.
      * intros k'. intuition.
    + apply String.eqb_neq in E. split.
      * constructor; [| assumption]. rewrite IH2. intros [? | ?]; auto.
      * intros k'. rewrite IH2. intuition.
Qed.

Section SortFacts.
Context {A : Type} (compareFn : A -> A -> float).

Lemma insert_In (x q : A) (sorted : list A) :
  In q (Js.insert compareFn x sorted) <-> q = x \/ In q sorted.
Proof.
  induction sorted as [| y rest IH]; cbn; [intuition |].
  match goal with |- context [if ?b then _ else _] => destruct b end;
    cbn; rewrite ?IH; intuition.
Qed.

Lemma sort_In (q : A) (l : list A) : In q (Js.sort compareFn l) <-> In q l.
Proof.
  induction l as [| x l IH]; cbn; [tauto |].
  rewrite insert_In, IH. intuition.
Qed.

Lemma insert_head (x : A) (sorted : list A) :
  hd_error (Js.insert compareFn x sorted) =
  match sorted with
  | [] => Some x
  | y :: _ =>
      if Js.gt (Js.sortCompare compareFn x y) 0%float then Some y else Some x
  end.
Proof.
  destruct sorted as [| y rest]; cbn [Js.insert]; [reflexivity |].
  now destruct (Js.gt _ _).
Qed.
End SortFacts.

Lemma liquidityUsd_not_nan (p : DexScreenerPair) :
  PrimFloat.is_nan (liquidityUsd p) = false.
Proof.
  unfold liquidityUsd. destruct (liquidity p) as [[[x |]] |]; cbn [usd];
    solve [apply or_zero_not_nan | reflexivity].
Qed.

(** The answer of the comparator is positive exactly when the first pair
    has the lower liquidity. *)
Lemma byLiquidityDescending_gt (x y : DexScreenerPair) :
  Js.gt (Js.sortCompare byLiquidityDescending x y) 0%float =
  PrimFloat.ltb (liquidityUsd x) (liquidityUsd y).
Proof.
  unfold Js.gt, Js.sortCompare, byLiquidityDescending.
  destruct (PrimFloat.is_nan _) eqn:E.
  - rewrite <- (ltb_zero_sub (liquidityUsd y) (liquidityUsd x)).
    now rewrite (float_ltb_nan_r 0%float _ E).
  - apply ltb_zero_sub.
Qed.

(** The first pair of the sorted array: no pair has a higher liquidity. *)
Lemma sort_head_highest (l : list DexScreenerPair) :
  l <> [] ->
  exists top, hd_error (Js.sort byLiquidityDescending l) = Some top /\
    In top l /\
    forall q, In q l ->
      PrimFloat.ltb (liquidityUsd top) (liquidityUsd q) = false.
Proof.
  induction l as [| x l IH]; [congruence |]. intros _.
  cbn [Js.sort fold_right]. fold (Js.sort byLiquidityDescending l).
  rewrite insert_head.
  destruct l as [| x' l'].
  - cbn. exists x. split; [reflexivity |]. split; [now left |].
    intros q [<- | []]. apply float_ltb_irrefl.
  - destruct IH as (top & Hhd & Hin & Hmax); [discriminate |].
    destruct (Js.sort byLiquidityDescending (x' :: l')) as [| y rest] eqn:E;
      [discriminate |].
    cbn in Hhd. injection Hhd as ->.
    rewrite byLiquidityDescending_gt.
    destruct (PrimFloat.ltb (liquidityUsd x) (liquidityUsd top)) eqn:Hlt.
    + exists top. split; [reflexivity |]. split; [now right |].
      intros q [<- | Hq]; [| now apply Hmax].
      destruct (PrimFloat.ltb (liquidityUsd top) (liquidityUsd x)) eqn:Hgt;
        [| reflexivity].
      rewrite <- (float_ltb_irrefl (liquidityUsd x)). symmetry.
      now apply float_ltb_trans with (liquidityUsd top).
    + exists x. split; [reflexivity |]. split; [now left |].
      intros q [<- | Hq]; [apply float_ltb_irrefl |].
      apply float_not_ltb_trans with (liquidityUsd top);
        auto using liquidityUsd_not_nan.
Qed.

(** *** The batch fetch *)

Lemma bestSoFar_keepBest (seen : list DexScreenerPair)
  (m : list (string * DexScreenerPair)) (x : DexScreenerPair) :
  bestSoFar seen m -> bestSoFar (seen ++ [x]) (keepBest m x).
Proof.
  intros (Hnd & Hbest & Hall). unfold keepBest, Js.map_has.
  destruct (Js.map_get (baseAddress x) m) as [kept |] eqn:Hget; cbn [negb orb].
  - destruct (Js.gt (liquidityUsd x) (liquidityUsd kept)) eqn:Hgt.
    + (* the new pair replaces the kept one *)
      destruct (Hbest _ _ Hget) as (_ & _ & Hkept).
      split; [apply map_set_keys; assumption |]. split.
      * intros a p. destruct (string_dec (baseAddress x) a) as [<- | Hne].
        -- rewrite map_get_set_eq. intros [= <-].
           split; [apply in_or_app; right; now left |].
           split; [reflexivity |].
           intros q Hq Haddr. apply in_app_or in Hq as [Hq | [<- | []]];
             [| apply float_ltb_irrefl].
           destruct (PrimFloat.ltb (liquidityUsd x) (liquidityUsd q)) eqn:E;
             [| reflexivity].
           rewrite <- (Hkept q Hq Haddr). symmetry.
           now apply float_ltb_trans with (liquidityUsd x).
        -- rewrite map_get_set_ne by assumption. intros Hp.
           destruct (Hbest _ _ Hp) as (Hin & Haddr & Hmax).
           split; [apply in_or_app; now left |]. split; [assumption |].
           intros q Hq Hqa. apply in_app_or in Hq as [Hq | [<- | []]];
             [now apply Hmax | contradiction].
      * intros q Hq.
        destruct (string_dec (baseAddress x) (baseAddress q)) as [<- | Hne].
        -- now rewrite map_get_set_eq.
        -- rewrite map_get_set_ne by assumption.
           apply in_app_or in Hq as [Hq | [<- | []]];
             [now apply Hall | contradiction].
    + (* the kept pair stays *)
      split; [assumption |]. split.
      * intros a p Hp. destruct (Hbest _ _ Hp) as (Hin & Haddr & Hmax).
        split; [apply in_or_app; now left |]. split; [assumption |].
        intros q Hq Hqa. apply in_app_or in Hq as [Hq | [<- | []]];
          [now apply Hmax |].
        assert (p = kept) as -> by congruence. exact Hgt.
      * intros q Hq. apply in_app_or in Hq as [Hq | [<- | []]];
          [now apply Hall | congruence].
  - (* the first pair of its address *)
    split; [apply map_set_keys; assumption |]. split.
    + intros a p. destruct (string_dec (baseAddress x) a) as [<- | Hne].
      * rewrite map_get_set_eq. intros [= <-].
        split; [apply in_or_app; right; now left |].
        split; [reflexivity |].
        intros q Hq Haddr. apply in_app_or in Hq as [Hq | [<- | []]];
          [| apply float_ltb_irrefl].
        exfalso. apply (Hall q Hq). now rewrite Haddr.
      * rewrite map_get_set_ne by assumption. intros Hp.
        destruct (Hbest _ _ Hp) as (Hin & Haddr & Hmax).
        split; [apply in_or_app; now left |]. split; [assumption |].
        intros q Hq Hqa. apply in_app_or in Hq as [Hq | [<- | []]];
          [now apply Hmax | contradiction].
    + intros q Hq.
      destruct (string_dec (baseAddress x) (baseAddress q)) as [<- | Hne].
      * now rewrite map_get_set_eq.
      * rewrite map_get_set_ne by assumption.
        apply in_app_or in Hq as [Hq | [<- | []]];
          [now apply Hall | contradiction].
Qed.

Lemma bestSoFar_fold (pairs : list DexScreenerPair) :
  forall (seen : list DexScreenerPair) (m : list (string * DexScreenerPair)),
    bestSoFar seen m ->
    bestSoFar (seen ++ pairs) (fold_left keepBest pairs m).
Proof.
  induction pairs as [| x pairs IH]; intros seen m H; cbn.
  - now rewrite app_nil_r.
  - replace (seen ++ x :: pairs) with ((seen ++ [x]) ++ pairs)
      by now rewrite <- app_assoc.
    apply IH. now apply bestSoFar_keepBest.
Qed.

Lemma bestSoFar_pairsByAddress (pairs : list DexScreenerPair) :
  bestSoFar pairs (pairsByAddress pairs).
Proof.
  apply (bestSoFar_fold pairs [] []). split; [constructor |].
  split; [discriminate | contradiction].
Qed.

(** The second loop of [fetchBatch], over entries with distinct keys. *)
Lemma fold_cacheAndNotify (now : Z) (m : list (string * DexScreenerPair)) :
  forall st : State,
    List.NoDup (map fst m) ->
    let st' :=
      fold_left (fun st entry => cacheAndNotify (fst entry) (snd entry) now st)
        m st in
    (forall a, tokenData st' !! a =
               match Js.map_get a m with
               | Some p => Some p
               | None => tokenData st !! a
               end) /\
    (forall a, lastUpdateTime st' !! a =
               match Js.map_get a m with
               | Some _ => Some now
               | None => lastUpdateTime st !! a
               end) /\
    subscribers st' = subscribers st /\
    consoleErrors st' = consoleErrors st /\
    queue st' = queue st /\
    delivered st' =
      delivered st ++
      flat_map (fun entry =>
                  notifications (subscribers st) (fst entry) (snd entry)) m.
Proof.
  induction m as [| [k v] m IH]; intros st Hnd.
  - cbn. rewrite app_nil_r. repeat split; reflexivity.
  - apply NoDup_cons_iff in Hnd as [Hk Hnd]. cbn [fold_left fst snd].
    specialize (IH (cacheAndNotify k v now st) Hnd). cbv zeta in IH.
    destruct IH as (Htd & Hlu & Hsub & Herr & Hq & Hdel).
    cbn [cacheAndNotify subscribers tokenData lastUpdateTime delivered
         consoleErrors queue] in Htd, Hlu, Hsub, Herr, Hq, Hdel.
    cbn [map fst] in Hk. apply map_get_None in Hk.
    repeat apply conj; try assumption.
    + intros a. rewrite Htd. cbn [Js.map_get].
      destruct (String.eqb a k) eqn:E.
      * apply String.eqb_eq in E. subst a. rewrite Hk.
        apply lookup_insert_eq.
      * apply String.eqb_neq in E.
        destruct (Js.map_get a m); [reflexivity |].
        now apply lookup_insert_ne.
    + intros a. rewrite Hlu. cbn [Js.map_get].
      destruct (String.eqb a k) eqn:E.
      * apply String.eqb_eq in E. subst a. rewrite Hk.
        apply lookup_insert_eq.
      * apply String.eqb_neq in E.
        destruct (Js.map_get a m); [reflexivity |].
        now apply lookup_insert_ne.
    + rewrite Hdel. cbn [flat_map fst snd]. now rewrite app_assoc.
Qed.

(** C5: the single-token fetch does not select by base token.  The batch
    fetch keeps, for every base token of the response, the pair of that
    token that no pair of the token exceeds in liquidity, caches it under
    the token and calls the subscribers of the token with it, going through
    the tokens kept one after the other.  The
    single-token fetch sorts the whole response and caches, returns and
    hands over its first pair, the one no pair of the response exceeds,
    under the address asked for, whatever the base token of that pair.  On
    a response that holds two pairs of the token asked for, with liquidities
    500 and 50,000, and a pair of another token with 1,000,000, the single
    fetch caches the pair of the other token under the address asked for,
    where the batch fetch caches the pair with 50,000.  On the two pairs
    alone, in either order, both fetches cache the pair with 50,000. *)
Theorem C5_single_fetch_selects_across_base_tokens :
  (forall (addresses : list string) (pairs : list DexScreenerPair) (now : Z)
          (st : State) (p : DexScreenerPair),
     In p pairs ->
     let st' := fetchBatch addresses (Json (Some pairs)) now st in
     exists best : DexScreenerPair,
       tokenData st' !! baseAddress p = Some best /\
       In best pairs /\ baseAddress best = baseAddress p /\
       (forall q, In q pairs -> baseAddress q = baseAddress p ->
          PrimFloat.leb (liquidityUsd q) (liquidityUsd best) = true) /\
       Js.map_get (baseAddress p) (pairsByAddress pairs) = Some best /\
       List.NoDup (map fst (pairsByAddress pairs)) /\
       delivered st' =
         delivered st ++
         flat_map (fun entry =>
                     notifications (subscribers st) (fst entry) (snd entry))
           (pairsByAddress pairs)) /\
  (forall (address : string) (first : DexScreenerPair)
          (others : list DexScreenerPair) (now : Z) (st : State),
     let result :=
       fetchTokenData address (Json (Some (first :: others))) now st in
     exists best : DexScreenerPair,
       snd result = Some best /\
       tokenData (fst result) !! Js.toLowerCase address = Some best /\
       In best (first :: others) /\
       (forall q, In q (first :: others) ->
          PrimFloat.leb (liquidityUsd q) (liquidityUsd best) = true) /\
       delivered (fst result) =
         delivered st ++
         notifications (subscribers st) (Js.toLowerCase address) best) /\
  (forall (now : Z) (st : State),
     let response := Json (Some [shallowPair; deepPair; otherPair]) in
     let single := fetchTokenData "Mint1" response now st in
     let batch := fetchBatch ["mint1"] response now st in
     baseAddress shallowPair = "mint1" /\ baseAddress deepPair = "mint1" /\
     baseAddress otherPair = "other9" /\
     snd single = Some otherPair /\
     tokenData (fst single) !! "mint1" = Some otherPair /\
     delivered (fst single) =
       delivered st ++ notifications (subscribers st) "mint1" otherPair /\
     tokenData batch !! "mint1" = Some deepPair /\
     tokenData batch !! "other9" = Some otherPair) /\
  (forall (addresses : list string) (now : Z) (st : State),
     tokenData
       (fetchBatch addresses (Json (Some [shallowPair; deepPair])) now st)
       !! "mint1" = Some deepPair /\
     tokenData
       (fetchBatch addresses (Json (Some [deepPair; shallowPair])) now st)
       !! "mint1" = Some deepPair /\
     tokenData
       (fst (fetchTokenData "Mint1" (Json (Some [shallowPair; deepPair]))
               now st))
       !! "mint1" = Some deepPair /\
     tokenData
       (fst (fetchTokenData "Mint1" (Json (Some [deepPair; shallowPair]))
               now st))
       !! "mint1" = Some deepPair).
Proof.
  split; [| split; [| split]].
  - intros addresses pairs now st p Hp st'. subst st'. cbn [fetchBatch].
    destruct (bestSoFar_pairsByAddress pairs) as (Hnd & Hbest & Hall).
    destruct (fold_cacheAndNotify now (pairsByAddress pairs) st Hnd)
      as (Htd & _ & _ & _ & _ & Hdel).
    destruct (Js.map_get (baseAddress p) (pairsByAddress pairs))
      as [best |] eqn:Hget; [| now destruct (Hall p Hp)].
    destruct (Hbest _ _ Hget) as (Hin & Haddr & Hmax).
    exists best. rewrite Htd, Hget.
    split; [reflexivity |]. split; [assumption |]. split; [assumption |].
    split; [| auto].
    intros q Hq Hqa. apply float_leb_of_not_ltb;
      auto using liquidityUsd_not_nan.
  - intros address first others now st result. subst result.
    destruct (sort_head_highest (first :: others)) as (top & Hhd & Hin & Hmax);
      [discriminate |].
    cbn [fetchTokenData].
    destruct (Js.sort byLiquidityDescending (first :: others))
      as [| top' rest]; [discriminate |].
    cbn in Hhd. injection Hhd as ->.
    exists top. cbn [fst snd cacheAndNotify tokenData delivered].
    split; [reflexivity |]. split; [apply lookup_insert_eq |].
    split; [assumption |]. split; [| reflexivity].
    intros q Hq. apply float_leb_of_not_ltb;
      auto using liquidityUsd_not_nan.
  - intros now st response single batch.
    split; [reflexivity |]. split; [reflexivity |]. split; [reflexivity |].
    split; [reflexivity |]. split; [apply lookup_insert_eq |].
    split; [reflexivity |]. split.
    + subst batch response.
      change (tokenData
                (fetchBatch ["mint1"]
                   (Json (Some [shallowPair; deepPair; otherPair])) now st))
        with (<["other9" := otherPair]>
                (<["mint1" := deepPair]> (tokenData st))).
      rewrite lookup_insert_ne by discriminate. apply lookup_insert_eq.
    + apply lookup_insert_eq.
  - intros addresses now st. repeat split; apply lookup_insert_eq.
Qed.

(** C6: a batch fetch overwrites the snapshot and the last-update time of
    exactly the tokens the response holds a pair for; every other token, those
    of the chunk that the response leaves out among them, keeps its snapshot
    and its last-update time, and nothing is logged as an error.  A response
    without a [pairs] field changes nothing. *)
Theorem C6_batch_updates_exactly_the_present_tokens
  (addresses : list string) (pairs : list DexScreenerPair) (now : Z)
  (st : State) (a : string) :
  let st' := fetchBatch addresses (Json (Some pairs)) now st in
  (if in_dec string_dec a (map baseAddress pairs)
   then (exists p, In p pairs /\ baseAddress p = a /\
                   tokenData st' !! a = Some p) /\
        lastUpdateTime st' !! a = Some now
   else tokenData st' !! a = tokenData st !! a /\
        lastUpdateTime st' !! a = lastUpdateTime st !! a) /\
  consoleErrors st' = consoleErrors st /\
  subscribers st' = subscribers st /\
  fetchBatch addresses (Json None) now st = st.
Proof.
  intros st'. subst st'. cbn [fetchBatch].
  destruct (bestSoFar_pairsByAddress pairs) as (Hnd & Hbest & Hall).
  destruct (fold_cacheAndNotify now (pairsByAddress pairs) st Hnd)
    as (Htd & Hlu & Hsub & Herr & _ & _).
  split; [| auto].
  rewrite Htd, Hlu.
  destruct (in_dec string_dec a (map baseAddress pairs)) as [Hin | Hout].
  - apply in_map_iff in Hin as (p & <- & Hp).
    destruct (Js.map_get (baseAddress p) (pairsByAddress pairs))
      as [best |] eqn:Hget; [| now destruct (Hall p Hp)].
    destruct (Hbest _ _ Hget) as (Hin & Haddr & _). eauto.
  - destruct (Js.map_get a (pairsByAddress pairs)) as [best |] eqn:Hget;
      [| auto].
    destruct (Hbest _ _ Hget) as (Hin & Haddr & _).
    exfalso. apply Hout. apply in_map_iff. eauto.
Qed.

(** A chunk of three tokens and a response that holds pairs for two of
    them: these two are refreshed, the third keeps its snapshot and its
    last-update time of 1000, and no error is logged. *)
Example partial_batch_response :
  let pairOf (addr : string) :=
    mkPair "pair" (mkToken addr "Token" "TKN") "1.5" None in
  let old := pairOf "old" in
  let st :=
    mkState ∅
      (<["aa" := old]> (<["bb" := old]> (<["cc" := old]> ∅)))
      (<["aa" := 1000]> (<["bb" := 1000]> (<["cc" := 1000]> ∅)))
      (RequestQueue.init (RateLimiter.create 300 0)) [] [] in
  let st' :=
    fetchBatch ["aa"; "bb"; "cc"] (Json (Some [pairOf "AA"; pairOf "cc"]))
      4000 st in
  lastUpdateTime st' !! "aa" = Some 4000 /\
  lastUpdateTime st' !! "bb" = Some 1000 /\
  lastUpdateTime st' !! "cc" = Some 4000 /\
  tokenData st' !! "aa" = Some (pairOf "AA") /\
  tokenData st' !! "bb" = Some old /\
  tokenData st' !! "cc" = Some (pairOf "cc") /\
  consoleErrors st' = [].
Proof. vm_compute. repeat split; reflexivity. Qed.

(** *** Subscriptions *)

Lemma set_delete_not_In (c : Js.Callback) (s : list Js.Callback) :
  ~ In c (Js.set_delete c s).
Proof.
  unfold Js.set_delete. intros H. apply filter_In in H as [_ H].
  now rewrite Nat.eqb_refl in H.
Qed.

Lemma set_delete_add (c : Js.Callback) (s : list Js.Callback) :
  Js.set_delete c (Js.set_add c s) = Js.set_delete c s.
Proof.
  unfold Js.set_add. destruct (Js.set_has c s); [reflexivity |].
  unfold Js.set_delete. rewrite List.filter_app. cbn.
  now rewrite Nat.eqb_refl, app_nil_r.
Qed.

Lemma set_add_In (c : Js.Callback) (s : list Js.Callback) :
  In c (Js.set_add c s).
Proof.
  unfold Js.set_add, Js.set_has. destruct (existsb (Nat.eqb c) s) eqn:E.
  - apply existsb_exists in E as (x & Hx & Heq).
    apply Nat.eqb_eq in Heq. now subst.
  - apply in_or_app. right. now left.
Qed.

Lemma alter_absent {V : Type} (f : V -> V) (k : string) (m : gmap string V) :
  m !! k = None -> alter f k m = m.
Proof.
  intros H. apply map_eq. intros j. destruct (decide (k = j)) as [<- | Hne].
  - now rewrite lookup_alter_eq, H.
  - now rewrite lookup_alter_ne.
Qed.

(** What [unsubscribe] leaves, in terms of the subscribers that remain. *)
Lemma unsubscribe_spec (address : string) (callback : Js.Callback)
  (st : State) (s : list Js.Callback) :
  subscribers st !! Js.toLowerCase address = Some s ->
  let a := Js.toLowerCase address in
  let st' := unsubscribe address callback st in
  match Js.set_delete callback s with
  | [] =>
      subscribers st' !! a = None /\ tokenData st' !! a = None /\
      lastUpdateTime st' !! a = None
  | remaining =>
      subscribers st' !! a = Some remaining /\
      tokenData st' = tokenData st /\ lastUpdateTime st' = lastUpdateTime st
  end.
Proof.
  intros Hs a st'. subst a st'. unfold unsubscribe.
  rewrite lookup_alter_eq, Hs. cbn [fmap option_fmap option_map].
  destruct (Js.set_delete callback s) as [| c rest] eqn:E; cbn.
  - rewrite !lookup_delete_eq. auto.
  - rewrite lookup_alter_eq, Hs. cbn. rewrite E. auto.
Qed.

(** C7: [unsubscribe] removes the handle from the token's subscriber set.
    When no handle remains, the entry of the token is deleted from the
    subscriber map, from the snapshot cache and from the last-update times;
    when some remain, they stay subscribed and the cache is as before; other
    tokens are not touched.  So a [subscribe] followed at once by the
    [unsubscribe] it returned leaves the token, when no other handle is
    subscribed to it, without subscriber set, cached snapshot and
    last-update time (and, when others are, with what they had). *)
Theorem C7_unsubscribe_evicts_token
  (address : string) (callback : Js.Callback) (st : State) :
  let a := Js.toLowerCase address in
  let remaining :=
    match subscribers st !! a with
    | Some s => Js.set_delete callback s
    | None => []
    end in
  (let st' := unsubscribe address callback st in
   ~ In callback remaining /\
   match subscribers st !! a, remaining with
   | None, _ =>
       subscribers st' = subscribers st /\ tokenData st' = tokenData st /\
       lastUpdateTime st' = lastUpdateTime st
   | Some _, [] =>
       subscribers st' !! a = None /\ tokenData st' !! a = None /\
       lastUpdateTime st' !! a = None
   | Some _, _ :: _ =>
       subscribers st' !! a = Some remaining /\
       tokenData st' = tokenData st /\ lastUpdateTime st' = lastUpdateTime st
   end /\
   (forall b : string, b <> a ->
      subscribers st' !! b = subscribers st !! b /\
      tokenData st' !! b = tokenData st !! b /\
      lastUpdateTime st' !! b = lastUpdateTime st !! b)) /\
  (forall now : Z,
     let subscribed := subscribe now address callback st in
     let st1 := fst subscribed in
     let st2 := snd subscribed st1 in
     (exists s, subscribers st1 !! a = Some s /\ In callback s) /\
     tokenData st1 = tokenData st /\ lastUpdateTime st1 = lastUpdateTime st /\
     match remaining with
     | [] =>
         subscribers st2 !! a = None /\ tokenData st2 !! a = None /\
         lastUpdateTime st2 !! a = None
     | _ :: _ =>
         subscribers st2 !! a = Some remaining /\
         tokenData st2 = tokenData st /\ lastUpdateTime st2 = lastUpdateTime st
     end).
Proof.
  intros a remaining. split.
  - intros st'. split; [| split].
    + subst remaining. destruct (subscribers st !! a);
        [apply set_delete_not_In | intros []].
    + destruct (subscribers st !! a) as [s |] eqn:Hs.
      * pose proof (unsubscribe_spec address callback st s Hs) as H.
        cbv zeta in H. subst remaining. fold a st' in H.
        destruct (Js.set_delete callback s); exact H.
      * subst st'. unfold unsubscribe. fold a.
        rewrite (alter_absent _ _ _ Hs), Hs. cbn. auto.
    + intros b Hb. subst st'. unfold unsubscribe. fold a.
      destruct (alter (Js.set_delete callback) a (subscribers st) !! a)
        as [[| c rest] |]; cbn;
        rewrite ?lookup_delete_ne, ?lookup_alter_ne by congruence; auto.
  - intros now subscribed st1 st2. subst subscribed st1 st2.
    unfold subscribe. fold a. cbn [fst snd].
    set (subs1 := match subscribers st !! a with
                  | Some _ => subscribers st
                  | None => <[a := []]> (subscribers st)
                  end).
    set (s0 := match subscribers st !! a with Some s => s | None => [] end).
    assert (Hsubs1 : subs1 !! a = Some s0).
    { subst subs1 s0. destruct (subscribers st !! a) eqn:E;
        [assumption | apply lookup_insert_eq]. }
    assert (Hrem : remaining = Js.set_delete callback s0).
    { subst remaining s0. now destruct (subscribers st !! a). }
    set (st1 := queueRequest now (InitialFetch a callback)
                  (setSubscribers (alter (Js.set_add callback) a subs1) st)).
    assert (Hst1 : subscribers st1 = alter (Js.set_add callback) a subs1 /\
                   tokenData st1 = tokenData st /\
                   lastUpdateTime st1 = lastUpdateTime st)
      by (repeat split; reflexivity).
    destruct Hst1 as (Hsub1 & Htd1 & Hlu1).
    assert (Hlook : subscribers st1 !! a = Some (Js.set_add callback s0))
      by now rewrite Hsub1, lookup_alter_eq, Hsubs1.
    split; [| split; [assumption | split; [assumption |]]].
    + exists (Js.set_add callback s0). split; [assumption | apply set_add_In].
    + assert (Ha : Js.toLowerCase a = a) by apply toLowerCase_idempotent.
      pose proof (unsubscribe_spec a callback st1 (Js.set_add callback s0))
        as H.
      cbv zeta in H. rewrite !Ha in H. specialize (H Hlook).
      rewrite set_delete_add, <- Hrem, Htd1, Hlu1 in H.
      destruct remaining; exact H.
Qed.

(** A token cached by an earlier direct fetch and not subscribed to: after
    [subscribe] and the [unsubscribe] it returns, nothing of the token is
    left in the three maps; the initial fetch that [subscribe] queued is
    still under way. *)
Example subscribe_then_unsubscribe :
  let st :=
    mkState ∅ (<["mint1" := shallowPair]> ∅) (<["mint1" := 1000]> ∅)
      (RequestQueue.init (RateLimiter.create 300 0)) [] [] in
  let subscribed := subscribe 5 "Mint1" 1%nat st in
  let st2 := snd subscribed (fst subscribed) in
  subscribers (fst subscribed) !! "mint1" = Some [1%nat] /\
  tokenData (fst subscribed) !! "mint1" = Some shallowPair /\
  subscribers st2 !! "mint1" = None /\
  tokenData st2 !! "mint1" = None /\
  lastUpdateTime st2 !! "mint1" = None /\
  RequestQueue.drains (queue st2) =
    [RequestQueue.AwaitLimiter (InitialFetch "mint1" 1%nat)
       RateLimiter.Granted].
Proof. vm_compute. repeat split; reflexivity. Qed.

End ServiceFacts.

(** ** The page around the trade handler ([app/page.tsx]) *)

Section PageFacts.
Import Position Page.

Lemma calculatePositionPnL_marks (l : list Trade) (i s : string)
  (ty : TradeType) (a p v : float) (ts : Z) (m1 m2 m1' m2' : option float)
  (currentPrice : float) :
  calculatePositionPnL (l ++ [mkTrade i s ty a p v ts m1 m2]) currentPrice =
  calculatePositionPnL (l ++ [mkTrade i s ty a p v ts m1' m2']) currentPrice.
Proof. unfold calculatePositionPnL. now rewrite !replay_snoc. Qed.

(** What one invocation of [handleTrade] does to the state, the error
    message apart: nothing, or the trade is logged, the cash moved and the
    positions of the address updated.  The figures of an updated position
    come from [basis]: from its own trades on a buy, from the trades of the
    position [find] returns on a sell. *)
Lemma handleTrade_cases (parseFloat : string -> float)
  (tokenData : option Dex.DexScreenerPair) (newId : string) (now : Z)
  (tokenAddress : string) (isBuy : bool) (usdAmount : float)
  (st : Position.State) :
  let st' :=
    handleTrade parseFloat tokenData newId now tokenAddress isBuy usdAmount
      st in
  (balance st' = balance st /\ tokens st' = tokens st /\
   trades st' = trades st) \/
  (exists (pair : Dex.DexScreenerPair) (trade : Trade)
          (basis : TokenPosition -> list Trade),
     let currentPrice := parseFloat (Dex.priceUsd pair) in
     tokenData = Some pair /\
     PrimFloat.is_nan currentPrice || Js.le currentPrice 0 = false /\
     trades st' = trade :: trades st /\
     value trade = usdAmount /\
     type trade = (if isBuy then buy else sell) /\
     amount trade = (usdAmount / currentPrice)%float /\
     (if isBuy
      then Js.gt usdAmount (balance st) = false /\
           balance st' = (balance st - usdAmount)%float /\
           basis = tp_trades
      else balance st' = (balance st + usdAmount)%float /\
           exists token,
             find (fun t => String.eqb (tp_address t) tokenAddress)
               (tokens st) = Some token /\
             Js.gt (usdAmount / currentPrice) (tp_holdings token) = false /\
             basis = fun _ => tp_trades token) /\
     tokens st' =
       map (fun t =>
              if String.eqb (tp_address t) tokenAddress then
                let pnlData :=
                  calculatePositionPnL (basis t ++ [trade]) currentPrice in
                {| tp_address := tp_address t;
                   tp_symbol := tp_symbol t;
                   tp_holdings := pnl_totalTokens pnlData;
                   tp_trades := tp_trades t ++ [trade];
                   tp_pnl := pnl_totalPnL pnlData;
                   tp_averageCost := pnl_averageCost pnlData;
                   tp_currentPrice := currentPrice |}
              else t) (tokens st)).
Proof.
  cbv zeta. unfold handleTrade, handleTradeWith.
  destruct tokenData as [pair |]; [| left; auto].
  destruct (_ || _) eqn:Hprice; [left; auto |].
  destruct isBuy.
  - cbn [setError balance tokens trades].
    destruct (Js.gt usdAmount (balance st)) eqn:Hgt; [left; auto |].
    right. eexists pair, _, tp_trades. cbn [balance tokens trades].
    split; [reflexivity |]. split; [exact Hprice |].
    split; [reflexivity |]. split; [reflexivity |].
    split; [reflexivity |]. split; [reflexivity |].
    split; [auto | reflexivity].
  - cbn [setError balance tokens trades].
    destruct (find _ (tokens st)) as [token |] eqn:Hfind; [| left; auto].
    destruct (Js.gt _ (tp_holdings token)) eqn:Hgt; [left; auto |].
    right. eexists pair, _, (fun _ => tp_trades token).
    cbn [balance tokens trades].
    split; [reflexivity |]. split; [exact Hprice |].
    split; [reflexivity |]. split; [reflexivity |].
    split; [reflexivity |]. split; [reflexivity |].
    split; [split; [reflexivity | eauto] |].
    apply map_ext. intros t. destruct (String.eqb _ _); [| reflexivity].
    now rewrite (calculatePositionPnL_marks _ _ _ _ _ _ _ _ (Some _) (Some _)
                   None None).
Qed.

Lemma map_address_update (f : TokenPosition -> TokenPosition)
  (l : list TokenPosition) :
  (forall t, tp_address (f t) = tp_address t) ->
  map tp_address (map f l) = map tp_address l.
Proof. intros H. rewrite map_map. apply map_ext. exact H. Qed.

Lemma settle_snoc (opening : float) (l : list Trade) (t : Trade) :
  settle opening (l ++ [t]) =
  match type t with
  | buy => (settle opening l - value t)%float
  | sell => (settle opening l + value t)%float
  end.
Proof. unfold settle. now rewrite fold_left_app. Qed.

Lemma handleTrade_invariant (parseFloat : string -> float)
  (tokenData : option Dex.DexScreenerPair) (newId : string) (now : Z)
  (tokenAddress : string) (isBuy : bool) (usdAmount : float)
  (st : Position.State) :
  pageInvariant st ->
  pageInvariant
    (handleTrade parseFloat tokenData newId now tokenAddress isBuy usdAmount
       st).
Proof.
  intros (Hlen & Hnd & Hlow & Hfig & Hbal).
  destruct (handleTrade_cases parseFloat tokenData newId now tokenAddress
              isBuy usdAmount st)
    as [(Eb & Et & Er) |
        (pair & trade & basis & _ & _ & Er & Hv & Hty & _ & Hside & Et)].
  { unfold pageInvariant. rewrite Eb, Et, Er. auto. }
  cbv zeta in Hside, Et. unfold pageInvariant. rewrite Et, Er.
  split; [now rewrite length_map |].
  split.
  { rewrite map_address_update; [exact Hnd |].
    intros t. now destruct (String.eqb _ _). }
  split.
  { apply List.Forall_forall. intros t' Hin.
    apply in_map_iff in Hin as (t & <- & Hin).
    pose proof (proj1 (List.Forall_forall _ _) Hlow t Hin) as Ht.
    now destruct (String.eqb _ _). }
  split.
  { apply List.Forall_forall. intros t' Hin.
    apply in_map_iff in Hin as (t & <- & Hin).
    pose proof (proj1 (List.Forall_forall _ _) Hfig t Hin) as Ht.
    destruct (String.eqb (tp_address t) tokenAddress) eqn:E; [| exact Ht].
    assert (Hbasis : basis t = tp_trades t).
    { destruct isBuy.
      - now destruct Hside as (_ & _ & ->).
      - destruct Hside as (_ & token & Hfind & _ & ->).
        apply String.eqb_eq in E.
        now rewrite (find_address_unique tokenAddress (tokens st) token t). }
    rewrite Hbasis. unfold figuresCoherent. cbn. auto. }
  cbn [rev]. rewrite settle_snoc, Hty, Hv, <- Hbal.
  destruct isBuy; [now destruct Hside as (_ & -> & _) | now destruct Hside].
Qed.

Lemma handlePriceUpdate_invariant (address : string) (price : float)
  (st : Position.State) :
  pageInvariant st -> pageInvariant (handlePriceUpdate address price st).
Proof.
  intros (Hlen & Hnd & Hlow & Hfig & Hbal). unfold handlePriceUpdate.
  destruct (find _ (tokens st)) as [token |]; [| repeat split; assumption].
  destruct (PrimFloat.eqb _ price); [repeat split; assumption |].
  unfold pageInvariant. cbn [tokens balance trades].
  split; [now rewrite length_map |].
  split.
  { rewrite map_address_update; [exact Hnd |].
    intros t. now destruct (String.eqb _ _). }
  split.
  { apply List.Forall_forall. intros t' Hin.
    apply in_map_iff in Hin as (t & <- & Hin).
    pose proof (proj1 (List.Forall_forall _ _) Hlow t Hin) as Ht.
    now destruct (String.eqb _ _). }
  split; [| exact Hbal].
  apply List.Forall_forall. intros t' Hin.
  apply in_map_iff in Hin as (t & <- & Hin).
  pose proof (proj1 (List.Forall_forall _ _) Hfig t Hin) as Ht.
  destruct (String.eqb _ _); [| exact Ht].
  destruct Ht as (Hh & _ & Ha). unfold figuresCoherent. cbn.
  split; [exact Hh |]. split; [reflexivity | exact Ha].
Qed.

Lemma addToken_invariant (parseFloat : string -> float)
  (fetched : option Dex.DexScreenerPair) (st : State) :
  pageInvariant (trading st) ->
  pageInvariant (trading (addToken parseFloat fetched st)).
Proof.
  intros (Hlen & Hnd & Hlow & Hfig & Hbal). unfold addToken.
  destruct (Nat.leb_spec 6 (List.length (tokens (trading st))));
    [repeat split; assumption |].
  destruct (existsb _ _) eqn:Hex; [repeat split; assumption |].
  destruct fetched as [tokenData |]; [| repeat split; assumption].
  unfold pageInvariant. cbn [trading tokens balance trades].
  split; [rewrite length_app; cbn; lia |].
  split.
  { rewrite map_app. cbn [map tp_address].
    apply List.NoDup_app; [exact Hnd | repeat constructor; intros [] |].
    intros a Ha [<- | []].
    apply in_map_iff in Ha as (t & Hat & Hin).
    pose proof (proj1 (List.Forall_forall _ _) Hlow t Hin) as Ht.
    assert (Hyes : existsb
                     (fun t => String.eqb (Js.toLowerCase (tp_address t))
                                 (Js.toLowerCase (newAddress st)))
                     (tokens (trading st)) = true).
    { apply List.existsb_exists. exists t. split; [exact Hin |].
      rewrite Ht, Hat. apply String.eqb_refl. }
    rewrite Hex in Hyes. discriminate. }
  split.
  { apply List.Forall_app. split; [exact Hlow |].
    repeat constructor. cbn. apply toLowerCase_idempotent. }
  split; [| exact Hbal].
  apply List.Forall_app. split; [exact Hfig |].
  repeat constructor.
Qed.

Lemma run_invariant (parseFloat : string -> float) (actions : list Action) :
  forall st : State,
    pageInvariant (trading st) ->
    pageInvariant (trading (run parseFloat actions st)).
Proof.
  induction actions as [| action actions IH]; intros st Hst; [exact Hst |].
  cbn [run fold_left]. apply IH.
  destruct action; cbn [step setNewAddress setTrading trading].
  - exact Hst.
  - now apply addToken_invariant.
  - now apply handleTrade_invariant.
  - now apply handlePriceUpdate_invariant.
Qed.

Lemma initial_invariant : pageInvariant (trading initial).
Proof.
  unfold pageInvariant. cbn. repeat split; try constructor; lia.
Qed.


Lemma calculatePositionPnL_totalTokens (l : list Trade) (p : float) :
  pnl_totalTokens (calculatePositionPnL l p) = totalTokens (replay l).
Proof. reflexivity. Qed.

Lemma handleTrade_notNegative (parseFloat : string -> float)
  (tokenData : option Dex.DexScreenerPair) (newId : string) (now : Z)
  (tokenAddress : string) (isBuy : bool) (usdAmount : float)
  (st : Position.State) :
  PrimFloat.ltb usdAmount 0 = false ->
  pageInvariant st -> notNegative st ->
  notNegative
    (handleTrade parseFloat tokenData newId now tokenAddress isBuy usdAmount
       st).
Proof.
  intros Husd (_ & Hnd & _ & Hfig & _) (Hbal & Hhold).
  destruct (handleTrade_cases parseFloat tokenData newId now tokenAddress
              isBuy usdAmount st)
    as [(Eb & Et & Er) |
        (pair & trade & basis & _ & Hprice & _ & _ & Hty & Ham & Hside & Et)].
  { unfold notNegative. rewrite Eb, Et. auto. }
  cbv zeta in Hprice, Ham, Hside, Et. unfold notNegative. rewrite Et. split.
  { destruct isBuy.
    - destruct Hside as (Hgt & -> & _). now rewrite ltb_sub_zero.
    - destruct Hside as (-> & _). now apply add_not_negative. }
  apply List.Forall_forall. intros t' Hin.
  apply in_map_iff in Hin as (t & <- & Hin).
  pose proof (proj1 (List.Forall_forall _ _) Hhold t Hin) as Ht.
  pose proof (proj1 (List.Forall_forall _ _) Hfig t Hin) as (Hh & _).
  rewrite calculatePositionPnL_totalTokens in Hh.
  destruct (String.eqb (tp_address t) tokenAddress) eqn:E; [| exact Ht].
  cbn [tp_holdings]. rewrite calculatePositionPnL_totalTokens, replay_snoc.
  unfold replayTrade. rewrite Hty, Ham. destruct isBuy.
  - destruct Hside as (_ & _ & ->). cbn [totalTokens]. rewrite <- Hh.
    apply add_not_negative; [exact Ht |]. now apply div_not_negative.
  - destruct Hside as (_ & token & Hfind & Hgt & ->). cbn [totalTokens].
    apply String.eqb_eq in E.
    rewrite (find_address_unique tokenAddress (tokens st) token t) in Hh, Ht
      by assumption.
    rewrite <- Hh, ltb_sub_zero. exact Hgt.
Qed.

Lemma handlePriceUpdate_notNegative (address : string) (price : float)
  (st : Position.State) :
  notNegative st -> notNegative (handlePriceUpdate address price st).
Proof.
  intros (Hbal & Hhold). unfold handlePriceUpdate.
  destruct (find _ (tokens st)) as [token |]; [| split; assumption].
  destruct (PrimFloat.eqb _ price); [split; assumption |].
  split; [exact Hbal |]. cbn [tokens].
  apply List.Forall_forall. intros t' Hin.
  apply in_map_iff in Hin as (t & <- & Hin).
  pose proof (proj1 (List.Forall_forall _ _) Hhold t Hin) as Ht.
  now destruct (String.eqb _ _).
Qed.

Lemma addToken_notNegative (parseFloat : string -> float)
  (fetched : option Dex.DexScreenerPair) (st : State) :
  notNegative (trading st) ->
  notNegative (trading (addToken parseFloat fetched st)).
Proof.
  intros (Hbal & Hhold). unfold addToken.
  destruct (6 <=? _)%nat; [split; assumption |].
  destruct (existsb _ _); [split; assumption |].
  destruct fetched as [tokenData |]; [| split; assumption].
  split; [exact Hbal |]. cbn [trading tokens].
  apply List.Forall_app. split; [exact Hhold |]. repeat constructor.
Qed.

Lemma run_notNegative (parseFloat : string -> float) (actions : list Action) :
  forall st : State,
    amountsNotNegative actions = true ->
    pageInvariant (trading st) -> notNegative (trading st) ->
    notNegative (trading (run parseFloat actions st)).
Proof.
  induction actions as [| action actions IH]; intros st Ham Hinv Hst;
    [exact Hst |].
  cbn [amountsNotNegative forallb] in Ham.
  apply andb_true_iff in Ham as [Ha Ham].
  cbn [run fold_left]. apply IH; [exact Ham | |].
  - apply (run_invariant parseFloat [action] st Hinv).
  - destruct action; cbn [step setNewAddress setTrading trading].
    + exact Hst.
    + now apply addToken_notNegative.
    + apply handleTrade_notNegative; try assumption.
      now apply negb_true_iff.
    + now apply handlePriceUpdate_notNegative.
Qed.

(** X1: the cash balance is what the trade log accounts for.  After any
    session the balance is the opening 1000 with the dollar value of every
    logged trade taken (buy) or added (sell), in the order of the trades,
    in the very arithmetic of the page.  A buy for more than the balance is
    turned down: the error is set and nothing else changes. *)
Theorem balance_settles_the_trade_log :
  (forall (parseFloat : string -> float) (actions : list Action),
     let st := trading (run parseFloat actions initial) in
     balance st = settle 1000 (rev (trades st))) /\
  (forall (calc : list Trade -> float -> PnLData)
          (parseFloat : string -> float) (pair : Dex.DexScreenerPair)
          (newId : string) (now : Z) (tokenAddress : string)
          (usdAmount : float) (st : Position.State),
     let currentPrice := parseFloat (Dex.priceUsd pair) in
     PrimFloat.is_nan currentPrice || Js.le currentPrice 0 = false ->
     Js.gt usdAmount (balance st) = true ->
     handleTradeWith calc parseFloat (Some pair) newId now tokenAddress true
       usdAmount st =
     {| balance := balance st; tokens := tokens st; trades := trades st;
        error := "Insufficient balance" |}).
Proof.
  split.
  - intros parseFloat actions st.
    apply (run_invariant parseFloat actions initial initial_invariant).
  - intros calc parseFloat pair newId now tokenAddress usdAmount st
      currentPrice Hprice Hgt.
    unfold handleTradeWith. fold currentPrice. rewrite Hprice.
    cbn [setError balance]. rewrite Hgt. reflexivity.
Qed.

(** X2: the page never holds more than six positions, and never two under
    one address, however the addresses typed in are capitalised: after any
    session the positions are at most six, their addresses are in lower
    case and pairwise different. *)
Theorem at_most_six_distinct_positions
  (parseFloat : string -> float) (actions : list Action) :
  let positions := tokens (trading (run parseFloat actions initial)) in
  (List.length positions <= 6)%nat /\
  List.NoDup (map (fun t => Js.toLowerCase (tp_address t)) positions) /\
  Forall (fun t => tp_address t = Js.toLowerCase (tp_address t)) positions.
Proof.
  intros positions.
  destruct (run_invariant parseFloat actions initial initial_invariant)
    as (Hlen & Hnd & Hlow & _).
  fold positions in Hlen, Hnd, Hlow.
  split; [exact Hlen |]. split.
  - erewrite map_ext_in; [exact Hnd |].
    intros t Hin. exact (proj1 (List.Forall_forall _ _) Hlow t Hin).
  - eapply List.Forall_impl; [| exact Hlow]. cbn. auto.
Qed.

(** X3: every position shows the figures of its own trades.  After any
    session, the holdings, the PnL and the average cost of each position
    are the ones [calculatePositionPnL] gives for the trades recorded under
    the position at its current price. *)
Theorem positions_show_the_figures_of_their_trades
  (parseFloat : string -> float) (actions : list Action) :
  Forall figuresCoherent (tokens (trading (run parseFloat actions initial))).
Proof.
  pose proof (run_invariant parseFloat actions initial initial_invariant)
    as Hinv.
  destruct Hinv as (_ & _ & _ & Hfig & _).
  exact Hfig.
Qed.

(** X4: in a session in which no trade is for a negative dollar amount,
    the cash balance never falls below zero, and no position ever holds a
    negative amount: every position holds what the replay of its trades
    gives. *)
Theorem session_never_goes_negative
  (parseFloat : string -> float) (actions : list Action) :
  amountsNotNegative actions = true ->
  let st := trading (run parseFloat actions initial) in
  PrimFloat.ltb (balance st) 0 = false /\ holdingsCoherent st.
Proof.
  intros Ham st.
  destruct (run_invariant parseFloat actions initial initial_invariant)
    as (_ & Hnd & _ & Hfig & _).
  destruct (run_notNegative parseFloat actions initial Ham initial_invariant)
    as (Hbal & Hhold).
  { split; [reflexivity | constructor]. }
  fold st in Hnd, Hfig, Hbal, Hhold.
  split; [exact Hbal |]. split; [exact Hnd |].
  apply List.Forall_forall. intros t Hin.
  pose proof (proj1 (List.Forall_forall _ _) Hfig t Hin) as (Hh & _).
  pose proof (proj1 (List.Forall_forall _ _) Hhold t Hin) as Ht.
  split; [exact Hh | exact Ht].
Qed.

Lemma session_never_goes_negative_witness :
  let st := trading (run exampleParseFloat exampleSession initial) in
  PrimFloat.ltb (balance st) 0 = false /\ holdingsCoherent st.
Proof.
  exact (session_never_goes_negative exampleParseFloat exampleSession eq_refl).
Defined.

Example example_session_outcome :
  let st := trading (run exampleParseFloat exampleSession initial) in
  balance st = 950%float /\
  map (fun t => (tp_address t, tp_holdings t, tp_pnl t, tp_currentPrice t))
    (tokens st) = [("mint1", 25%float, 0%float, 2%float)] /\
  List.length (trades st) = 2%nat.
Proof. vm_compute. repeat split; reflexivity. Qed.


(** *** Price updates *)

Lemma find_map_same {A : Type} (test : A -> bool) (f : A -> A) (l : list A) :
  (forall x, test (f x) = test x) ->
  find test (map f l) = option_map f (find test l).
Proof.
  intros H. induction l as [| x l IH]; [reflexivity |].
  cbn. rewrite H. now destruct (test x).
Qed.

(** X5: a price update touches nothing but the current price and the PnL
    of the positions of the address (compared without regard to case): the
    balance, the trade log and the error stay, and so do address, symbol,
    holdings, trades and average cost of every position, in their order; a
    position that changed shows the new price and the PnL of its trades at
    that price.  Handing the same update over again changes nothing
    more. *)
Theorem price_update_only_reprices
  (address : string) (price : float) (st : Position.State) :
  let st' := handlePriceUpdate address price st in
  balance st' = balance st /\ trades st' = trades st /\
  error st' = error st /\
  map (fun t => (tp_address t, tp_symbol t, tp_holdings t, tp_trades t,
                 tp_averageCost t)) (tokens st') =
  map (fun t => (tp_address t, tp_symbol t, tp_holdings t, tp_trades t,
                 tp_averageCost t)) (tokens st) /\
  (forall t', In t' (tokens st') ->
     In t' (tokens st) \/
     Js.toLowerCase (tp_address t') = Js.toLowerCase address /\
     tp_currentPrice t' = price /\
     tp_pnl t' = pnl_totalPnL (calculatePositionPnL (tp_trades t') price)) /\
  handlePriceUpdate address price st' = st'.
Proof.
  cbv zeta.
  set (reprice := fun t : TokenPosition =>
         if String.eqb (Js.toLowerCase (tp_address t))
              (Js.toLowerCase address)
         then {| tp_address := tp_address t;
                 tp_symbol := tp_symbol t;
                 tp_holdings := tp_holdings t;
                 tp_trades := tp_trades t;
                 tp_pnl :=
                   pnl_totalPnL (calculatePositionPnL (tp_trades t) price);
                 tp_averageCost := tp_averageCost t;
                 tp_currentPrice := price |}
         else t).
  assert (Haddr : forall t, tp_address (reprice t) = tp_address t).
  { intros t. unfold reprice. now destruct (String.eqb _ _). }
  assert (Hcases :
            handlePriceUpdate address price st = st \/
            exists token,
              find (fun t => String.eqb (Js.toLowerCase (tp_address t))
                               (Js.toLowerCase address)) (tokens st) =
                Some token /\
              handlePriceUpdate address price st =
              {| balance := balance st; tokens := map reprice (tokens st);
                 trades := trades st; error := error st |}).
  { unfold handlePriceUpdate.
    destruct (find _ (tokens st)) as [token |]; [| now left].
    destruct (PrimFloat.eqb _ price); [now left | right; eauto]. }
  destruct Hcases as [E | (token & Hfind & ->)].
  { rewrite !E. repeat split; auto. }
  cbn [balance trades error tokens].
  split; [reflexivity |]. split; [reflexivity |]. split; [reflexivity |].
  split.
  { rewrite map_map. apply map_ext. intros t. unfold reprice.
    now destruct (String.eqb _ _). }
  split.
  { intros t' Hin. apply in_map_iff in Hin as (t & <- & Hin). unfold reprice.
    destruct (String.eqb _ _) eqn:E; [right | now left].
    apply String.eqb_eq in E. cbn. auto. }
  unfold handlePriceUpdate. cbn [tokens balance trades error].
  rewrite find_map_same by (intros t; now rewrite Haddr).
  rewrite Hfind. cbn [option_map].
  apply find_some in Hfind as [_ Hmatch].
  unfold reprice at 1. rewrite Hmatch. cbn [tp_currentPrice].
  destruct (PrimFloat.eqb price price); [reflexivity |].
  f_equal. rewrite map_map. apply map_ext. intros t.
  fold (reprice (reprice t)). unfold reprice.
  destruct (String.eqb (Js.toLowerCase (tp_address t)) _) eqn:E;
    cbn [tp_address tp_trades]; rewrite ?E; reflexivity.
Qed.

(** *** A buy for an address without a position *)

Lemma map_no_match {A : Type} (test : A -> bool) (f : A -> A) (l : list A) :
  find test l = None ->
  map (fun x => if test x then f x else x) l = l.
Proof.
  induction l as [| x l IH]; [reflexivity |]. cbn.
  destruct (test x); [discriminate |]. intros H. now rewrite IH.
Qed.

(** X6: the buy branch of [handleTrade] does not look the position up.
    When the service has a snapshot with a valid price for the address and
    the amount is within the balance, but no position has exactly this
    address (one that differs in case, say), a buy is still logged and
    paid for, and no position receives the tokens; a sell of the same kind
    changes nothing. *)
Theorem buy_without_position_is_still_charged
  (parseFloat : string -> float) (pair : Dex.DexScreenerPair)
  (newId : string) (now : Z) (tokenAddress : string) (usdAmount : float)
  (st : Position.State) :
  let currentPrice := parseFloat (Dex.priceUsd pair) in
  PrimFloat.is_nan currentPrice || Js.le currentPrice 0 = false ->
  Js.gt usdAmount (balance st) = false ->
  find (fun t => String.eqb (tp_address t) tokenAddress) (tokens st) = None ->
  handleTrade parseFloat (Some pair) newId now tokenAddress true usdAmount st =
  {| balance := balance st - usdAmount;
     tokens := tokens st;
     trades :=
       {| id := newId; symbol := Dex.symbol (Dex.baseToken pair);
          type := buy; amount := usdAmount / currentPrice;
          price := currentPrice; value := usdAmount; timestamp := now;
          pnl := None; pnlPercent := None |} :: trades st;
     error := EmptyString |} /\
  handleTrade parseFloat (Some pair) newId now tokenAddress false usdAmount
    st =
  {| balance := balance st; tokens := tokens st; trades := trades st;
     error := EmptyString |}.
Proof.
  intros currentPrice Hprice Hgt Hfind.
  unfold handleTrade, handleTradeWith. fold currentPrice. rewrite Hprice.
  cbn [setError balance tokens trades error]. rewrite Hgt, Hfind.
  split; [| reflexivity].
  f_equal.
  exact (map_no_match (fun t => String.eqb (tp_address t) tokenAddress) _ _
           Hfind).
Qed.

Lemma buy_without_position_witness :
  handleTrade exampleParseFloat (Some examplePair) "c" 3 "MINT1" true 100
    exampleState =
  {| balance := balance exampleState - 100;
     tokens := tokens exampleState;
     trades :=
       {| id := "c"; symbol := "TKN"; type := buy; amount := 100 / 2;
          price := 2; value := 100; timestamp := 3;
          pnl := None; pnlPercent := None |} :: trades exampleState;
     error := EmptyString |} /\
  handleTrade exampleParseFloat (Some examplePair) "c" 3 "MINT1" false 100
    exampleState =
  {| balance := balance exampleState; tokens := tokens exampleState;
     trades := trades exampleState; error := EmptyString |}.
Proof.
  exact (buy_without_position_is_still_charged exampleParseFloat examplePair
           "c" 3 "MINT1" 100%float exampleState eq_refl eq_refl eq_refl).
Defined.

(** *** Closing a position *)

(** X7: a sell of everything a position holds closes it.  When the amount
    sold is not below the holdings before the sell (the guard of
    [handleTrade] lets through no amount above them), the position is left
    with no unrealized PnL and an average cost of zero, at every current
    price, and its total PnL is its realized PnL; this holds in particular
    when the amount is exactly the holdings. *)
Theorem selling_everything_closes_the_position
  (trades : list Trade) (t : Trade) (currentPrice : float) :
  type t = sell ->
  let held := totalTokens (replay trades) in
  let result := calculatePositionPnL (trades ++ [t]) currentPrice in
  pnl_totalTokens result = (held - amount t)%float /\
  (PrimFloat.ltb (amount t) held = false ->
   pnl_unrealizedPnL result = 0%float /\
   pnl_averageCost result = 0%float /\
   pnl_totalPnL result = (pnl_realizedPnL result + 0)%float) /\
  (amount t = held ->
   pnl_unrealizedPnL result = 0%float /\
   pnl_averageCost result = 0%float).
Proof.
  intros Hty held result.
  assert (Htok : totalTokens (replay (trades ++ [t])) = (held - amount t)%float).
  { rewrite replay_snoc. unfold replayTrade. now rewrite Hty. }
  assert (Hzero : PrimFloat.ltb (amount t) held = false ->
                  pnl_unrealizedPnL result = 0%float /\
                  pnl_averageCost result = 0%float /\
                  pnl_totalPnL result = (pnl_realizedPnL result + 0)%float).
  { intros Hnot. subst result. unfold calculatePositionPnL.
    cbn [pnl_unrealizedPnL pnl_averageCost pnl_totalPnL pnl_realizedPnL].
    unfold Js.gt. rewrite Htok, ltb_zero_sub, Hnot. auto. }
  split; [exact Htok |]. split; [exact Hzero |].
  intros Heq. rewrite Heq in Hzero.
  destruct (Hzero (float_ltb_irrefl held)) as (Hu & Ha & _). auto.
Qed.

Lemma selling_everything_witness :
  let trades := exampleTrades in
  let t := mkTrade "c" "TKN" sell 75 3 225 3 None None in
  let held := totalTokens (replay trades) in
  let result := calculatePositionPnL (trades ++ [t]) 3 in
  pnl_totalTokens result = (held - amount t)%float /\
  (PrimFloat.ltb (amount t) held = false ->
   pnl_unrealizedPnL result = 0%float /\
   pnl_averageCost result = 0%float /\
   pnl_totalPnL result = (pnl_realizedPnL result + 0)%float) /\
  (amount t = held ->
   pnl_unrealizedPnL result = 0%float /\
   pnl_averageCost result = 0%float).
Proof.
  exact (selling_everything_closes_the_position
           exampleTrades
           (mkTrade "c" "TKN" sell 75 3 225 3 None None) 3 eq_refl).
Defined.

End PageFacts.

(** ** Adding a token: the page and the service together *)

Section AddTokenFacts.
Import Position Page.

(** X8: a token added under any capitalisation can be traded at once.
    When [addToken] passes its checks and the fetch finds a pair, the new
    position is appended with the address in lower case, no holdings and
    no trades, priced from that pair; the service has cached the same pair
    under the address of the position, so that a trade on the position
    does not fail for want of token data. *)
Theorem added_token_is_cached_for_trading
  (parseFloat : string -> float) (response : Service.Response) (now : Z)
  (svc : Service.State) (st : State) (pair : Dex.DexScreenerPair) :
  let normalizedAddress := Js.toLowerCase (newAddress st) in
  let result := Service.fetchTokenData normalizedAddress response now svc in
  (List.length (tokens (trading st)) < 6)%nat ->
  existsb (fun t => String.eqb (Js.toLowerCase (tp_address t))
                      normalizedAddress) (tokens (trading st)) = false ->
  snd result = Some pair ->
  let st' := addToken parseFloat (snd result) st in
  let position :=
    {| tp_address := normalizedAddress;
       tp_symbol := Dex.symbol (Dex.baseToken pair);
       tp_holdings := 0; tp_trades := []; tp_pnl := 0; tp_averageCost := 0;
       tp_currentPrice := parseFloat (Dex.priceUsd pair) |} in
  st' =
  {| trading :=
       {| balance := balance (trading st);
          tokens := tokens (trading st) ++ [position];
          trades := trades (trading st);
          error := EmptyString |};
     newAddress := EmptyString;
     isLoading := false |} /\
  Service.getTokenData (tp_address position) (fst result) = Some pair /\
  forall (newId : string) (at_ : Z) (isBuy : bool) (usdAmount : float),
    error
      (handleTrade parseFloat
         (Service.getTokenData (tp_address position) (fst result))
         newId at_ (tp_address position) isBuy usdAmount (trading st')) <>
    "Token data not available".
Proof.
  intros normalizedAddress result Hlen Hnew Hpair st' position.
  assert (Hget : Service.getTokenData (tp_address position) (fst result) =
                 Some pair).
  { subst result. revert Hpair. unfold Service.fetchTokenData.
    destruct response as [| | [[| first others] |]]; try discriminate.
    destruct (Js.sort _ _) as [| top rest]; [discriminate |].
    cbn [fst snd]. intros [= ->].
    unfold Service.getTokenData, position. cbn [tp_address].
    unfold normalizedAddress. rewrite !toLowerCase_idempotent.
    cbn [Service.cacheAndNotify Service.tokenData].
    apply lookup_insert_eq. }
  split; [| split; [exact Hget |]].
  - subst st'. unfold addToken. fold normalizedAddress.
    apply Nat.leb_gt in Hlen. rewrite Hlen, Hnew, Hpair. reflexivity.
  - intros newId at_ isBuy usdAmount. rewrite Hget.
    unfold handleTrade, handleTradeWith.
    destruct (_ || _); [discriminate |].
    destruct isBuy.
    + destruct (Js.gt _ _); discriminate.
    + destruct (find _ _) as [token |]; [| discriminate].
      destruct (Js.gt _ _); discriminate.
Qed.

Lemma added_token_witness :
  let st := setNewAddress "Mint1" initial in
  let result :=
    Service.fetchTokenData "mint1" (Service.Json (Some [Service.shallowPair; Service.deepPair])) 5 (Service.fresh 0) in
  let st' := addToken exampleParseFloat (snd result) st in
  let position :=
    {| tp_address := "mint1";
       tp_symbol := "TKN";
       tp_holdings := 0; tp_trades := [];
       tp_pnl := 0; tp_averageCost := 0;
       tp_currentPrice := 2 |} in
  st' =
  {| trading :=
       {| balance := 1000;
          tokens := [position];
          trades := [];
          error := EmptyString |};
     newAddress := EmptyString;
     isLoading := false |} /\
  Service.getTokenData "mint1" (fst result) = Some Service.deepPair /\
  forall (newId : string) (at_ : Z) (isBuy : bool) (usdAmount : float),
    error
      (handleTrade exampleParseFloat
         (Service.getTokenData "mint1" (fst result))
         newId at_ "mint1" isBuy usdAmount (trading st')) <>
    "Token data not available".
Proof.
  apply (added_token_is_cached_for_trading exampleParseFloat
           (Service.Json (Some [Service.shallowPair; Service.deepPair])) 5 (Service.fresh 0)
           (setNewAddress "Mint1" initial) Service.deepPair).
  - cbn. lia.
  - reflexivity.
  - reflexivity.
Defined.

End AddTokenFacts.

(** ** The periodic refresh, responses without pairs and the initial
       fetch of a subscription *)

Section RefreshFacts.
Import Dex Service.


Lemma outstanding_queueRequest {T : Type} (now : Z) (request : T)
  (q : RequestQueue.State T) :
  RequestQueue.outstanding (RequestQueue.queueRequest now request q) =
  RequestQueue.outstanding q ++ [request].
Proof.
  unfold RequestQueue.outstanding, RequestQueue.queueRequest,
    RequestQueue.processQueue.
  cbn [RequestQueue.isProcessingQueue RequestQueue.requestQueue].
  destruct (RequestQueue.isProcessingQueue q).
  { cbn. now rewrite app_assoc. }
  destruct (RequestQueue.requestQueue q ++ [request]) as [| r rest] eqn:E.
  { now destruct (RequestQueue.requestQueue q). }
  cbn [orb List.length Nat.eqb RequestQueue.loopHead
       RequestQueue.requestQueue RequestQueue.rateLimiter].
  destruct (RateLimiter.attempt now (RequestQueue.rateLimiter q)) as [rl a].
  cbn [RequestQueue.setDrains RequestQueue.drains RequestQueue.requestQueue].
  unfold RequestQueue.pending. rewrite flat_map_app. cbn [flat_map].
  rewrite app_nil_r, <- !app_assoc. cbn [app].
  now rewrite E.
Qed.

Lemma slice_batch {A : Type} (i : nat) (l : list A) :
  slice i (i + BATCH_SIZE) l = firstn BATCH_SIZE (skipn i l).
Proof. unfold slice. now replace (i + BATCH_SIZE - i)%nat with BATCH_SIZE by lia. Qed.

(** The chunks of the loop: together they are the addresses from [i] on,
    each holds between one and ten addresses, and there are as few of them
    as chunks of ten allow. *)
Lemma batchesFrom_spec (addresses : list string) (fuel : nat) :
  forall i : nat,
    (List.length addresses - i <= fuel)%nat ->
    concat (batchesFrom fuel addresses i) = skipn i addresses /\
    Forall (fun batch => (0 < List.length batch <= BATCH_SIZE)%nat)
      (batchesFrom fuel addresses i) /\
    List.length (batchesFrom fuel addresses i) =
      ((List.length addresses - i + 9) / 10)%nat.
Proof.
  induction fuel as [| fuel IH]; intros i Hfuel.
  - cbn [batchesFrom concat List.length].
    replace (List.length addresses - i)%nat with 0%nat by lia.
    rewrite skipn_all2 by lia. repeat split. constructor.
  - cbn [batchesFrom].
    destruct (Nat.ltb_spec i (List.length addresses)) as [Hlt | Hge].
    + destruct (IH (i + BATCH_SIZE)%nat) as (Hcat & Hall & Hlen);
        [unfold BATCH_SIZE; lia |].
      rewrite slice_batch. cbn [concat List.length]. rewrite Hcat, Hlen.
      split; [| split].
      * rewrite Nat.add_comm, <- skipn_skipn. apply firstn_skipn.
      * constructor; [| exact Hall].
        rewrite length_firstn, length_skipn. unfold BATCH_SIZE. lia.
      * unfold BATCH_SIZE.
        pose proof (Nat.div_mod_eq (List.length addresses - i + 9) 10).
        pose proof (Nat.div_mod_eq (List.length addresses - (i + 10) + 9) 10).
        pose proof (Nat.mod_upper_bound (List.length addresses - i + 9) 10).
        pose proof (Nat.mod_upper_bound
                      (List.length addresses - (i + 10) + 9) 10).
        lia.
    + cbn [concat List.length].
      replace (List.length addresses - i)%nat with 0%nat by lia.
      rewrite skipn_all2 by lia. repeat split. constructor.
Qed.

Lemma updateBatches_fold (now : Z) (addresses : list string) (fuel : nat) :
  forall (i : nat) (st : State),
    updateBatches fuel now addresses i st =
    fold_left (fun st batch => updateBatch now batch st)
      (batchesFrom fuel addresses i) st.
Proof.
  induction fuel as [| fuel IH]; intros i st; [reflexivity |].
  cbn [updateBatches batchesFrom].
  destruct (i <? List.length addresses)%nat; [| reflexivity].
  cbn [fold_left]. apply IH.
Qed.

(** Queueing one request per chunk touches the queue only, and adds the
    requests behind the ones that are waiting. *)
Lemma fold_updateBatch (now : Z) (bs : list (list string)) :
  forall st : State,
    Forall (fun batch => (0 < List.length batch)%nat) bs ->
    let st' := fold_left (fun st batch => updateBatch now batch st) bs st in
    RequestQueue.outstanding (queue st') =
      RequestQueue.outstanding (queue st) ++ map FetchBatch bs /\
    subscribers st' = subscribers st /\ tokenData st' = tokenData st /\
    lastUpdateTime st' = lastUpdateTime st /\ delivered st' = delivered st /\
    consoleErrors st' = consoleErrors st.
Proof.
  induction bs as [| b bs IH]; intros st Hall.
  - cbn. rewrite app_nil_r. repeat split.
  - apply Forall_cons_iff in Hall as [Hb Hall]. cbn [fold_left map].
    specialize (IH (updateBatch now b st) Hall). cbv zeta in IH.
    destruct IH as (Hq & Hs & Ht & Hl & Hd & He).
    assert (E : updateBatch now b st = queueRequest now (FetchBatch b) st).
    { destruct b; [cbn in Hb; lia | reflexivity]. }
    rewrite E in Hq, Hs, Ht, Hl, Hd, He. rewrite E.
    cbn [queueRequest setQueue queue subscribers tokenData lastUpdateTime
         delivered consoleErrors] in Hq, Hs, Ht, Hl, Hd, He.
    rewrite outstanding_queueRequest, <- app_assoc in Hq.
    repeat split; assumption.
Qed.

Lemma batches_spec (addresses : list string) :
  concat (batches addresses) = addresses /\
  Forall (fun batch => (1 <= List.length batch <= 10)%nat)
    (batches addresses) /\
  List.length (batches addresses) = ((List.length addresses + 9) / 10)%nat.
Proof.
  destruct (batchesFrom_spec addresses (List.length addresses) 0)
    as (Hcat & Hall & Hlen); [lia |].
  fold (batches addresses) in Hcat, Hall, Hlen.
  rewrite Nat.sub_0_r in Hlen. cbn [skipn] in Hcat. auto.
Qed.

(** The loop of the callback queues one request per chunk and touches
    nothing but the queue. *)
Lemma queueBatches_spec (now : Z) (addresses : list string) (st : State) :
  let st' := queueBatches now addresses st in
  RequestQueue.outstanding (queue st') =
    RequestQueue.outstanding (queue st) ++
    map FetchBatch (batches addresses) /\
  subscribers st' = subscribers st /\ tokenData st' = tokenData st /\
  lastUpdateTime st' = lastUpdateTime st /\ delivered st' = delivered st.
Proof.
  intros st'.
  destruct (batches_spec addresses) as (_ & Hall & _).
  destruct (fold_updateBatch now (batches addresses) st)
    as (Hq & Hs & Ht & Hl & Hd & _).
  { eapply List.Forall_impl; [| exact Hall]. cbn. lia. }
  assert (Est : st' = fold_left (fun st batch => updateBatch now batch st)
                        (batches addresses) st)
    by apply updateBatches_fold.
  rewrite <- Est in Hq, Hs, Ht, Hl, Hd. auto.
Qed.

(** The keys of [subscribers]: each subscribed address, once. *)
Lemma subscriberKeys_In (st : State) (a : string) :
  In a (subscriberKeys st) <-> is_Some (subscribers st !! a).
Proof.
  unfold subscriberKeys. rewrite in_map_iff. split.
  - intros ([k s] & <- & Hin). apply list_elem_of_In in Hin.
    apply elem_of_map_to_list in Hin. cbn. eauto.
  - intros [s Hs]. exists (a, s). split; [reflexivity |].
    apply list_elem_of_In. now apply elem_of_map_to_list.
Qed.

Lemma subscriberKeys_NoDup (st : State) : List.NoDup (subscriberKeys st).
Proof.
  apply NoDup_ListNoDup. exact (NoDup_fst_map_to_list (subscribers st)).
Qed.

Lemma staleAddresses_In (now : Z) (st : State) (a : string) :
  In a (staleAddresses now st) <->
  is_Some (subscribers st !! a) /\
  3000 <= now - default 0 (lastUpdateTime st !! a).
Proof.
  unfold staleAddresses. rewrite filter_In, subscriberKeys_In.
  unfold isStale, UPDATE_INTERVAL. now rewrite Z.leb_le.
Qed.

Lemma filter_permutation {A : Type} (test : A -> bool) (l k : list A) :
  Permutation l k -> Permutation (List.filter test l) (List.filter test k).
Proof.
  induction 1 as [| x l k _ IH | x y l | l k m _ IH1 _ IH2]; cbn.
  - constructor.
  - destruct (test x); [now constructor | exact IH].
  - destruct (test x), (test y); try reflexivity. constructor.
  - now transitivity (List.filter test k).
Qed.

(** X9: one tick of the refresh timer asks for every stale subscribed
    token exactly once.  The addresses selected are exactly the ones that
    have a subscriber set and whose last update lies at least 3000 ms back
    (or that were never updated), each once; the tick queues one batch
    request for each chunk of them, behind the requests already waiting,
    every chunk holding between one and ten addresses and the chunks being
    as few as possible; it touches neither the cache nor the subscribers.
    In whatever order the map of the subscribers lists its keys, the tick
    asks for the same addresses, in as many requests of the same kind. *)
Theorem refresh_queues_each_stale_token_once (now : Z) (st : State) :
  let addresses := staleAddresses now st in
  let st' := refresh now st in
  (forall a, In a addresses <->
     is_Some (subscribers st !! a) /\
     3000 <= now - default 0 (lastUpdateTime st !! a)) /\
  List.NoDup addresses /\
  concat (batches addresses) = addresses /\
  Forall (fun batch => (1 <= List.length batch <= 10)%nat)
    (batches addresses) /\
  List.length (batches addresses) = ((List.length addresses + 9) / 10)%nat /\
  RequestQueue.outstanding (queue st') =
    RequestQueue.outstanding (queue st) ++
    map FetchBatch (batches addresses) /\
  subscribers st' = subscribers st /\ tokenData st' = tokenData st /\
  lastUpdateTime st' = lastUpdateTime st /\ delivered st' = delivered st /\
  (forall keys : list string,
     Permutation keys (subscriberKeys st) ->
     let listed := List.filter (isStale now st) keys in
     let st'' := queueBatches now listed st in
     Permutation listed addresses /\
     concat (batches listed) = listed /\
     Forall (fun batch => (1 <= List.length batch <= 10)%nat)
       (batches listed) /\
     List.length (batches listed) = List.length (batches addresses) /\
     RequestQueue.outstanding (queue st'') =
       RequestQueue.outstanding (queue st) ++
       map FetchBatch (batches listed) /\
     subscribers st'' = subscribers st /\ tokenData st'' = tokenData st /\
     lastUpdateTime st'' = lastUpdateTime st /\
     delivered st'' = delivered st).
Proof.
  intros addresses st'.
  destruct (batches_spec addresses) as (Hcat & Hall & Hlen).
  split; [intros a; apply staleAddresses_In |].
  split; [apply List.NoDup_filter, subscriberKeys_NoDup |].
  split; [exact Hcat |]. split; [exact Hall |]. split; [exact Hlen |].
  destruct (queueBatches_spec now addresses st) as (Hq & Hs & Ht & Hl & Hd).
  split; [exact Hq |]. split; [exact Hs |]. split; [exact Ht |].
  split; [exact Hl |]. split; [exact Hd |].
  intros keys Hperm listed st''.
  assert (Hlisted : Permutation listed addresses)
    by now apply filter_permutation.
  destruct (batches_spec listed) as (Hcat' & Hall' & Hlen').
  split; [exact Hlisted |]. split; [exact Hcat' |]. split; [exact Hall' |].
  split; [now rewrite Hlen', Hlen, (Permutation_length Hlisted) |].
  apply queueBatches_spec.
Qed.

(** X10: the refresh timer does not wait for answers.  A token that was
    asked for at one tick and whose request has not been answered is
    selected again at every later tick, and its address is queued again:
    after two ticks the queue holds the requests of both, one behind the
    other.  This holds of the keys of the subscribers, and of every list of
    keys filtered and queued in the same way. *)
Theorem unanswered_refreshes_pile_up (now later : Z) (st : State) :
  now <= later ->
  (let st1 := refresh now st in
   let st2 := refresh later st1 in
   (forall a, In a (staleAddresses now st) ->
              In a (staleAddresses later st1)) /\
   RequestQueue.outstanding (queue st2) =
     RequestQueue.outstanding (queue st) ++
     map FetchBatch (batches (staleAddresses now st)) ++
     map FetchBatch (batches (staleAddresses later st1))) /\
  (forall keys : list string,
     let selected (at_ : Z) (s : State) := List.filter (isStale at_ s) keys in
     let st1 := queueBatches now (selected now st) st in
     let st2 := queueBatches later (selected later st1) st1 in
     (forall a, In a (selected now st) -> In a (selected later st1)) /\
     RequestQueue.outstanding (queue st2) =
       RequestQueue.outstanding (queue st) ++
       map FetchBatch (batches (selected now st)) ++
       map FetchBatch (batches (selected later st1))).
Proof.
  intros Hlater. split.
  - intros st1 st2.
    destruct (queueBatches_spec now (staleAddresses now st) st)
      as (Hq1 & Hs1 & _ & Hl1 & _).
    destruct (queueBatches_spec later (staleAddresses later st1) st1)
      as (Hq2 & _).
    fold (refresh now st) in Hq1, Hs1, Hl1. fold st1 in Hq1, Hs1, Hl1.
    fold (refresh later st1) in Hq2. fold st2 in Hq2. split.
    + intros a. rewrite !staleAddresses_In, Hl1, Hs1. intros [Hk Hs].
      split; [exact Hk | lia].
    + now rewrite Hq2, Hq1, <- app_assoc.
  - intros keys selected st1 st2.
    destruct (queueBatches_spec now (selected now st) st)
      as (Hq1 & _ & _ & Hl1 & _).
    destruct (queueBatches_spec later (selected later st1) st1)
      as (Hq2 & _).
    fold st1 in Hq1, Hl1. fold st2 in Hq2. split.
    + intros a. unfold selected. rewrite !filter_In.
      unfold isStale, UPDATE_INTERVAL. rewrite Hl1, !Z.leb_le.
      intros [Hk Hs]. split; [exact Hk | lia].
    + now rewrite Hq2, Hq1, <- app_assoc.
Qed.

Lemma unanswered_refreshes_witness :
  let st := fst (subscribe 1 "Mint1" 7%nat (fresh 0)) in
  let st1 := refresh 3000 st in
  let st2 := refresh 6000 st1 in
  (forall a, In a (staleAddresses 3000 st) ->
             In a (staleAddresses 6000 st1)) /\
  RequestQueue.outstanding (queue st2) =
    RequestQueue.outstanding (queue st) ++
    map FetchBatch (batches (staleAddresses 3000 st)) ++
    map FetchBatch (batches (staleAddresses 6000 st1)).
Proof.
  apply (unanswered_refreshes_pile_up 3000 6000
           (fst (subscribe 1 "Mint1" 7%nat (fresh 0)))).
  lia.
Defined.

(** X11: how long a token is left alone after a batch response.  A token
    the response holds a pair for is selected by a tick exactly when it has
    a subscriber set and 3000 ms have passed since the response was
    handled: the tick that comes 3000 ms after the tick that asked passes
    it over, the response having come in after the asking tick.  A token
    the response leaves out is selected as it would have been without the
    response. *)
Theorem refreshed_token_waits_a_full_interval
  (addresses : list string) (pairs : list DexScreenerPair) (handled : Z)
  (st : State) :
  let st' := fetchBatch addresses (Json (Some pairs)) handled st in
  subscribers st' = subscribers st /\
  (forall a, In a (map baseAddress pairs) ->
     (forall now,
        In a (staleAddresses now st') <->
        is_Some (subscribers st !! a) /\ handled + 3000 <= now) /\
     (forall asked,
        asked < handled -> ~ In a (staleAddresses (asked + 3000) st'))) /\
  (forall a, ~ In a (map baseAddress pairs) ->
     forall now,
       In a (staleAddresses now st') <-> In a (staleAddresses now st)).
Proof.
  intros st'. subst st'. cbn [fetchBatch].
  destruct (bestSoFar_pairsByAddress pairs) as (Hnd & Hbest & Hall).
  destruct (fold_cacheAndNotify handled (pairsByAddress pairs) st Hnd)
    as (_ & Hlu & Hsub & _).
  split; [exact Hsub |]. split.
  - intros a Hin. apply in_map_iff in Hin as (p & <- & Hp).
    assert (Hnow : forall now,
              In (baseAddress p)
                (staleAddresses now
                   (fold_left
                      (fun st entry =>
                         cacheAndNotify (fst entry) (snd entry) handled st)
                      (pairsByAddress pairs) st)) <->
              is_Some (subscribers st !! baseAddress p) /\
              handled + 3000 <= now).
    { intros now. rewrite staleAddresses_In, Hlu, Hsub.
      destruct (Js.map_get (baseAddress p) (pairsByAddress pairs)) eqn:Hget;
        [| now destruct (Hall p Hp)].
      cbn. intuition lia. }
    split; [exact Hnow |].
    intros asked Hasked Hsel. apply Hnow in Hsel. lia.
  - intros a Hout now. rewrite !staleAddresses_In, Hlu, Hsub.
    destruct (Js.map_get a (pairsByAddress pairs)) as [best |] eqn:Hget;
      [| reflexivity].
    destruct (Hbest _ _ Hget) as (Hin & Haddr & _).
    exfalso. apply Hout. apply in_map_iff. eauto.
Qed.

(** *** Responses that bring nothing *)

(** X12: an outage loses no data.  When the request fails, the response is
    not [ok] or the body has no pairs, the single fetch resolves to [null],
    and neither it nor the batch fetch nor the initial fetch of a
    subscription touches the cache, the last-update times or the
    subscribers, or calls any callback: [getTokenData] goes on returning the
    last snapshot.  A failure or a response that is not [ok] leaves exactly
    one message on the error console, a body without pairs none. *)
Theorem failed_fetch_keeps_the_cache
  (response : Response) (address : string) (addresses : list string)
  (callback : Js.Callback) (now : Z) (st : State) :
  unsuccessful response = true ->
  let quiet (st' : State) :=
    tokenData st' = tokenData st /\ lastUpdateTime st' = lastUpdateTime st /\
    subscribers st' = subscribers st /\ delivered st' = delivered st /\
    queue st' = queue st /\
    (forall a, getTokenData a st' = getTokenData a st) in
  let logged (message : string) (st' : State) :=
    consoleErrors st' =
    consoleErrors st ++
    match response with
    | NetworkFailure | NotOk => [message]
    | Json _ => []
    end in
  snd (fetchTokenData address response now st) = None /\
  quiet (fst (fetchTokenData address response now st)) /\
  logged "Error fetching token data:"
    (fst (fetchTokenData address response now st)) /\
  quiet (fetchBatch addresses response now st) /\
  logged "Error updating batch:" (fetchBatch addresses response now st) /\
  quiet (initialFetch address callback response now st) /\
  logged "Error fetching token data:"
    (initialFetch address callback response now st).
Proof.
  intros Hun quiet logged. subst quiet logged. cbv beta.
  destruct response as [| | [[| first others] |]]; try discriminate;
    cbn; rewrite ?app_nil_r; repeat split; reflexivity.
Qed.

Lemma failed_fetch_witness :
  let st := fst (fetchTokenData "mint1" (Json (Some [deepPair])) 5 (fresh 0)) in
  snd (fetchTokenData "mint1" NotOk 9 st) = None /\
  getTokenData "MINT1" (fst (fetchTokenData "mint1" NotOk 9 st)) =
    Some deepPair /\
  consoleErrors (fst (fetchTokenData "mint1" NotOk 9 st)) =
    ["Error fetching token data:"].
Proof.
  pose proof (failed_fetch_keeps_the_cache NotOk "mint1" ["mint1"] 1%nat 9
                (fst (fetchTokenData "mint1" (Json (Some [deepPair])) 5
                        (fresh 0))) eq_refl) as H.
  cbv zeta in H. destruct H as (Hnull & (_ & _ & _ & _ & _ & Hget) & Hlog & _).
  split; [exact Hnull |]. split; [| exact Hlog].
  rewrite Hget. reflexivity.
Defined.


(** *** The initial fetch of a subscription *)

Lemma subscribe_state (now : Z) (address : string) (callback : Js.Callback)
  (st : State) :
  let a := Js.toLowerCase address in
  let st1 := fst (subscribe now address callback st) in
  subscribers st1 !! a =
    Some (Js.set_add callback (default [] (subscribers st !! a))) /\
  (forall b, b <> a -> subscribers st1 !! b = subscribers st !! b) /\
  tokenData st1 = tokenData st /\ lastUpdateTime st1 = lastUpdateTime st /\
  delivered st1 = delivered st /\ consoleErrors st1 = consoleErrors st.
Proof.
  cbv zeta. unfold subscribe.
  cbn [fst queueRequest setQueue setSubscribers subscribers tokenData
       lastUpdateTime delivered consoleErrors].
  split; [| split; [| auto]].
  - rewrite lookup_alter_eq.
    destruct (subscribers st !! Js.toLowerCase address) as [s |] eqn:E.
    + now rewrite E.
    + now rewrite lookup_insert_eq.
  - intros b Hb. rewrite lookup_alter_ne by congruence.
    destruct (subscribers st !! Js.toLowerCase address); [reflexivity |].
    now rewrite lookup_insert_ne by congruence.
Qed.

Lemma initialFetch_success (normalizedAddress : string)
  (callback : Js.Callback) (first : DexScreenerPair)
  (others : list DexScreenerPair) (now : Z) (st : State) :
  exists best,
    In best (first :: others) /\
    let st' :=
      initialFetch normalizedAddress callback (Json (Some (first :: others)))
        now st in
    tokenData st' = <[Js.toLowerCase normalizedAddress := best]> (tokenData st) /\
    lastUpdateTime st' =
      <[Js.toLowerCase normalizedAddress := now]> (lastUpdateTime st) /\
    subscribers st' = subscribers st /\
    delivered st' =
      delivered st ++
      notifications (subscribers st) (Js.toLowerCase normalizedAddress) best ++
      [(callback, best)].
Proof.
  destruct (sort_head_highest (first :: others)) as (top & Hhd & Hin & _);
    [discriminate |].
  unfold initialFetch, fetchTokenData.
  destruct (Js.sort byLiquidityDescending (first :: others))
    as [| top' rest]; [discriminate |].
  cbn in Hhd. injection Hhd as ->.
  exists top. split; [exact Hin |].
  cbn [cacheAndNotify tokenData lastUpdateTime subscribers delivered].
  rewrite <- app_assoc. auto.
Qed.

Lemma unsubscribe_delivered (address : string) (callback : Js.Callback)
  (st : State) :
  delivered (unsubscribe address callback st) = delivered st.
Proof.
  unfold unsubscribe. now destruct (_ !! _) as [[| c rest] |].
Qed.

(** X13: a new subscriber is handed its first snapshot twice.  When the
    initial fetch of a subscription finds pairs while the callback is still
    subscribed, the fetch calls every subscriber of the token with the pair
    it selected, the new callback among them, and the queued request then
    calls the new callback with the same pair once more. *)
Theorem new_subscriber_gets_first_snapshot_twice
  (now handled : Z) (address : string) (callback : Js.Callback)
  (first : DexScreenerPair) (others : list DexScreenerPair) (st : State) :
  let a := Js.toLowerCase address in
  let st1 := fst (subscribe now address callback st) in
  let st2 :=
    initialFetch a callback (Json (Some (first :: others))) handled st1 in
  exists (best : DexScreenerPair) (before after : list Js.Callback),
    In best (first :: others) /\
    subscribers st1 !! a = Some (before ++ callback :: after) /\
    delivered st2 =
      delivered st ++
      map (fun c => (c, best)) before ++ [(callback, best)] ++
      map (fun c => (c, best)) after ++ [(callback, best)] /\
    tokenData st2 !! a = Some best.
Proof.
  intros a st1 st2.
  destruct (subscribe_state now address callback st)
    as (Hsub & _ & _ & _ & Hdel & _).
  fold a st1 in Hsub, Hdel.
  destruct (initialFetch_success a callback first others handled st1)
    as (best & Hin & Htd & _ & _ & Hd).
  fold st2 in Htd, Hd.
  assert (Ha : Js.toLowerCase a = a) by apply toLowerCase_idempotent.
  rewrite Ha in Htd, Hd.
  destruct (in_split callback _ (set_add_In callback
                                   (default [] (subscribers st !! a))))
    as (before & after & Hsplit).
  exists best, before, after. split; [exact Hin |].
  split; [now rewrite Hsub, Hsplit |]. split.
  - rewrite Hd, Hdel. unfold notifications. rewrite Hsub, Hsplit.
    rewrite map_app. cbn [map]. now rewrite <- !app_assoc.
  - rewrite Htd. apply lookup_insert_eq.
Qed.

(** X14: unsubscribing does not cancel the initial fetch.  When a
    subscription to a token without other subscribers is cancelled before
    its initial fetch is answered, the answer still calls the cancelled
    callback, once, and caches the snapshot and its time under the token,
    which has no subscriber. *)
Theorem cancelled_subscription_still_gets_its_initial_fetch
  (now handled : Z) (address : string) (callback : Js.Callback)
  (first : DexScreenerPair) (others : list DexScreenerPair) (st : State) :
  let a := Js.toLowerCase address in
  subscribers st !! a = None ->
  let subscribed := subscribe now address callback st in
  let st2 := snd subscribed (fst subscribed) in
  let st3 :=
    initialFetch a callback (Json (Some (first :: others))) handled st2 in
  subscribers st2 !! a = None /\
  exists best : DexScreenerPair,
    In best (first :: others) /\
    delivered st3 = delivered st ++ [(callback, best)] /\
    subscribers st3 !! a = None /\
    tokenData st3 !! a = Some best /\
    lastUpdateTime st3 !! a = Some handled /\
    getTokenData address st3 = Some best.
Proof.
  intros a Hnone subscribed st2 st3.
  destruct (subscribe_state now address callback st)
    as (Hsub & _ & _ & _ & Hdel & _).
  fold a in Hsub. rewrite Hnone in Hsub. cbn in Hsub.
  assert (Ha : Js.toLowerCase a = a) by apply toLowerCase_idempotent.
  assert (Hst2 : subscribers st2 !! a = None /\ delivered st2 = delivered st).
  { subst st2 subscribed. cbn [snd subscribe].
    pose proof (unsubscribe_spec a callback
                  (fst (subscribe now address callback st)) [callback])
      as Hun.
    rewrite Ha in Hun. specialize (Hun Hsub). cbv zeta in Hun.
    unfold Js.set_delete in Hun. cbn [List.filter] in Hun.
    rewrite Nat.eqb_refl in Hun. cbn [negb] in Hun.
    fold a. split; [apply Hun |].
    now rewrite unsubscribe_delivered. }
  destruct Hst2 as (Hs2 & Hd2). split; [exact Hs2 |].
  destruct (initialFetch_success a callback first others handled st2)
    as (best & Hin & Htd & Hlu & Hs & Hd).
  fold st3 in Htd, Hlu, Hs, Hd. rewrite Ha in Htd, Hlu, Hd.
  exists best. split; [exact Hin |].
  split.
  { rewrite Hd, Hd2. unfold notifications. now rewrite Hs2. }
  split; [now rewrite Hs |].
  split; [rewrite Htd; apply lookup_insert_eq |].
  split; [rewrite Hlu; apply lookup_insert_eq |].
  unfold getTokenData. fold a. rewrite Htd. apply lookup_insert_eq.
Qed.

Lemma cancelled_subscription_witness :
  let subscribed := subscribe 1 "Mint1" 7%nat (fresh 0) in
  let st2 := snd subscribed (fst subscribed) in
  let st3 :=
    initialFetch "mint1" 7%nat (Json (Some [shallowPair; deepPair])) 9 st2 in
  subscribers st2 !! "mint1" = None /\
  exists best : DexScreenerPair,
    In best [shallowPair; deepPair] /\
    delivered st3 = delivered (fresh 0) ++ [(7%nat, best)] /\
    subscribers st3 !! "mint1" = None /\
    tokenData st3 !! "mint1" = Some best /\
    lastUpdateTime st3 !! "mint1" = Some 9 /\
    getTokenData "Mint1" st3 = Some best.
Proof.
  exact (cancelled_subscription_still_gets_its_initial_fetch 1 9 "Mint1"
           7%nat shallowPair [deepPair] (fresh 0) eq_refl).
Defined.

End RefreshFacts.

(** ** The limiter shared by the queue and the requests *)

Section LimiterSharing.
Import Dex Service.

(** X15: a queued request is counted twice by the rate limiter, once by
    the drain of the queue before it invokes the request and once by the
    request itself before its network call.  From an idle queue and within
    one window: when at least two requests are left in the window, the
    request goes out and the count has gone up by two; when one is left, the
    drain takes it and invokes the request, which finds the window full and
    sleeps until the window is over. *)
Theorem queued_request_is_counted_twice
  (now invokedAt : Z) (request : Request) (st : State) :
  let rl := RequestQueue.rateLimiter (queue st) in
  RequestQueue.drains (queue st) = [] ->
  RequestQueue.requestQueue (queue st) = [] ->
  RequestQueue.isProcessingQueue (queue st) = false ->
  now - RateLimiter.lastReset rl < RateLimiter.resetInterval ->
  invokedAt - RateLimiter.lastReset rl < RateLimiter.resetInterval ->
  RateLimiter.requests rl < RateLimiter.limit rl ->
  let st1 := queueRequest now request st in
  let st2 :=
    setQueue (RequestQueue.resume invokedAt 0 RequestQueue.Fulfilled
                (queue st1)) st1 in
  let acquired := acquire invokedAt st2 in
  let rl' := RequestQueue.rateLimiter (queue (fst acquired)) in
  RequestQueue.granted (queue st1) =
    RequestQueue.granted (queue st) ++ [request] /\
  RequestQueue.invoked (queue st2) =
    RequestQueue.invoked (queue st) ++ [request] /\
  (RateLimiter.requests rl + 2 <= RateLimiter.limit rl ->
   snd acquired = RateLimiter.Granted /\
   RateLimiter.requests rl' = RateLimiter.requests rl + 2) /\
  (RateLimiter.requests rl + 1 = RateLimiter.limit rl ->
   snd acquired =
     RateLimiter.Sleep
       (RateLimiter.resetInterval -
        (invokedAt - RateLimiter.lastReset rl)) /\
   RateLimiter.requests rl' = RateLimiter.limit rl).
Proof.
  intros rl Hd Hq Hflag Hnow Hinv Hroom st1 st2 acquired rl'.
  set (rl1 := {| RateLimiter.requests := RateLimiter.requests rl + 1;
                 RateLimiter.lastReset := RateLimiter.lastReset rl;
                 RateLimiter.limit := RateLimiter.limit rl |}).
  assert (A1 : RateLimiter.attempt now rl = (rl1, RateLimiter.Granted)).
  { unfold RateLimiter.attempt.
    apply Z.leb_gt in Hnow. rewrite Hnow.
    assert (E : (RateLimiter.limit rl <=? RateLimiter.requests rl) = false)
      by now apply Z.leb_gt.
    now rewrite E. }
  assert (A2 : RateLimiter.attempt invokedAt rl1 =
               if RateLimiter.limit rl <=? RateLimiter.requests rl + 1
               then (rl1, RateLimiter.Sleep
                            (RateLimiter.resetInterval -
                             (invokedAt - RateLimiter.lastReset rl)))
               else ({| RateLimiter.requests := RateLimiter.requests rl + 1 + 1;
                        RateLimiter.lastReset := RateLimiter.lastReset rl;
                        RateLimiter.limit := RateLimiter.limit rl |},
                     RateLimiter.Granted)).
  { unfold RateLimiter.attempt. cbn [RateLimiter.lastReset rl1].
    apply Z.leb_gt in Hinv. now rewrite Hinv. }
  assert (E1 : queue st1 =
               {| RequestQueue.requestQueue := [];
                  RequestQueue.isProcessingQueue := true;
                  RequestQueue.rateLimiter := rl1;
                  RequestQueue.drains :=
                    [RequestQueue.AwaitLimiter request RateLimiter.Granted];
                  RequestQueue.granted :=
                    RequestQueue.granted (queue st) ++ [request];
                  RequestQueue.invoked := RequestQueue.invoked (queue st);
                  RequestQueue.consoleErrors :=
                    RequestQueue.consoleErrors (queue st) |}).
  { subst st1. unfold queueRequest. cbn [setQueue queue].
    unfold RequestQueue.queueRequest, RequestQueue.processQueue.
    cbn [RequestQueue.isProcessingQueue RequestQueue.requestQueue].
    rewrite Hflag, Hq.
    cbn [app orb List.length Nat.eqb RequestQueue.loopHead
         RequestQueue.requestQueue RequestQueue.rateLimiter].
    fold rl. rewrite A1.
    cbn [RequestQueue.setDrains RequestQueue.drains RequestQueue.granted
         RequestQueue.requestQueue RequestQueue.isProcessingQueue
         RequestQueue.rateLimiter RequestQueue.invoked
         RequestQueue.consoleErrors].
    now rewrite Hd. }
  assert (E2 : queue st2 =
               {| RequestQueue.requestQueue := [];
                  RequestQueue.isProcessingQueue := true;
                  RequestQueue.rateLimiter := rl1;
                  RequestQueue.drains := [RequestQueue.AwaitRequest request];
                  RequestQueue.granted :=
                    RequestQueue.granted (queue st) ++ [request];
                  RequestQueue.invoked :=
                    RequestQueue.invoked (queue st) ++ [request];
                  RequestQueue.consoleErrors :=
                    RequestQueue.consoleErrors (queue st) |}).
  { subst st2. cbn [setQueue queue]. rewrite E1. reflexivity. }
  split; [now rewrite E1 |]. split; [now rewrite E2 |].
  subst rl' acquired. unfold acquire. rewrite E2.
  cbn [RequestQueue.rateLimiter]. rewrite A2.
  split.
  - intros Htwo.
    assert (E : (RateLimiter.limit rl <=? RateLimiter.requests rl + 1) = false)
      by (apply Z.leb_gt; lia).
    rewrite E. cbn. split; [reflexivity | lia].
  - intros Hone.
    assert (E : (RateLimiter.limit rl <=? RateLimiter.requests rl + 1) = true)
      by (apply Z.leb_le; lia).
    rewrite E. cbn. split; [reflexivity | lia].
Qed.

Lemma queued_request_witness :
  let st := fresh 0 in
  let st1 := queueRequest 10 (FetchBatch ["aa"]) st in
  let st2 :=
    setQueue (RequestQueue.resume 11 0 RequestQueue.Fulfilled (queue st1))
      st1 in
  let acquired := acquire 11 st2 in
  RequestQueue.granted (queue st1) = [FetchBatch ["aa"]] /\
  RequestQueue.invoked (queue st2) = [FetchBatch ["aa"]] /\
  snd acquired = RateLimiter.Granted /\
  RateLimiter.requests (RequestQueue.rateLimiter (queue (fst acquired))) = 2.
Proof.
  pose proof (queued_request_is_counted_twice 10 11 (FetchBatch ["aa"])
                (fresh 0) eq_refl eq_refl eq_refl eq_refl eq_refl eq_refl)
    as H.
  cbv zeta in H. destruct H as (Hg & Hi & Htwo & _).
  split; [exact Hg |]. split; [exact Hi |].
  apply Htwo. vm_compute. discriminate.
Defined.

End LimiterSharing.

(** ** A limiter without capacity *)

Section LimiterEdge.
Import RateLimiter.

(** A limiter that is full and has no capacity sleeps, and stays so. *)
Lemma attempt_without_capacity (now : Z) (rl : state) :
  limit rl <= 0 -> limit rl <= requests rl ->
  exists rl' waitTime,
    attempt now rl = (rl', Sleep waitTime) /\
    limit rl' = limit rl /\ limit rl' <= requests rl' /\
    (lastReset rl <= now -> 0 < waitTime <= resetInterval).
Proof.
  intros Hcap Hfull. unfold attempt, resetInterval.
  destruct (Z.leb_spec 60000 (now - lastReset rl)) as [Hover | Hin];
    cbn [requests lastReset limit].
  - destruct (Z.leb_spec (limit rl) 0); [| lia].
    do 2 eexists. split; [reflexivity |]. cbn. repeat split; lia.
  - destruct (Z.leb_spec (limit rl) (requests rl)); [| lia].
    do 2 eexists. split; [reflexivity |]. repeat split; lia.
Qed.

(** X16: a limiter built with a limit of zero (or less) never lets a
    request through.  Every evaluation of its body ends in a sleep, of a
    positive time of at most one window when the clock has not gone back
    behind the start of the window; [waitForAvailability] does not return
    within any number of retries, and no request is ever counted, whatever
    the callers and the clock do. *)
Theorem limiter_without_capacity_never_grants
  (limitPerMinute created : Z) :
  limitPerMinute <= 0 ->
  let rl := create limitPerMinute created in
  (forall now, created <= now ->
     exists rl' waitTime,
       attempt now rl = (rl', Sleep waitTime) /\
       0 < waitTime <= resetInterval) /\
  (forall (fuel : nat) (now : Z), waitForAvailability fuel now rl = None) /\
  (forall times : list Z, snd (run times rl) = []).
Proof.
  intros Hcap rl.
  assert (Hrl : limit rl <= 0 /\ limit rl <= requests rl) by (cbn; lia).
  split; [| split].
  - intros now Hnow.
    destruct (attempt_without_capacity now rl) as (rl' & w & E & _ & _ & Hw);
      try apply Hrl.
    exists rl', w. split; [exact E |]. now apply Hw.
  - intros fuel. clearbody rl. revert rl Hrl.
    induction fuel as [| fuel IH]; intros rl [Hc Hf] now; [reflexivity |].
    cbn [waitForAvailability].
    destruct (attempt_without_capacity now rl Hc Hf)
      as (rl' & w & -> & Hl & Hf' & _).
    apply IH. split; [lia | exact Hf'].
  - intros times. clearbody rl. revert rl Hrl.
    induction times as [| now times IH]; intros rl [Hc Hf]; [reflexivity |].
    cbn [run].
    destruct (attempt_without_capacity now rl Hc Hf)
      as (rl' & w & -> & Hl & Hf' & _).
    specialize (IH rl' ltac:(split; [lia | exact Hf'])).
    destruct (run times rl') as [rl2 log]. exact IH.
Qed.

Lemma limiter_without_capacity_witness :
  (forall now, 5 <= now ->
     exists rl' waitTime,
       attempt now (create 0 5) = (rl', Sleep waitTime) /\
       0 < waitTime <= resetInterval) /\
  (forall (fuel : nat) (now : Z),
     waitForAvailability fuel now (create 0 5) = None) /\
  (forall times : list Z, snd (run times (create 0 5)) = []).
Proof.
  apply (limiter_without_capacity_never_grants 0 5). lia.
Defined.

End LimiterEdge.

(** ** The queue never strands a request *)

Section QueueLiveness.
Import RequestQueue.
Context {T : Type}.

Lemma neverStranded_queueRequest (enq : list T) (st : State T) (now : Z)
  (request : T) :
  queueInvariant enq st -> neverStranded (queueRequest now request st).
Proof.
  intros ([(Hd & Hflag) | (d & Hd & Hflag)] & _).
  - unfold neverStranded, queueRequest, processQueue.
    cbn [isProcessingQueue requestQueue]. rewrite Hflag.
    destruct (requestQueue st ++ [request]) as [| r rest] eqn:E.
    { now destruct (requestQueue st). }
    cbn [orb List.length Nat.eqb loopHead requestQueue rateLimiter].
    destruct (RateLimiter.attempt now (rateLimiter st)) as [rl a].
    cbn [setDrains drains requestQueue]. rewrite Hd. discriminate.
  - unfold neverStranded, queueRequest, processQueue.
    cbn [isProcessingQueue requestQueue]. rewrite Hflag.
    cbn [orb drains]. rewrite Hd. discriminate.
Qed.

Lemma neverStranded_resume (st : State T) (now : Z) (i : nat)
  (outcome : Settled) :
  neverStranded st -> neverStranded (resume now i outcome st).
Proof.
  intros Hst. unfold neverStranded, resume.
  destruct (drains st !! i) as [[request [| waitTime] | request] |] eqn:Hi;
    [| | | exact Hst].
  - cbn [drains requestQueue]. intros E.
    apply (f_equal List.length) in E. rewrite length_insert in E.
    apply lookup_lt_Some in Hi. cbn in E. lia.
  - destruct (RateLimiter.attempt now (rateLimiter st)) as [rl a].
    cbn [drains requestQueue]. intros E.
    apply (f_equal List.length) in E. rewrite length_insert in E.
    apply lookup_lt_Some in Hi. cbn in E. lia.
  - unfold loopHead. cbn [requestQueue rateLimiter].
    destruct (requestQueue st) as [| r rest]; [reflexivity |].
    destruct (RateLimiter.attempt now (rateLimiter st)) as [rl a].
    cbn [setDrains drains requestQueue]. intros E.
    apply (f_equal List.length) in E. rewrite length_insert in E.
    apply lookup_lt_Some in Hi. cbn in E. lia.
Qed.

Lemma neverStranded_run (events : list (Event T)) :
  forall (enq : list T) (st : State T),
    queueInvariant enq st -> neverStranded st ->
    neverStranded (run events st).
Proof.
  induction events as [| ev events IH]; intros enq st Hinv Hst; [exact Hst |].
  cbn [run fold_left].
  destruct ev as [now request | now i outcome]; cbn [step].
  - apply (IH (enq ++ [request])).
    + now apply queueInvariant_queueRequest.
    + now apply (neverStranded_queueRequest enq).
  - apply (IH enq).
    + now apply queueInvariant_resume.
    + now apply neverStranded_resume.
Qed.


(** X17: the queue never strands a request.  After any sequence of
    requests handed over and of continuations of the drain, a request that
    waits in the queue is covered by the one suspended drain, which will
    come to it; when no drain is running, nothing waits.  A request handed
    to an idle queue starts a drain at once, which takes it to the limiter;
    a request handed over while a drain runs is put behind the waiting ones
    and nothing else happens. *)
Theorem queue_never_strands_a_request
  (rl : RateLimiter.state) (events : list (Event T)) :
  let st := run events (init rl) in
  (requestQueue st <> [] ->
   exists d, drains st = [d] /\ isProcessingQueue st = true) /\
  (isProcessingQueue st = false -> requestQueue st = [] /\ drains st = []) /\
  (forall (now : Z) (request : T),
     isProcessingQueue st = false ->
     let st' := queueRequest now request st in
     drains st' =
       [AwaitLimiter request
          (snd (RateLimiter.attempt now (rateLimiter st)))] /\
     requestQueue st' = [] /\ isProcessingQueue st' = true /\
     invoked st' = invoked st) /\
  (forall (now : Z) (request : T),
     isProcessingQueue st = true ->
     queueRequest now request st =
     {| requestQueue := requestQueue st ++ [request];
        isProcessingQueue := true;
        rateLimiter := rateLimiter st;
        drains := drains st;
        granted := granted st;
        invoked := invoked st;
        consoleErrors := consoleErrors st |}).
Proof.
  intros st.
  pose proof (queueInvariant_run events [] (init rl) (queueInvariant_init rl))
    as (Hd & _).
  pose proof (neverStranded_run events [] (init rl) (queueInvariant_init rl)
                (fun _ => eq_refl)) as Hns.
  fold st in Hd, Hns. unfold neverStranded in Hns.
  assert (Hidle : isProcessingQueue st = false ->
                  requestQueue st = [] /\ drains st = []).
  { intros Hflag. destruct Hd as [[Hd _] | (d & _ & Hbusy)]; [auto | congruence]. }
  split; [| split; [exact Hidle | split]].
  - intros Hq. destruct Hd as [[Hd _] | (d & Hd & Hflag)]; [| eauto].
    now destruct (Hq (Hns Hd)).
  - intros now request Hflag st'. destruct (Hidle Hflag) as [Hq Hdr].
    subst st'. unfold queueRequest, processQueue.
    cbn [isProcessingQueue requestQueue]. rewrite Hflag, Hq.
    cbn [app orb List.length Nat.eqb loopHead requestQueue rateLimiter].
    destruct (RateLimiter.attempt now (rateLimiter st)) as [rl' a].
    cbn [setDrains drains requestQueue isProcessingQueue invoked snd].
    now rewrite Hdr.
  - intros now request Hflag. unfold queueRequest, processQueue.
    cbn [isProcessingQueue requestQueue]. now rewrite Hflag.
Qed.

End QueueLiveness.

(** ** The price history of a card ([components/trading-card.tsx]) *)

Section PriceHistory.
Import TradingCard.

Lemma sliceLast_length {A : Type} (n : nat) (l : list A) :
  List.length (sliceLast n l) = Nat.min n (List.length l).
Proof. unfold sliceLast. rewrite length_skipn. lia. Qed.

Lemma pushPrice_cases (now : Z) (newPrice : float) (prev : list PricePoint) :
  (exists lastPoint,
     prev !! (List.length prev - 1)%nat = Some lastPoint /\
     PrimFloat.eqb (price lastPoint) newPrice = true /\
     pushPrice now newPrice prev = prev) \/
  (pushPrice now newPrice prev =
     sliceLast 50 (prev ++ [ {| timestamp := now; price := newPrice |} ]) /\
   forall lastPoint,
     prev !! (List.length prev - 1)%nat = Some lastPoint ->
     PrimFloat.eqb (price lastPoint) newPrice = false).
Proof.
  unfold pushPrice.
  destruct (prev !! (List.length prev - 1)%nat) as [lastPoint |].
  - destruct (PrimFloat.eqb (price lastPoint) newPrice) eqn:E.
    + left. eauto.
    + right. split; [reflexivity |]. now intros ? [= <-].
  - right. split; [reflexivity | discriminate].
Qed.

Lemma pushPrice_invariant (now : Z) (newPrice : float)
  (prev : list PricePoint) :
  (List.length prev <= 50)%nat -> noRepeats prev ->
  (List.length (pushPrice now newPrice prev) <= 50)%nat /\
  noRepeats (pushPrice now newPrice prev).
Proof.
  intros Hlen Hrep.
  destruct (pushPrice_cases now newPrice prev)
    as [(lastPoint & _ & _ & ->) | (-> & Hlast)]; [auto |].
  split; [rewrite sliceLast_length; lia |].
  unfold noRepeats, sliceLast. intros i p q.
  rewrite !lookup_drop, length_app. cbn [List.length].
  set (k := (List.length prev + 1 - 50)%nat).
  intros Hp Hq.
  destruct (Nat.lt_ge_cases (k + S i) (List.length prev)) as [Hin | Hout].
  - rewrite lookup_app_l in Hp, Hq by lia.
    replace (k + S i)%nat with (S (k + i)) in Hq by lia.
    exact (Hrep _ _ _ Hp Hq).
  - assert (Hq' := lookup_lt_Some _ _ _ Hq).
    rewrite length_app in Hq'. cbn [List.length] in Hq'.
    assert (Hi : (k + S i = List.length prev)%nat) by lia.
    rewrite lookup_app_l in Hp by lia.
    rewrite lookup_app_r in Hq by lia.
    replace (k + S i - List.length prev)%nat with 0%nat in Hq by lia.
    injection Hq as <-. cbn [price].
    apply Hlast. rewrite <- Hp. f_equal. lia.
Qed.

(** X18: the price history of a card.  Whatever prices come in, the
    history never holds more than 50 points, and no two neighbouring points
    carry the same price: a price equal to the last one recorded is not
    recorded again.  After an update the last point carries the price of
    the update (or one equal to it, recorded before). *)
Theorem price_history_is_bounded_without_repeats
  (updates : list (Z * float)) :
  let h := history updates in
  (List.length h <= 50)%nat /\
  (forall (i : nat) (p q : PricePoint),
     h !! i = Some p -> h !! S i = Some q ->
     PrimFloat.eqb (price p) (price q) = false) /\
  (forall (earlier : list (Z * float)) (u : Z * float),
     updates = earlier ++ [u] ->
     exists p, h !! (List.length h - 1)%nat = Some p /\
               (price p = snd u \/ PrimFloat.eqb (price p) (snd u) = true)).
Proof.
  intros h.
  assert (Hinv : forall (updates : list (Z * float)) (h0 : list PricePoint),
             (List.length h0 <= 50)%nat -> noRepeats h0 ->
             let h := fold_left (fun prev u => pushPrice (fst u) (snd u) prev)
                        updates h0 in
             (List.length h <= 50)%nat /\ noRepeats h).
  { clear. induction updates as [| u updates IH]; intros h0 Hlen Hrep;
      [split; assumption |].
    cbn [fold_left].
    destruct (pushPrice_invariant (fst u) (snd u) h0 Hlen Hrep). now apply IH. }
  destruct (Hinv updates []) as [Hlen Hrep];
    [cbn; lia | intros i p q Hp; now rewrite lookup_nil in Hp |].
  fold (history updates) in Hlen, Hrep. fold h in Hlen, Hrep.
  split; [exact Hlen |]. split; [exact Hrep |].
  intros earlier u ->. subst h. unfold history. rewrite fold_left_app.
  cbn [fold_left]. fold (history earlier).
  destruct (pushPrice_cases (fst u) (snd u) (history earlier))
    as [(lastPoint & Hl & Heq & ->) | (-> & _)].
  - exists lastPoint. auto.
  - exists {| timestamp := fst u; price := snd u |}.
    split; [| left; reflexivity].
    unfold sliceLast. rewrite lookup_drop, length_skipn, length_app.
    cbn [List.length].
    rewrite lookup_app_r by lia.
    match goal with
    | |- [?x] !! ?n = _ => replace n with 0%nat by lia
    end.
    reflexivity.
Qed.

End PriceHistory.

(** ** The trade log of the page *)

Section TradeLogFacts.
Import Position Page.

Lemma handleTrade_tradesLogged (parseFloat : string -> float)
  (tokenData : option Dex.DexScreenerPair) (newId : string) (now : Z)
  (tokenAddress : string) (isBuy : bool) (usdAmount : float)
  (st : Position.State) :
  tradesLogged st ->
  tradesLogged
    (handleTrade parseFloat tokenData newId now tokenAddress isBuy usdAmount
       st).
Proof.
  intros Hst.
  destruct (handleTrade_cases parseFloat tokenData newId now tokenAddress
              isBuy usdAmount st)
    as [(_ & Et & Er) |
        (pair & trade & basis & _ & _ & Er & _ & _ & _ & _ & Et)].
  { unfold tradesLogged. now rewrite Et, Er. }
  cbv zeta in Et. unfold tradesLogged. rewrite Et, Er.
  apply List.Forall_forall. intros t' Hin.
  apply in_map_iff in Hin as (t & <- & Hin).
  pose proof (proj1 (List.Forall_forall _ _) Hst t Hin) as Ht.
  destruct (String.eqb _ _); cbn [tp_trades].
  - rewrite rev_app_distr. cbn [rev app]. now apply sublist_skip.
  - now apply sublist_cons.
Qed.

Lemma handlePriceUpdate_tradesLogged (address : string) (price : float)
  (st : Position.State) :
  tradesLogged st -> tradesLogged (handlePriceUpdate address price st).
Proof.
  intros Hst. unfold handlePriceUpdate.
  destruct (find _ (tokens st)) as [token |]; [| exact Hst].
  destruct (PrimFloat.eqb _ price); [exact Hst |].
  unfold tradesLogged. cbn [tokens trades].
  apply List.Forall_forall. intros t' Hin.
  apply in_map_iff in Hin as (t & <- & Hin).
  pose proof (proj1 (List.Forall_forall _ _) Hst t Hin) as Ht.
  now destruct (String.eqb _ _).
Qed.

Lemma addToken_tradesLogged (parseFloat : string -> float)
  (fetched : option Dex.DexScreenerPair) (st : State) :
  tradesLogged (trading st) ->
  tradesLogged (trading (addToken parseFloat fetched st)).
Proof.
  intros Hst. unfold addToken.
  destruct (6 <=? _)%nat; [exact Hst |].
  destruct (existsb _ _); [exact Hst |].
  destruct fetched as [tokenData |]; [| exact Hst].
  unfold tradesLogged. cbn [trading tokens trades].
  apply List.Forall_app. split; [exact Hst |].
  repeat constructor. cbn. apply sublist_nil_l.
Qed.

(** X19: the trade history shows every trade of every position.  After
    any session, the trades recorded under a position are all in the trade
    log of the page, in the same order (the log lists the newest trade
    first, a position its oldest). *)
Theorem position_trades_are_in_the_log
  (parseFloat : string -> float) (actions : list Action) :
  let st := trading (run parseFloat actions initial) in
  Forall (fun position =>
            sublist (rev (tp_trades position)) (trades st) /\
            forall trade,
              In trade (tp_trades position) -> In trade (trades st))
    (tokens st).
Proof.
  intros st.
  assert (Hrun : forall (actions : list Action) (st0 : State),
             tradesLogged (trading st0) ->
             tradesLogged (trading (run parseFloat actions st0))).
  { clear. induction actions as [| action actions IH]; intros st0 Hst;
      [exact Hst |].
    cbn [run fold_left]. apply IH.
    destruct action; cbn [step setNewAddress setTrading trading].
    - exact Hst.
    - now apply addToken_tradesLogged.
    - now apply handleTrade_tradesLogged.
    - now apply handlePriceUpdate_tradesLogged. }
  specialize (Hrun actions initial (List.Forall_nil _)). fold st in Hrun.
  apply List.Forall_forall. intros position Hin.
  pose proof (proj1 (List.Forall_forall _ _) Hrun position Hin) as Hsub.
  split; [exact Hsub |].
  intros trade Htrade. apply list_elem_of_In.
  eapply elem_of_sublist; [| exact Hsub].
  apply list_elem_of_In. now apply in_rev in Htrade.
Qed.

End TradeLogFacts.

(** ** The maps of the service *)

Section ServiceInvariant.
Import Dex Service.

Lemma mapsCoherent_frame (st st' : State) :
  tokenData st' = tokenData st -> lastUpdateTime st' = lastUpdateTime st ->
  subscribers st' = subscribers st ->
  mapsCoherent st -> mapsCoherent st'.
Proof. unfold mapsCoherent. now intros -> -> ->. Qed.

Lemma cacheAndNotify_coherent (address : string) (pair : DexScreenerPair)
  (now : Z) (st : State) :
  Js.toLowerCase address = address ->
  mapsCoherent st -> mapsCoherent (cacheAndNotify address pair now st).
Proof.
  intros Hlow (H1 & H2 & H3). unfold mapsCoherent.
  cbn [cacheAndNotify tokenData lastUpdateTime subscribers].
  split; [| split; [| exact H3]].
  - intros a. destruct (decide (address = a)) as [<- | Hne].
    + rewrite !lookup_insert_eq. split; eauto.
    + rewrite !lookup_insert_ne by assumption. apply H1.
  - intros a. destruct (decide (address = a)) as [<- | Hne].
    + intros _. exact Hlow.
    + rewrite lookup_insert_ne by assumption. apply H2.
Qed.

Lemma fetchTokenData_coherent (address : string) (response : Response)
  (now : Z) (st : State) :
  mapsCoherent st -> mapsCoherent (fst (fetchTokenData address response now st)).
Proof.
  intros Hst. unfold fetchTokenData.
  destruct response as [| | [[| first others] |]];
    try exact Hst.
  destruct (Js.sort _ _) as [| top rest]; [exact Hst |].
  cbn [fst]. apply cacheAndNotify_coherent; [| exact Hst].
  apply toLowerCase_idempotent.
Qed.

Lemma initialFetch_coherent (normalizedAddress : string)
  (callback : Js.Callback) (response : Response) (now : Z) (st : State) :
  mapsCoherent st ->
  mapsCoherent (initialFetch normalizedAddress callback response now st).
Proof.
  intros Hst. unfold initialFetch.
  pose proof (fetchTokenData_coherent normalizedAddress response now st Hst)
    as H.
  destruct (fetchTokenData normalizedAddress response now st) as [st' [data |]];
    exact H.
Qed.

Lemma fetchBatch_coherent (addresses : list string) (response : Response)
  (now : Z) (st : State) :
  mapsCoherent st -> mapsCoherent (fetchBatch addresses response now st).
Proof.
  intros (H1 & H2 & H3). unfold fetchBatch.
  destruct response as [| | [pairs |]];
    try exact (conj H1 (conj H2 H3)).
  destruct (bestSoFar_pairsByAddress pairs) as (Hnd & Hbest & _).
  destruct (fold_cacheAndNotify now (pairsByAddress pairs) st Hnd)
    as (Htd & Hlu & Hsub & _).
  unfold mapsCoherent. rewrite Hsub.
  split; [| split; [| exact H3]].
  - intros a. rewrite Htd, Hlu.
    destruct (Js.map_get a (pairsByAddress pairs)); [split; eauto | apply H1].
  - intros a. rewrite Htd.
    destruct (Js.map_get a (pairsByAddress pairs)) as [p |] eqn:Hget;
      [| apply H2].
    intros _. destruct (Hbest _ _ Hget) as (_ & <- & _).
    apply toLowerCase_idempotent.
Qed.

Lemma set_add_NoDup (c : Js.Callback) (s : list Js.Callback) :
  List.NoDup s -> List.NoDup (Js.set_add c s).
Proof.
  intros Hs. unfold Js.set_add, Js.set_has.
  destruct (existsb (Nat.eqb c) s) eqn:E; [exact Hs |].
  apply List.NoDup_app; [exact Hs | repeat constructor; intros [] |].
  intros x Hx [-> | []].
  assert (existsb (Nat.eqb x) s = true).
  { apply List.existsb_exists. exists x. split; [exact Hx |].
    apply Nat.eqb_refl. }
  congruence.
Qed.

Lemma subscribe_coherent (now : Z) (address : string)
  (callback : Js.Callback) (st : State) :
  mapsCoherent st -> mapsCoherent (fst (subscribe now address callback st)).
Proof.
  intros (H1 & H2 & H3).
  destruct (subscribe_state now address callback st)
    as (Hsub & Hother & Htd & Hlu & _).
  cbv zeta in Hsub, Hother. unfold mapsCoherent. rewrite Htd, Hlu.
  split; [exact H1 |]. split; [exact H2 |].
  intros a s. destruct (decide (a = Js.toLowerCase address)) as [-> | Hne].
  - rewrite Hsub. intros [= <-]. split; [| split].
    + intros E. pose proof (set_add_In callback
                              (default [] (subscribers st
                                           !! Js.toLowerCase address))) as Hin.
      rewrite E in Hin. destruct Hin.
    + apply set_add_NoDup.
      destruct (subscribers st !! Js.toLowerCase address) as [s |] eqn:E;
        [apply (H3 _ _ E) | constructor].
    + apply toLowerCase_idempotent.
  - rewrite Hother by assumption. apply H3.
Qed.

Lemma unsubscribe_coherent (address : string) (callback : Js.Callback)
  (st : State) :
  mapsCoherent st -> mapsCoherent (unsubscribe address callback st).
Proof.
  intros (H1 & H2 & H3). unfold unsubscribe.
  set (a := Js.toLowerCase address).
  assert (Halter : forall b s,
             alter (Js.set_delete callback) a (subscribers st) !! b = Some s ->
             b <> a -> s <> [] /\ List.NoDup s /\ Js.toLowerCase b = b).
  { intros b s Hb Hne. rewrite lookup_alter_ne in Hb by congruence.
    now apply H3. }
  destruct (alter (Js.set_delete callback) a (subscribers st) !! a)
    as [[| c rest] |] eqn:E.
  - unfold mapsCoherent. cbn [tokenData lastUpdateTime subscribers].
    split; [| split].
    + intros b. destruct (decide (a = b)) as [<- | Hne].
      * rewrite !lookup_delete_eq. split; intros [x Hx]; discriminate.
      * rewrite !lookup_delete_ne by assumption. apply H1.
    + intros b. destruct (decide (a = b)) as [<- | Hne].
      * rewrite lookup_delete_eq. intros [x Hx]. discriminate.
      * rewrite lookup_delete_ne by assumption. apply H2.
    + intros b s. destruct (decide (a = b)) as [<- | Hne].
      * rewrite lookup_delete_eq. discriminate.
      * rewrite lookup_delete_ne by assumption. intros Hb.
        apply (Halter b s Hb). congruence.
  - unfold mapsCoherent. cbn [setSubscribers tokenData lastUpdateTime subscribers].
    split; [exact H1 |]. split; [exact H2 |].
    intros b s. destruct (decide (b = a)) as [-> | Hne];
      [| intros Hb; now apply (Halter b s Hb)].
    rewrite E. intros [= <-].
    rewrite lookup_alter_eq in E.
    destruct (subscribers st !! a) as [s0 |] eqn:Hs0; [| discriminate].
    cbn in E. injection E as E.
    destruct (H3 _ _ Hs0) as (_ & Hnd & Hlow).
    split; [discriminate |]. split; [| exact Hlow].
    rewrite <- E. unfold Js.set_delete. now apply List.NoDup_filter.
  - unfold mapsCoherent. cbn [setSubscribers tokenData lastUpdateTime subscribers].
    split; [exact H1 |]. split; [exact H2 |].
    intros b s. destruct (decide (b = a)) as [-> | Hne];
      [| intros Hb; now apply (Halter b s Hb)].
    rewrite E. discriminate.
Qed.

Lemma step_coherent (st : State) (ev : Event) :
  mapsCoherent st -> mapsCoherent (step st ev).
Proof.
  intros Hst. destruct ev; cbn [step].
  - now apply subscribe_coherent.
  - now apply unsubscribe_coherent.
  - destruct (queueBatches_spec now (staleAddresses now st) st)
      as (_ & Hs & Ht & Hl & _).
    now apply (mapsCoherent_frame st).
  - apply (mapsCoherent_frame st); try assumption;
      unfold updateBatch; now destruct addresses.
  - now apply (mapsCoherent_frame st).
  - apply (mapsCoherent_frame st); try assumption;
      unfold acquire; now destruct (RateLimiter.attempt _ _).
  - now apply fetchTokenData_coherent.
  - now apply fetchBatch_coherent.
  - now apply initialFetch_coherent.
Qed.

(** X20: the maps of the service stay in step.  After any sequence of
    subscriptions, cancellations, refresh ticks, calls of [updateBatch] on
    whatever chunk, queue continuations and responses, from the service as
    constructed: a token has a cached
    snapshot exactly when it has a last-update time; every key of the cache
    and of the subscriber map is in lower case, so that [getTokenData]
    finds every cached snapshot under its key; and every subscriber set
    that is kept holds at least one callback and none twice. *)
Theorem service_maps_stay_coherent (created : Z) (events : list Event) :
  let st := run events (fresh created) in
  (forall a, is_Some (tokenData st !! a) <-> is_Some (lastUpdateTime st !! a)) /\
  (forall a p, tokenData st !! a = Some p ->
     Js.toLowerCase a = a /\ getTokenData a st = Some p) /\
  (forall a s, subscribers st !! a = Some s ->
     s <> [] /\ List.NoDup s /\ Js.toLowerCase a = a).
Proof.
  intros st.
  assert (Hrun : forall (events : list Event) (st0 : State),
             mapsCoherent st0 -> mapsCoherent (run events st0)).
  { clear. induction events as [| ev events IH]; intros st0 Hst;
      [exact Hst |].
    cbn [run fold_left]. apply IH. now apply step_coherent. }
  destruct (Hrun events (fresh created)) as (H1 & H2 & H3).
  { unfold mapsCoherent, fresh. cbn [tokenData lastUpdateTime subscribers].
    repeat split; intros; rewrite ?lookup_empty in *;
      try discriminate; try (destruct H as [x Hx]; discriminate).
    all: match goal with H : is_Some _ |- _ => destruct H; discriminate end. }
  fold st in H1, H2, H3.
  split; [exact H1 |]. split; [| exact H3].
  intros a p Ha.
  assert (Hlow : Js.toLowerCase a = a) by (apply H2; eauto).
  split; [exact Hlow |]. unfold getTokenData. now rewrite Hlow.
Qed.

End ServiceInvariant.

(** ** Signs of products and quotients *)

Section Binary64Signs.

Ltac cases_bool := repeat match goal with s : bool |- _ => destruct s end.

Lemma binary_round_aux_not_positive (m e : Z) (l : location) :
  SFltb (S754_zero false) (binary_round_aux prec emax true m e l) = false.
Proof.
  unfold binary_round_aux.
  destruct (shr_fexp prec emax m e l) as [mrs1 e1].
  destruct (shr_fexp prec emax _ e1 loc_Exact) as [mrs2 e2].
  destruct (shr_m mrs2); [reflexivity | | reflexivity].
  now destruct (e2 <=? emax - prec).
Qed.

Lemma SFmul_not_negative (x y : spec_float) :
  SFltb x (S754_zero false) = false -> SFltb y (S754_zero false) = false ->
  SFltb (SF64mul x y) (S754_zero false) = false.
Proof.
  destruct x as [sx | sx | | sx mx ex], y as [sy | sy | | sy my ey];
    try (cases_bool; cbn; congruence).
  destruct sx, sy; try (cbn; congruence). intros _ _.
  unfold SF64mul, SFmul. cbn [xorb].
  apply binary_round_aux_not_negative.
Qed.

Lemma SFmul_not_positive (x y : spec_float) :
  SFltb (S754_zero false) x = false -> SFltb y (S754_zero false) = false ->
  SFltb (S754_zero false) (SF64mul x y) = false.
Proof.
  destruct x as [sx | sx | | sx mx ex], y as [sy | sy | | sy my ey];
    try (cases_bool; cbn; congruence).
  destruct sx, sy; try (cbn; congruence). intros _ _.
  unfold SF64mul, SFmul. cbn [xorb].
  apply binary_round_aux_not_positive.
Qed.

Lemma SFdiv_not_positive (x y : spec_float) :
  SFltb (S754_zero false) x = false -> y <> S754_nan ->
  SFleb y (S754_zero false) = false ->
  SFltb (S754_zero false) (SF64div x y) = false.
Proof.
  destruct x as [sx | sx | | sx mx ex], y as [sy | sy | | sy my ey];
    try (cases_bool; cbn; congruence).
  destruct sx, sy; try (cbn; congruence). intros _ _ _.
  unfold SF64div, SFdiv. cbn [xorb].
  destruct (SFdiv_core_binary prec emax (Z.pos mx) ex (Z.pos my) ey)
    as [[mz ez] lz].
  apply binary_round_aux_not_positive.
Qed.

Lemma mul_not_negative (x y : float) :
  PrimFloat.ltb x 0 = false -> PrimFloat.ltb y 0 = false ->
  PrimFloat.ltb (x * y) 0 = false.
Proof.
  rewrite !FloatAxioms.ltb_spec, mul_spec, Prim2SF_zero.
  apply SFmul_not_negative.
Qed.

Lemma mul_not_positive (x y : float) :
  PrimFloat.ltb 0 x = false -> PrimFloat.ltb y 0 = false ->
  PrimFloat.ltb 0 (x * y) = false.
Proof.
  rewrite !FloatAxioms.ltb_spec, mul_spec, Prim2SF_zero.
  apply SFmul_not_positive.
Qed.

Lemma div_not_positive (x y : float) :
  PrimFloat.ltb 0 x = false ->
  PrimFloat.is_nan y || Js.le y 0 = false ->
  PrimFloat.ltb 0 (x / y) = false.
Proof.
  unfold Js.le.
  rewrite !FloatAxioms.ltb_spec, FloatAxioms.leb_spec, div_spec, is_nan_spec,
    Prim2SF_zero.
  intros Hx Hy. apply orb_false_iff in Hy as [Hnan Hle].
  apply SFdiv_not_positive; [assumption | | assumption].
  intros E. rewrite E in Hnan. discriminate.
Qed.

End Binary64Signs.

(** ** [lib/utils.ts] *)

Section UtilsFacts.
Import Utils.

(** X21: the sign of a percent change.  With a previous value of zero
    (of either sign) the change is reported as 0, and nothing is divided by
    zero.  With a previous value above zero, the change is not negative
    when the current value is not below the previous one, and not positive
    when the current value is not above it. *)
Theorem percent_change_follows_the_direction (current previous : float) :
  (PrimFloat.eqb previous 0 = true ->
   calculatePercentChange current previous = 0%float) /\
  (PrimFloat.is_nan previous || Js.le previous 0 = false ->
   (PrimFloat.ltb current previous = false ->
    PrimFloat.ltb (calculatePercentChange current previous) 0 = false) /\
   (PrimFloat.ltb previous current = false ->
    PrimFloat.ltb 0 (calculatePercentChange current previous) = false)).
Proof.
  unfold calculatePercentChange. split.
  - now intros ->.
  - intros Hpos.
    assert (Hnz : PrimFloat.eqb previous 0 = false).
    { destruct (PrimFloat.eqb previous 0) eqn:E; [| reflexivity].
      apply orb_false_iff in Hpos as [_ Hle]. unfold Js.le in Hle.
      revert E Hle.
      rewrite FloatAxioms.eqb_spec, FloatAxioms.leb_spec, Prim2SF_zero.
      unfold SFeqb, SFleb.
      destruct (SFcompare (Prim2SF previous) (S754_zero false)) as [[| |] |];
        congruence. }
    rewrite Hnz. split; intros Hdir.
    + apply mul_not_negative; [| reflexivity].
      apply div_not_negative; [| exact Hpos].
      now rewrite ltb_sub_zero.
    + apply mul_not_positive; [| reflexivity].
      apply div_not_positive; [| exact Hpos].
      now rewrite ltb_zero_sub.
Qed.

End UtilsFacts.

Section FormatFacts.
Import Utils.

Lemma float_ltb_not_eqb (x y : float) :
  PrimFloat.ltb x y = true -> PrimFloat.eqb x y = false.
Proof.
  rewrite FloatAxioms.ltb_spec, FloatAxioms.eqb_spec. unfold SFltb, SFeqb.
  destruct (SFcompare (Prim2SF x) (Prim2SF y)) as [[| |] |]; congruence.
Qed.

Lemma float_leb_nan_r (x v : float) :
  PrimFloat.is_nan v = true -> PrimFloat.leb x v = false.
Proof.
  rewrite is_nan_spec, FloatAxioms.leb_spec. unfold SFleb.
  destruct (Prim2SF v); try discriminate. intros _.
  destruct (Prim2SF x); reflexivity.
Qed.

Lemma float_nan_not_eqb (v y : float) :
  PrimFloat.is_nan v = true -> PrimFloat.eqb v y = false.
Proof.
  rewrite is_nan_spec, FloatAxioms.eqb_spec. unfold SFeqb.
  destruct (Prim2SF v); try discriminate. reflexivity.
Qed.

Lemma float_abs_nan (v y : float) :
  PrimFloat.is_nan v = true -> PrimFloat.ltb (PrimFloat.abs v) y = false.
Proof.
  rewrite is_nan_spec, FloatAxioms.ltb_spec, FloatAxioms.abs_spec.
  unfold SFltb. destruct (Prim2SF v); try discriminate. reflexivity.
Qed.

Lemma negative_not_above (num bound : float) :
  PrimFloat.ltb num 0 = true -> PrimFloat.ltb 0 bound = true ->
  PrimFloat.leb bound num = false.
Proof.
  intros Hneg Hpos. destruct (PrimFloat.leb bound num) eqn:E; [| reflexivity].
  pose proof (float_ltb_leb_trans 0 bound num Hpos E) as H0.
  pose proof (float_ltb_trans num 0 num Hneg H0) as Habs.
  now rewrite float_ltb_irrefl in Habs.
Qed.

(** X22: negative amounts and [NaN] are never abbreviated.  For a
    negative number that is not within a cent of zero, whatever its size,
    and for [NaN], [formatCurrency] gives the dollar sign followed by the
    plain [toFixed] rendering, without any of the suffixes K, M and B; a
    negative number within a cent of zero is shown as less than a cent. *)
Theorem negative_amounts_are_printed_in_full
  (toFixed : float -> nat -> string) (num : float) (decimals : nat) :
  (PrimFloat.ltb num 0 = true ->
   formatCurrency toFixed num decimals =
   if PrimFloat.ltb (PrimFloat.abs num) cent then "<$0.01"
   else String.append "$" (toFixed num decimals)) /\
  (PrimFloat.is_nan num = true ->
   formatCurrency toFixed num decimals =
   String.append "$" (toFixed num decimals)).
Proof.
  unfold formatCurrency. split.
  - intros Hneg. rewrite (float_ltb_not_eqb _ _ Hneg).
    destruct (PrimFloat.ltb (PrimFloat.abs num) cent); [reflexivity |].
    now rewrite !negative_not_above.
  - intros Hnan.
    now rewrite float_nan_not_eqb, float_abs_nan, !float_leb_nan_r.
Qed.

End FormatFacts.
